(** * COMPAS binary-orbit engine: a shallow embedding of [BaseBinaryStar.cpp]
  and [utils.cpp], and the properties of the specification checked on it.

  Arithmetic.  A C++ [double] is idealised as a real number or [NaN]:
  rounding and overflow are not modelled.  [NaN] is the IEEE NaN: it
  propagates through arithmetic and every ordered comparison with it is
  false.  The type has no infinities.  Where IEEE arithmetic gives a NaN
  (0/0, square root or logarithm of a negative number, [acos] outside
  [-1,1]) so does the model; where it gives an infinity (a number other than
  zero divided by zero, the logarithm of zero) the model has [NaN] as well,
  which is the IEEE value only if the infinity goes on to be multiplied by
  zero.  The numbered properties below state a value [NaN] only where the
  IEEE value is a NaN; the auxiliary lemmas on [Double] state the value of
  the model.

  Integers.  An [int] is a [Z]; where the source converts a [double] to
  [int] or takes [abs] of an [int], the model is the source's function on
  the values for which C++ defines the operation, and the properties that
  depend on it carry the range as a hypothesis. *)

From Stdlib Require Import Reals Lra Lia ZArith Bool List Psatz.
From Stdlib Require Ascii.
Import ListNotations.

Local Open Scope R_scope.

(* ================================================================== *)
(** ** Doubles *)

Inductive double : Type :=
| Fin (r : R)
| NaN.

Declare Scope double_scope.
Delimit Scope double_scope with D.
Bind Scope double_scope with double.

Module Double.

Definition lift1 (f : R -> R) (x : double) : double :=
  match x with Fin a => Fin (f a) | NaN => NaN end.

Definition lift2 (f : R -> R -> R) (x y : double) : double :=
  match x, y with Fin a, Fin b => Fin (f a b) | _, _ => NaN end.

Definition add : double -> double -> double := lift2 Rplus.
Definition sub : double -> double -> double := lift2 Rminus.
Definition mul : double -> double -> double := lift2 Rmult.
Definition neg : double -> double := lift1 Ropp.

(** [x / y].  For [y] zero, [0 / 0] is NaN; a number other than zero over
    zero is an infinity in C++, which the type does not have, and NaN
    here. *)
Definition div (x y : double) : double :=
  match x, y with
  | Fin a, Fin b => if Req_dec_T b 0 then NaN else Fin (a / b)
  | _, _ => NaN
  end.

(** [sqrt(x)]: NaN for negative [x]. *)
Definition sqrt (x : double) : double :=
  match x with
  | Fin a => if Rlt_dec a 0 then NaN else Fin (R_sqrt.sqrt a)
  | NaN => NaN
  end.

(** [log(x)]: minus infinity at zero, NaN below. *)
Definition log (x : double) : double :=
  match x with
  | Fin a => if Rlt_dec 0 a then Fin (ln a) else NaN
  | NaN => NaN
  end.

(** [pow(x, y)] of <math.h>.  For a positive base it is [exp (y ln x)];
    [pow(x, 0)] is 1; [pow(0, y)] is 0 for positive [y] and infinite for
    negative [y]; a negative base has a finite power only for an integral
    exponent. *)
Definition pow (x y : double) : double :=
  match x, y with
  | Fin a, Fin b =>
      if Rlt_dec 0 a then Fin (Rpower a b)
      else if Req_dec_T b 0 then Fin 1
      else if Req_dec_T a 0 then (if Rlt_dec 0 b then Fin 0 else NaN)
      else if Req_dec_T (IZR (Zfloor b)) b
           then Fin (if Z.even (Zfloor b) then Rpower (- a) b
                     else - Rpower (- a) b)
           else NaN
  | _, _ => NaN
  end.

Definition cos : double -> double := lift1 Rtrigo_def.cos.
Definition sin : double -> double := lift1 Rtrigo_def.sin.
Definition exp : double -> double := lift1 Rtrigo_def.exp.

(** [acos(x)]: NaN outside [-1, 1]. *)
Definition acos (x : double) : double :=
  match x with
  | Fin a => if Rle_dec (-1) a
             then if Rle_dec a 1 then Fin (Ratan.acos a) else NaN
             else NaN
  | NaN => NaN
  end.

Definition fabs : double -> double := lift1 Rabs.
Definition floor : double -> double := lift1 (fun a => IZR (Zfloor a)).

(** Comparisons; false as soon as one side is NaN. *)
Definition lt (x y : double) : bool :=
  match x, y with
  | Fin a, Fin b => if Rlt_dec a b then true else false
  | _, _ => false
  end.

Definition le (x y : double) : bool :=
  match x, y with
  | Fin a, Fin b => if Rle_dec a b then true else false
  | _, _ => false
  end.

Definition eq (x y : double) : bool :=
  match x, y with
  | Fin a, Fin b => if Req_dec_T a b then true else false
  | _, _ => false
  end.

(** [std::max(a, b)] is [(a < b) ? b : a], [std::min(a, b)] is
    [(b < a) ? b : a]. *)
Definition max (a b : double) : double := if lt a b then b else a.
Definition min (a b : double) : double := if lt b a then b else a.

(** [fmax] of <math.h> returns the other argument when one is NaN. *)
Definition fmax (a b : double) : double :=
  match a, b with
  | NaN, _ => b
  | _, NaN => a
  | Fin x, Fin y => Fin (Rmax x y)
  end.

(** Conversion of a double to [int]: truncation toward zero, for a value
    whose truncation is an [int] (from [-2^31] to [2^31 - 1]).  Outside
    this range, and for a NaN, C++ leaves the conversion undefined; the
    function then returns the truncation, and 0 for a NaN, and nothing is
    to be read from these values. *)
Definition to_int (x : double) : Z :=
  match x with
  | Fin a => if Rle_dec 0 a then Zfloor a else Zceil a
  | NaN => 0%Z
  end.

Definition of_int (n : Z) : double := Fin (IZR n).

Definition is_finite (x : double) : Prop := exists r, x = Fin r.

End Double.

Notation "x + y" := (Double.add x y) : double_scope.
Notation "x - y" := (Double.sub x y) : double_scope.
Notation "x * y" := (Double.mul x y) : double_scope.
Notation "x / y" := (Double.div x y) : double_scope.
Notation "- x" := (Double.neg x) : double_scope.

(* ================================================================== *)
(** ** utils.cpp *)

(** constants.h is not part of the sources at hand: whether
  [COMPARE_WITH_TOLERANCE] is defined, and the two tolerances, are
  parameters of the development. *)
Class CompareConfig : Type := {
COMPARE_WITH_TOLERANCE : bool;
FLOAT_TOLERANCE_ABSOLUTE : R;
FLOAT_TOLERANCE_RELATIVE : R
}.

(** The comparison is exact when the macro is undefined, or when both
  tolerances are zero. *)
Definition exact_compare (cfg : CompareConfig) : Prop :=
COMPARE_WITH_TOLERANCE = false \/
(FLOAT_TOLERANCE_ABSOLUTE = 0 /\ FLOAT_TOLERANCE_RELATIVE = 0).

Module utils.
Section Compare.
Context {cfg : CompareConfig}.

(** [int Compare(const double p_X, const double p_Y)] *)
Definition Compare (p_X p_Y : double) : Z :=
  if COMPARE_WITH_TOLERANCE then
    if Double.le (Double.fabs (p_X - p_Y))
         (Double.max (Fin FLOAT_TOLERANCE_ABSOLUTE)
            (Fin FLOAT_TOLERANCE_RELATIVE
             * Double.max (Double.fabs p_X) (Double.fabs p_Y)))
    then 0%Z
    else if Double.lt p_X p_Y then (-1)%Z else 1%Z
  else
    if Double.eq p_X p_Y then 0%Z
    else if Double.lt p_X p_Y then (-1)%Z else 1%Z.

End Compare.

(** [bool IsOneOf(const STELLAR_TYPE p_StellarType, const STELLAR_TYPE_LIST
    p_List)], over any type of stellar types with a decidable equality. *)
Fixpoint IsOneOf {T : Type} (eqb : T -> T -> bool) (p_StellarType : T)
    (p_List : list T) : bool :=
  match p_List with
  | [] => false
  | elem :: rest =>
      if eqb p_StellarType elem then true else IsOneOf eqb p_StellarType rest
  end.

(* ------------------------------------------------------------------ *)
(** *** Strings *)

(** A [std::string] is the list of its characters.  [::toupper] and
    [::tolower] are taken in the C locale: they move the 26 letters of ASCII
    and leave every other character alone. *)
Definition std_string : Type := list Ascii.ascii.

Definition toupper (c : Ascii.ascii) : Ascii.ascii :=
  let n := Ascii.N_of_ascii c in
  if ((97 <=? n) && (n <=? 122))%N then Ascii.ascii_of_N (n - 32) else c.

Definition tolower (c : Ascii.ascii) : Ascii.ascii :=
  let n := Ascii.N_of_ascii c in
  if ((65 <=? n) && (n <=? 90))%N then Ascii.ascii_of_N (n + 32) else c.

(** [std::string ToUpper(std::string p_Str)] *)
Definition ToUpper (p_Str : std_string) : std_string := map toupper p_Str.

(** [std::string ToLower(std::string p_Str)] *)
Definition ToLower (p_Str : std_string) : std_string := map tolower p_Str.

(** [c_str()] read as a C string: the characters before the first NUL. *)
Fixpoint c_str (s : std_string) : std_string :=
  match s with
  | [] => []
  | c :: rest => if Ascii.eqb c Ascii.zero then [] else c :: c_str rest
  end.

(** [std::strcmp] on two C strings, characters compared as unsigned; only
    the sign of the result is specified, and -1, 0, 1 stand for it. *)
Fixpoint strcmp (s1 s2 : std_string) : Z :=
  match s1, s2 with
  | [], [] => 0%Z
  | [], _ :: _ => (-1)%Z
  | _ :: _, [] => 1%Z
  | c1 :: r1, c2 :: r2 =>
      match (Ascii.N_of_ascii c1 ?= Ascii.N_of_ascii c2)%N with
      | Eq => strcmp r1 r2
      | Lt => (-1)%Z
      | Gt => 1%Z
      end
  end.

(** [bool Equals(std::string p_Str1, std::string p_Str2)] *)
Definition Equals (p_Str1 p_Str2 : std_string) : bool :=
  let p_Str1 := map tolower p_Str1 in
  let p_Str2 := map tolower p_Str2 in
  (strcmp (c_str p_Str1) (c_str p_Str2) =? 0)%Z.

(** The characters ['0'] and [' ']. *)
Definition char_0 : Ascii.ascii := Ascii.ascii_of_N 48.
Definition char_space : Ascii.ascii := Ascii.ascii_of_N 32.

(** [std::string PadLeadingZeros(const std::string p_Str, const std::size_t
    p_MaxLength)] *)
Definition PadLeadingZeros (p_Str : std_string) (p_MaxLength : nat)
    : std_string :=
  if (length p_Str <? p_MaxLength)%nat
  then repeat char_0 (p_MaxLength - length p_Str) ++ p_Str
  else p_Str.

(** Conversions to [int] (32 bits, two's complement) and to [std::size_t]
    (64 bits). *)
Definition to_int32 (n : Z) : Z := ((n + 2 ^ 31) mod 2 ^ 32 - 2 ^ 31)%Z.
Definition to_size_t (n : Z) : Z := (n mod 2 ^ 64)%Z.

(** [std::string CentreJustify(const std::string p_Str, const std::size_t
    p_Width)].  The two counts are [int]s computed from [std::size_t]
    values; a negative count handed to the constructor [std::string(n, ' ')]
    becomes a size beyond [max_size()] and the constructor throws
    [std::length_error]: the result is then [None]. *)
Definition CentreJustify (p_Str : std_string) (p_Width : nat)
    : option std_string :=
  if (length p_Str <? p_Width)%nat then
    let deficit := (Z.of_nat p_Width - Z.of_nat (length p_Str))%Z in
    let numLeadingSpaces := to_int32 (deficit / 2) in
    let numTralingSpaces :=
      to_int32 (to_size_t (deficit - numLeadingSpaces)) in
    if (numLeadingSpaces <? 0)%Z || (numTralingSpaces <? 0)%Z then None
    else
      let leadingSpaces := repeat char_space (Z.to_nat numLeadingSpaces) in
      let trailingSpaces := repeat char_space (Z.to_nat numTralingSpaces) in
      Some (leadingSpaces ++ p_Str ++ trailingSpaces)
  else Some p_Str.

(* ------------------------------------------------------------------ *)
(** *** Arithmetic helpers *)

(** [double SolveQuadratic(const double p_A, const double p_B, double p_C)].
    The boolean tells whether the line "Error. No real roots" was written to
    [std::cerr]. *)
Definition SolveQuadratic (p_A p_B p_C : double) : double * bool :=
  let discriminant := (p_B * p_B - Fin 4 * p_A * p_C)%D in
  if Double.lt discriminant (Fin 0) then (Fin 0, true)
  else if Double.lt (Fin 0) discriminant then
    let sqrtD := Double.sqrt discriminant in
    let A2 := (p_A + p_A)%D in
    let root1 := ((- p_B + sqrtD) / A2)%D in
    let root2 := ((- p_B - sqrtD) / A2)%D in
    (Double.max root1 root2, false)
  else ((- p_B / (p_A + p_A))%D, false).

(** The loop of [intPow]: [times] multiplications by the base. *)
Fixpoint intPow_loop (times : nat) (p_Base result : double) : double :=
  match times with
  | O => result
  | S times' => intPow_loop times' p_Base (result * p_Base)%D
  end.

(** [double intPow(const double p_Base, const int p_Exponent)].  The
    exponent is an [int], from [-2^31] to [2^31 - 1]; [abs] of the least
    [int] is not defined in C++, and the model is the source's function for
    the exponents above it.  A zero [result] inverted ([1.0 / 0.0]) is an
    infinity in C++ and NaN here. *)
Definition intPow (p_Base : double) (p_Exponent : Z) : double :=
  let result :=
    if (p_Exponent =? 0)%Z then Fin 1
    else intPow_loop (Z.to_nat (Z.abs p_Exponent)) p_Base (Fin 1) in
  if (p_Exponent <? 0)%Z then (Fin 1 / result)%D else result.

(* ------------------------------------------------------------------ *)
(** *** Tabulated distributions *)

(** A [std::map<double, double>] with finite keys and values, as the list of
    its pairs in the order of iteration (increasing keys). *)
Definition Table : Type := list (R * R).

(** The invariant of a [std::map], which keeps its keys in strictly
    increasing order: [f] grows strictly from [below] along [rest].  With
    [f := fst] this is the order of the keys; with [f := snd] it says that
    the tabulated values grow as well. *)
Fixpoint increasing_from (f : R * R -> R) (below : R * R) (rest : Table)
    : Prop :=
  match rest with
  | [] => True
  | p :: rest' => f below < f p /\ increasing_from f p rest'
  end.

(** The loop of [SampleFromTabulatedCDF] and what follows it: [below] is the
    pair before the iterator, [rest] the pairs from the iterator on. *)
Fixpoint SampleFromTabulatedCDF_from (below : R * R) (rest : Table)
    (p_X : double) : double :=
  match rest with
  | [] => Fin (snd below)
  | above :: rest' =>
      if Double.lt (Fin (fst above)) p_X
      then SampleFromTabulatedCDF_from above rest' p_X
      else
        let xAbove := Fin (fst above) in
        let yAbove := Fin (snd above) in
        let xBelow := Fin (fst below) in
        let yBelow := Fin (snd below) in
        let gradient := ((yAbove - yBelow) / (xAbove - xBelow))%D in
        (yBelow + (p_X - xBelow) * gradient)%D
  end.

(** [double SampleFromTabulatedCDF(const double p_X, const std::map<double,
    double> pTable)].  The function reads the first key of the table before
    it checks that the table is not empty: on an empty table the behaviour of
    the program is undefined, and the result is [None]. *)
Definition SampleFromTabulatedCDF (p_X : double) (pTable : Table)
    : option double :=
  match pTable with
  | [] => None
  | first :: rest =>
      let xMin := Fin (fst first) in
      let xMax := Fin (fst (last rest first)) in
      Some (if Double.le xMin p_X && Double.le p_X xMax then
              if Double.lt (Fin (fst first)) p_X
              then SampleFromTabulatedCDF_from first rest p_X
              else Fin (snd first)
            else Fin 0)
  end.

(** The loop of [InverseSampleFromTabulatedCDF] and what follows it.  When
    the loop runs off the table the iterator [end()] is dereferenced, which
    is undefined: [None]. *)
Fixpoint InverseSampleFromTabulatedCDF_from (below : R * R) (rest : Table)
    (y : double) : option double :=
  match rest with
  | [] => None
  | above :: rest' =>
      if Double.lt (Fin (snd above)) y
      then InverseSampleFromTabulatedCDF_from above rest' y
      else
        let xAbove := Fin (fst above) in
        let yAbove := Fin (snd above) in
        let xBelow := Fin (fst below) in
        let yBelow := Fin (snd below) in
        let gradient := ((yAbove - yBelow) / (xAbove - xBelow))%D in
        Some (xBelow + (y - yBelow) / gradient)%D
  end.

(** [double InverseSampleFromTabulatedCDF(const double p_Y, const
    std::map<double, double> p_Table)] *)
Definition InverseSampleFromTabulatedCDF (p_Y : double) (p_Table : Table)
    : option double :=
  match p_Table with
  | [] => Some (Fin 0)
  | first :: rest =>
      if Double.le (Fin 0) p_Y && Double.lt p_Y (Fin 1) then
        let yMin := Fin (snd first) in
        let yMax := Fin (snd (last rest first)) in
        let y :=
          (yMin + p_Y * (Double.max yMin yMax - Double.min yMax yMin))%D in
        if Double.lt (Fin (snd first)) y
        then InverseSampleFromTabulatedCDF_from first rest y
        else Some (Fin (fst first))
      else Some (Fin 0)
  end.

Section PowerLaw.
(** [RAND->Random()]: a generator of numbers in [0, 1). *)
Variable RandState : Type.
Variable Random : RandState -> R * RandState.

(** [double InverseSampleFromPowerLaw(const double p_Power, const double
    p_Xmax, const double p_Xmin)] *)
Definition InverseSampleFromPowerLaw (p_Power p_Xmax p_Xmin : double)
    (rs : RandState) : double * RandState :=
  let (u, rs) := Random rs in
  let rand := Fin u in
  (if Double.eq p_Power (Fin (-1)) then
     (Double.exp (rand * Double.log (p_Xmax / p_Xmin)) * p_Xmin)%D
   else
     let powerPlus1 := (p_Power + Fin 1)%D in
     let min_powerPlus1 := Double.pow p_Xmin powerPlus1 in
     Double.pow
       (rand * (Double.pow p_Xmax powerPlus1 - min_powerPlus1)
        + min_powerPlus1)%D
       (Fin 1 / powerPlus1)%D,
   rs).

End PowerLaw.

Section Kepler.
(** Constants of constants.h, which is not part of the sources at hand. *)
Variables G MSOL SECONDS_IN_DAY AU : R.

(** [double ConvertPeriodInDaysToSemiMajorAxisInAU(const double p_Mass1,
    const double p_Mass2, const double p_Period)] *)
Definition ConvertPeriodInDaysToSemiMajorAxisInAU
    (p_Mass1 p_Mass2 p_Period : double) : double :=
  let a_cubed_SI_top :=
    (Fin G * ((p_Mass1 * Fin MSOL) + (p_Mass2 * Fin MSOL)) * p_Period
     * p_Period * Fin SECONDS_IN_DAY * Fin SECONDS_IN_DAY)%D in
  let a_cubed_SI_bottom := (Fin 4 * Fin PI * Fin PI)%D in
  let a_cubed_SI := (a_cubed_SI_top / a_cubed_SI_bottom)%D in
  let a_SI := Double.pow a_cubed_SI (Fin 1 / Fin 3)%D in
  (a_SI / Fin AU)%D.

End Kepler.

(* ------------------------------------------------------------------ *)
(** *** Supernova event masks *)

Section SNEvent.
(** The enumerators of [SN_EVENT] (constants.h, not part of the sources at
    hand) as the integers they stand for; [&] and [|] act on them bit by
    bit. *)
Variables NONE CCSN ECSN PISN PPISN USSN : Z.

(** [SN_EVENT SNEventType(const SN_EVENT p_SNEvent)] *)
Definition SNEventType (p_SNEvent : Z) : Z :=
  if (Z.land p_SNEvent (Z.lor CCSN USSN) =? CCSN)%Z then CCSN
  else if (Z.land p_SNEvent ECSN =? ECSN)%Z then ECSN
  else if (Z.land p_SNEvent PISN =? PISN)%Z then PISN
  else if (Z.land p_SNEvent PPISN =? PPISN)%Z then PPISN
  else if (Z.land p_SNEvent USSN =? USSN)%Z then USSN
  else NONE.

End SNEvent.

(* ------------------------------------------------------------------ *)
(** *** Linear algebra on [DBL_VECTOR] *)

(** A [DBL_VECTOR] is a [std::vector<double>].  [a[i]] beyond the end of the
    vector is undefined in C++; the model reads a NaN there. *)
Definition DBL_VECTOR : Type := list double.

Definition at_index (a : DBL_VECTOR) (i : nat) : double := nth i a NaN.

(** [double DotProduct(DBL_VECTOR a, DBL_VECTOR b)] *)
Definition DotProduct (a b : DBL_VECTOR) : double :=
  fold_left (fun c i => (c + at_index a i * at_index b i)%D)
    [0%nat; 1%nat; 2%nat] (Fin 0).

(** [DBL_VECTOR CrossProduct(DBL_VECTOR a, DBL_VECTOR b)] *)
Definition CrossProduct (a b : DBL_VECTOR) : DBL_VECTOR :=
  [ (at_index a 1 * at_index b 2 - at_index a 2 * at_index b 1)%D;
    (at_index a 2 * at_index b 0 - at_index a 0 * at_index b 2)%D;
    (at_index a 0 * at_index b 1 - at_index a 1 * at_index b 0)%D ].

(** [double CalculateSpeedFromVelocity(const DBL_VECTOR velocity)] *)
Definition CalculateSpeedFromVelocity (velocity : DBL_VECTOR) : double :=
  let speed2 :=
    (at_index velocity 0 * at_index velocity 0
     + at_index velocity 1 * at_index velocity 1
     + at_index velocity 2 * at_index velocity 2)%D in
  Double.sqrt speed2.

(** [DBL_VECTOR RotateVector(const DBL_VECTOR p_oldVector, const double
    p_ThetaE, const double p_PhiE, const double p_PsiE)] *)
Definition RotateVector (p_oldVector : DBL_VECTOR)
    (p_ThetaE p_PhiE p_PsiE : double) : DBL_VECTOR :=
  let cTheta := Double.cos p_ThetaE in
  let cPhi := Double.cos p_PhiE in
  let cPsi := Double.cos p_PsiE in
  let sTheta := Double.sin p_ThetaE in
  let sPhi := Double.sin p_PhiE in
  let sPsi := Double.sin p_PsiE in
  let RotationMatrix : list DBL_VECTOR :=
    [ [ (cPhi * cPsi - sPhi * cTheta * sPsi)%D;
        (- cPhi * sPsi - sPhi * cTheta * cPsi)%D;
        (sTheta * sPhi)%D ];
      [ (sPhi * cPsi + cPhi * cTheta * sPsi)%D;
        (- sPhi * sPsi + cPhi * cTheta * cPsi)%D;
        (- sTheta * cPhi)%D ];
      [ (sTheta * sPsi)%D; (sTheta * cPsi)%D; cTheta ] ] in
  map (fun row =>
         fold_left (fun acc j => (acc + at_index row j * at_index p_oldVector j)%D)
           [0%nat; 1%nat; 2%nat] (Fin 0))
      RotationMatrix.


End utils.

(* ================================================================== *)
(** ** Enumerations that BaseBinaryStar.cpp names *)

Module ERROR.
Inductive t : Set :=
| NONE
| RESOLVE_SUPERNOVA_IMPROPERLY_CALLED
| UNKNOWN_MT_ANGULAR_MOMENTUM_LOSS_PRESCRIPTION.
End ERROR.

Module MT_TRACKING.
Inductive t : Set :=
| NO_MASS_TRANSFER
| STABLE_FROM_1_TO_2
| STABLE_FROM_2_TO_1
| CE_FROM_1_TO_2
| CE_FROM_2_TO_1
| CE_DOUBLE_CORE
| CE_BOTH_MS
| CE_MS_WITH_CO.
End MT_TRACKING.

Module MT_ANGULAR_MOMENTUM_LOSS_PRESCRIPTION.
(** The four prescriptions of the switch in
    [CalculateGammaAngularMomentumLoss]; [OTHER] is any enumerator that
    reaches its [default] label. *)
Inductive t : Set :=
| JEANS
| ISOTROPIC_RE_EMISSION
| CIRCUMBINARY_RING
| ARBITRARY
| OTHER.
End MT_ANGULAR_MOMENTUM_LOSS_PRESCRIPTION.

Module CHE_OPTION.
(** Only [NONE] is told apart in BaseBinaryStar.cpp. *)
Inductive t : Set :=
| NONE
| ENABLED.
End CHE_OPTION.

(** The two constituent stars are owned by the binary; [m_Supernova],
  [m_Companion] are pointers to one or the other. *)
Inductive StarRef : Set := Star1 | Star2.

(* ================================================================== *)
(** ** What the sources at hand do not define *)

(** constants.h: physical constants, unit conversions and the lists of
    stellar types.  The type of stellar types itself is declared there. *)
Class Constants : Type := {
  STELLAR_TYPE : Type;
  STELLAR_TYPE_eqb : STELLAR_TYPE -> STELLAR_TYPE -> bool;
  NAKED_HELIUM_STAR_MS : STELLAR_TYPE;
  ALL_MAIN_SEQUENCE : list STELLAR_TYPE;
  ALL_HERTZSPRUNG_GAP : list STELLAR_TYPE;
  COMPACT_OBJECTS : list STELLAR_TYPE;
  G : R;
  C : R;
  G1 : R;
  G_SN : R;
  AU : R;
  MSOL_TO_KG : R;
  SECONDS_IN_YEAR : R;
  YEAR_TO_MYR : R;
  HUBBLE_TIME : R;
  RSOL_TO_AU : R;
  AU_TO_RSOL : R;
  AU_TO_KM : R;
  KM_TO_AU : R;
  MAXIMUM_MASS_TRANSFER_FRACTION_PER_STEP : R
}.

(** <math.h> *)
Definition M_PI : R := PI.

(** Modelled from the spec: [_2_PI] is a constant of constants.h; the angles
    it scales are "uniform on [0, 2 pi)". *)
Definition _2_PI : R := 2 * PI.

(** Program options read by the functions embedded below. *)
Class Options : Type := {
  AllowRLOFAtBirth : bool;
  AllowTouchingAtBirth : bool;
  MinimumMassSecondary : R;
  AIS_RefinementPhase : bool;
  InitialMassFunctionMin : R;
  InitialMassFunctionMax : R;
  MassRatioDistributionMin : R;
  MassRatioDistributionMax : R;
  SemiMajorAxisDistributionMin : R;
  SemiMajorAxisDistributionMax : R;
  AllowMainSequenceStarToSurviveCommonEnvelope : bool;
  CHE_Option : CHE_OPTION.t;
  MassTransferAngularMomentumLossPrescription :
    MT_ANGULAR_MOMENTUM_LOSS_PRESCRIPTION.t;
  MassTransferJloss : R
}.

(* ================================================================== *)
(** ** Vector3d *)

(** vector3d.h is not part of the sources at hand.  A [Vector3d] holds three
    doubles; its operations are modelled on their counterparts for
    [DBL_VECTOR] in utils.cpp ([DotProduct], [CrossProduct],
    [CalculateSpeedFromVelocity], [RotateVector]). *)
Record Vector3d : Type := mkVector3d {
  xValue : double;
  yValue : double;
  zValue : double
}.

Declare Scope vector_scope.
Delimit Scope vector_scope with V.
Bind Scope vector_scope with Vector3d.

Module Vec.

Definition zero : Vector3d := mkVector3d (Fin 0) (Fin 0) (Fin 0).

Definition add (a b : Vector3d) : Vector3d :=
  mkVector3d (xValue a + xValue b) (yValue a + yValue b) (zValue a + zValue b).

Definition sub (a b : Vector3d) : Vector3d :=
  mkVector3d (xValue a - xValue b) (yValue a - yValue b) (zValue a - zValue b).

Definition scale (k : double) (a : Vector3d) : Vector3d :=
  mkVector3d (k * xValue a) (k * yValue a) (k * zValue a).

Definition divide (a : Vector3d) (k : double) : Vector3d :=
  mkVector3d (xValue a / k) (yValue a / k) (zValue a / k).

(** [Magnitude()], as [CalculateSpeedFromVelocity]. *)
Definition Magnitude (a : Vector3d) : double :=
  Double.sqrt (xValue a * xValue a + yValue a * yValue a + zValue a * zValue a).

(** [RotateVector(p_ThetaE, p_PhiE, p_PsiE)], as [utils::RotateVector]: the
    rotation matrix of the three Euler angles applied to the vector, each
    component accumulated from zero. *)
Definition RotateVector (p_oldVector : Vector3d)
    (p_ThetaE p_PhiE p_PsiE : double) : Vector3d :=
  let cTheta := Double.cos p_ThetaE in
  let cPhi := Double.cos p_PhiE in
  let cPsi := Double.cos p_PsiE in
  let sTheta := Double.sin p_ThetaE in
  let sPhi := Double.sin p_PhiE in
  let sPsi := Double.sin p_PsiE in
  let v0 := xValue p_oldVector in
  let v1 := yValue p_oldVector in
  let v2 := zValue p_oldVector in
  mkVector3d
    (Fin 0 + (cPhi * cPsi - sPhi * cTheta * sPsi) * v0
           + (- cPhi * sPsi - sPhi * cTheta * cPsi) * v1
           + (sTheta * sPhi) * v2)
    (Fin 0 + (sPhi * cPsi + cPhi * cTheta * sPsi) * v0
           + (- sPhi * sPsi + cPhi * cTheta * cPsi) * v1
           + (- sTheta * cPhi) * v2)
    (Fin 0 + (sTheta * sPsi) * v0
           + (sTheta * cPsi) * v1
           + cTheta * v2).

Definition is_finite (a : Vector3d) : Prop :=
  Double.is_finite (xValue a) /\ Double.is_finite (yValue a) /\
  Double.is_finite (zValue a).

(** The vector of three finite components. *)
Definition of_reals (x y z : R) : Vector3d :=
  mkVector3d (Fin x) (Fin y) (Fin z).

End Vec.

Notation "a + b" := (Vec.add a b) : vector_scope.
Notation "a - b" := (Vec.sub a b) : vector_scope.
Notation "k *v a" := (Vec.scale k a) (at level 40, left associativity).
Notation "a /v k" := (Vec.divide a k) (at level 40, left associativity).

Module linalg.

(** [linalg::dot], as [utils::DotProduct]: accumulated from zero. *)
Definition dot (a b : Vector3d) : double :=
  Fin 0 + xValue a * xValue b + yValue a * yValue b + zValue a * zValue b.

(** [linalg::cross], as [utils::CrossProduct]. *)
Definition cross (a b : Vector3d) : Vector3d :=
  mkVector3d
    (yValue a * zValue b - zValue a * yValue b)
    (zValue a * xValue b - xValue a * zValue b)
    (xValue a * yValue b - yValue a * xValue b).

(** Modelled from the spec: [linalg::angleBetween] belongs to vector3d,
    which is not part of the sources at hand.  The spec has the Euler angle
    ThetaE computed as "the angle between H and H'": the arc cosine of the
    normalised scalar product. *)
Definition angleBetween (a b : Vector3d) : double :=
  Double.acos (dot a b / (Vec.Magnitude a * Vec.Magnitude b)).

End linalg.

(* ================================================================== *)
(** ** The constituent stars and the global services *)

(** BinaryConstituentStar is a collaborator whose code is not part of the
    sources at hand.  Its accessors and its state-changing member functions
    are taken as an interface: nothing is assumed about what a member
    function does to the star. *)
Class StarInterface {K : Constants} : Type := {
  BinaryConstituentStar : Type;
  KickParameters : Type;
  (** the empty braces [{}] passed by the sampling constructor *)
  NoKickParameters : KickParameters;
  (** [new BinaryConstituentStar(seed, mass, metallicity, kick, LBV, WR)] *)
  NewBinaryConstituentStar :
    N -> double -> double -> KickParameters -> double -> double ->
    BinaryConstituentStar;
  (** accessors *)
  Mass : BinaryConstituentStar -> double;
  MassPrev : BinaryConstituentStar -> double;
  Radius : BinaryConstituentStar -> double;
  RadiusPostCEE : BinaryConstituentStar -> double;
  CoreMass : BinaryConstituentStar -> double;
  LambdaAtCEE : BinaryConstituentStar -> double;
  StellarType : BinaryConstituentStar -> STELLAR_TYPE;
  IsRLOF : BinaryConstituentStar -> bool;
  IsSNevent : BinaryConstituentStar -> bool;
  SN_Theta : BinaryConstituentStar -> double;
  SN_Phi : BinaryConstituentStar -> double;
  SN_KickMagnitude : BinaryConstituentStar -> double;
  SN_EccentricAnomaly : BinaryConstituentStar -> double;
  SN_TrueAnomaly : BinaryConstituentStar -> double;
  (** member functions that change the star *)
  SetCompanion : StarRef -> BinaryConstituentStar -> BinaryConstituentStar;
  SetOrbitalEnergyPreSN : double -> BinaryConstituentStar -> BinaryConstituentStar;
  SetOrbitalEnergyPostSN : double -> BinaryConstituentStar -> BinaryConstituentStar;
  UpdateComponentVelocity : Vector3d -> BinaryConstituentStar -> BinaryConstituentStar;
  CalculateSNAnomalies : double -> BinaryConstituentStar -> BinaryConstituentStar;
  CheckRunaway : bool -> BinaryConstituentStar -> BinaryConstituentStar;
  ClearCurrentSNEvent : BinaryConstituentStar -> BinaryConstituentStar;
  CalculateLambdas : double -> BinaryConstituentStar -> BinaryConstituentStar;
  CalculateBindingEnergies :
    double -> double -> double -> BinaryConstituentStar -> BinaryConstituentStar;
  CalculateCommonEnvelopeValues : BinaryConstituentStar -> BinaryConstituentStar;
  StarSetPreCEEValues : BinaryConstituentStar -> BinaryConstituentStar;
  StarSetPostCEEValues : BinaryConstituentStar -> BinaryConstituentStar;
  ResolveCommonEnvelopeAccretion : double -> BinaryConstituentStar -> BinaryConstituentStar;
  ResolveEnvelopeLossAndSwitch : BinaryConstituentStar -> BinaryConstituentStar;
  UpdateAttributes :
    double -> double -> bool -> BinaryConstituentStar -> BinaryConstituentStar;
  SetOmega : double -> BinaryConstituentStar -> BinaryConstituentStar
}.

(** [m_Star->IsOneOf(list)]: the star's stellar type looked up with
    [utils::IsOneOf]. *)
Definition IsOneOf {K : Constants} {SI : StarInterface}
    (st : BinaryConstituentStar) (p_List : list STELLAR_TYPE) : bool :=
  utils.IsOneOf STELLAR_TYPE_eqb (StellarType st) p_List.

(** The random stream [RAND] and, for the sampling constructor, the
    distribution samplers.  The samplers are member functions of
    BaseBinaryStar.cpp that draw from [RAND], [OPTIONS] and the adaptive
    importance sampler [m_AIS]; what they return is left arbitrary, so that
    the properties of the rejection loop hold for every sampler. *)
Class RandomInterface : Type := {
  RandState : Type;
  (** [RAND->Random()], a number of [0, 1) *)
  Random : RandState -> R * RandState;
  AIS_Initialise : RandState -> RandState;
  SampleInitialMassDistribution : RandState -> double * RandState;
  SampleQDistribution : RandState -> double * RandState;
  SampleMetallicityDistribution : RandState -> double * RandState;
  SampleSemiMajorAxisDistribution : double -> double -> RandState -> double * RandState;
  SampleEccentricityDistribution : RandState -> double * RandState
}.

(** What reaches the log. *)
Inductive LogRecord : Set :=
| SHOW_WARN (e : ERROR.t)
| PrintSupernovaDetails
| PrintDoubleCompactObjects
| PrintCommonEnvelope.

(** The services outside the binary: the random stream and the log. *)
Record World {RI : RandomInterface} : Type := mkWorld {
  rand : RandState;
  log : list LogRecord
}.

Definition emit {RI : RandomInterface} (r : LogRecord) (w : World) : World :=
  mkWorld _ (rand w) (log w ++ [r]).

Definition draw {RI : RandomInterface} (w : World) : R * World :=
  let (u, rs) := Random (rand w) in (u, mkWorld _ rs (log w)).

(* ================================================================== *)
(** ** The state of a BaseBinaryStar *)

(** The data members of type [double] that the embedded functions read or
    write; [m_CEDetails.preCEE.semiMajorAxis] is written
    [m_CEDetails_preCEE_semiMajorAxis]. *)
Inductive DoubleMember : Set :=
| m_SemiMajorAxis | m_Eccentricity
| m_SemiMajorAxisPrev | m_EccentricityPrev
| m_SemiMajorAxisPreSN | m_EccentricityPreSN | m_OrbitalVelocityPreSN
| m_SemiMajorAxisAtDCOFormation | m_EccentricityAtDCOFormation
| m_TimeToCoalescence
| m_uK | m_IPrime | m_CosIPrime
| m_ThetaE | m_PhiE | m_PsiE
| m_SystemicSpeed
| m_Mass1Final | m_Mass2Final | m_MassEnv1 | m_MassEnv2
| m_CEDetails_alpha
| m_CEDetails_preCEE_semiMajorAxis | m_CEDetails_preCEE_eccentricity
| m_CEDetails_preCEE_rocheLobe1to2 | m_CEDetails_preCEE_rocheLobe2to1
| m_CEDetails_postCEE_semiMajorAxis | m_CEDetails_postCEE_eccentricity
| m_CEDetails_postCEE_rocheLobe1to2 | m_CEDetails_postCEE_rocheLobe2to1.

(** The data members of type [bool]. *)
Inductive BoolMember : Set :=
| m_Merged | m_MergesInHubbleTime | m_Unbound | m_StellarMerger
| m_PrintExtraDetailedOutput
| m_CEDetails_doubleCoreCE | m_CEDetails_optimisticCE
| m_RLOFDetails_simultaneousRLOF | m_RLOFDetails_immediateRLOFPostCEE.

Scheme Equality for DoubleMember.
Scheme Equality for BoolMember.

Record BaseBinaryStar {K : Constants} {SI : StarInterface} : Type := mkBinary {
  doubles : DoubleMember -> double;
  bools : BoolMember -> bool;
  m_SystemicVelocity : Vector3d;
  m_CEDetails_CEEcount : Z;
  m_MassTransferTrackerHistory : MT_TRACKING.t;
  m_Error : ERROR.t;
  m_Star1 : BinaryConstituentStar;
  m_Star2 : BinaryConstituentStar;
  m_Supernova : StarRef;
  m_Companion : StarRef
}.

Section Members.
Context {K : Constants} {SI : StarInterface}.

Definition set_double (f : DoubleMember) (v : double) (s : BaseBinaryStar)
    : BaseBinaryStar :=
  mkBinary _ _
    (fun g => if DoubleMember_beq f g then v else doubles s g)
    (bools s) (m_SystemicVelocity s) (m_CEDetails_CEEcount s)
    (m_MassTransferTrackerHistory s) (m_Error s) (m_Star1 s) (m_Star2 s)
    (m_Supernova s) (m_Companion s).

Definition set_bool (f : BoolMember) (v : bool) (s : BaseBinaryStar)
    : BaseBinaryStar :=
  mkBinary _ _
    (doubles s)
    (fun g => if BoolMember_beq f g then v else bools s g)
    (m_SystemicVelocity s) (m_CEDetails_CEEcount s)
    (m_MassTransferTrackerHistory s) (m_Error s) (m_Star1 s) (m_Star2 s)
    (m_Supernova s) (m_Companion s).

Definition set_SystemicVelocity (v : Vector3d) (s : BaseBinaryStar)
    : BaseBinaryStar :=
  mkBinary _ _ (doubles s) (bools s) v (m_CEDetails_CEEcount s)
    (m_MassTransferTrackerHistory s) (m_Error s) (m_Star1 s) (m_Star2 s)
    (m_Supernova s) (m_Companion s).

Definition set_CEEcount (n : Z) (s : BaseBinaryStar) : BaseBinaryStar :=
  mkBinary _ _ (doubles s) (bools s) (m_SystemicVelocity s) n
    (m_MassTransferTrackerHistory s) (m_Error s) (m_Star1 s) (m_Star2 s)
    (m_Supernova s) (m_Companion s).

Definition set_MassTransferTrackerHistory (t : MT_TRACKING.t)
    (s : BaseBinaryStar) : BaseBinaryStar :=
  mkBinary _ _ (doubles s) (bools s) (m_SystemicVelocity s)
    (m_CEDetails_CEEcount s) t (m_Error s) (m_Star1 s) (m_Star2 s)
    (m_Supernova s) (m_Companion s).


(** The star a pointer designates, and a member function called through the
    pointer. *)
Definition star (p : StarRef) (s : BaseBinaryStar) : BinaryConstituentStar :=
  match p with Star1 => m_Star1 s | Star2 => m_Star2 s end.

Definition call (p : StarRef)
    (f : BinaryConstituentStar -> BinaryConstituentStar)
    (s : BaseBinaryStar) : BaseBinaryStar :=
  match p with
  | Star1 =>
      mkBinary _ _ (doubles s) (bools s) (m_SystemicVelocity s)
        (m_CEDetails_CEEcount s) (m_MassTransferTrackerHistory s) (m_Error s)
        (f (m_Star1 s)) (m_Star2 s) (m_Supernova s) (m_Companion s)
  | Star2 =>
      mkBinary _ _ (doubles s) (bools s) (m_SystemicVelocity s)
        (m_CEDetails_CEEcount s) (m_MassTransferTrackerHistory s) (m_Error s)
        (m_Star1 s) (f (m_Star2 s)) (m_Supernova s) (m_Companion s)
  end.

End Members.

Notation "s .[ f ]" := (doubles s f) (at level 1, format "s .[ f ]").

(* ================================================================== *)
(** ** BaseBinaryStar.cpp *)

(** [double BaseBinaryStar::CalculateRocheLobeRadius_Static(p_MassPrimary,
    p_MassSecondary)] (Eggleton 1983, eq 2). *)
Definition CalculateRocheLobeRadius_Static
    (p_MassPrimary p_MassSecondary : double) : double :=
  let q := (p_MassPrimary / p_MassSecondary)%D in
  let qCubeRoot := Double.pow q (Fin 1 / Fin 3)%D in
  (Fin 0.49
   / (Fin 0.6 + Double.log (Fin 1 + qCubeRoot) / qCubeRoot / qCubeRoot))%D.

Section Coalescence.
Context {cfg : CompareConfig} {K : Constants} {SI : StarInterface}
        {RI : RandomInterface}.

(** The four ways through [CalculateTimeToCoalescence], as its conditions
    select them. *)
Inductive CoalescenceBranch : Set :=
| CIRCULAR
| LOW_ECCENTRICITY
| HIGH_ECCENTRICITY
| QUADRATURE.

Definition CoalescenceBranchOf (p_Eccentricity : double) : CoalescenceBranch :=
  if negb (utils.Compare p_Eccentricity (Fin 0) =? 0)%Z then
    if (utils.Compare p_Eccentricity (Fin 0.01) <? 0)%Z then LOW_ECCENTRICITY
    else if (utils.Compare p_Eccentricity (Fin 0.99) >? 0)%Z
         then HIGH_ECCENTRICITY
         else QUADRATURE
  else CIRCULAR.

(** The loop
    [for (double e = 0.0; utils::Compare(e, p_Eccentricity) < 0; e += de)]
    of the quadrature, with its two variables [e] and [sum].  [fuel] bounds
    the number of iterations. *)
Fixpoint quadrature_loop (fuel : nat) (p_Eccentricity de e sum : double)
    : double :=
  match fuel with
  | O => sum
  | S fuel' =>
      if (utils.Compare e p_Eccentricity <? 0)%Z then
        let _1_e_2 := (Fin 1 - (e * e))%D in
        let sum' :=
          (sum + de * Double.pow e (Fin 29 / Fin 19)
                 * Double.pow (Fin 1 + (Fin 121 / Fin 304) * e * e)
                     (Fin 1181 / Fin 2299)
                 / (_1_e_2 * Double.sqrt _1_e_2))%D in
        quadrature_loop fuel' p_Eccentricity de (e + de)%D sum'
      else sum
  end.

(** The loop stops after 10000 steps of [p_Eccentricity / 10000] at the
    latest (lemma [quadrature_fuel_enough]). *)
Definition quadrature_fuel : nat := Z.to_nat 10001.

(** [double BaseBinaryStar::CalculateTimeToCoalescence(p_SemiMajorAxis,
    p_Eccentricity, p_Mass1, p_Mass2)] (Peters 1964). *)
Definition CalculateTimeToCoalescence
    (p_SemiMajorAxis p_Eccentricity p_Mass1 p_Mass2 : double) : double :=
  let beta :=
    ((Fin 64 / Fin 5) * Fin G * Fin G * Fin G * p_Mass1 * p_Mass2
     * (p_Mass1 + p_Mass2) / (Fin C * Fin C * Fin C * Fin C * Fin C))%D in
  let _4_beta := (Fin 4 * beta)%D in
  let tC :=
    (p_SemiMajorAxis * p_SemiMajorAxis * p_SemiMajorAxis * p_SemiMajorAxis
     / _4_beta)%D in
  (* the values computed at the head of the branch for a non-zero
     eccentricity *)
  let e0_2 := (p_Eccentricity * p_Eccentricity)%D in
  let c0 :=
    (p_SemiMajorAxis * (Fin 1 - e0_2)
     * Double.pow p_Eccentricity (- Fin 12 / Fin 19)
     * Double.pow (Fin 1 + (Fin 121 * e0_2 / Fin 304))
         (- Fin 870 / Fin 2299))%D in
  let _4_c0 := (c0 * c0 * c0 * c0)%D in
  match CoalescenceBranchOf p_Eccentricity with
  | CIRCULAR => tC
  | LOW_ECCENTRICITY =>
      (_4_c0 * Double.pow p_Eccentricity (Fin 48 / Fin 19) / _4_beta)%D
  | HIGH_ECCENTRICITY =>
      let _1_e0_2 := (Fin 1 - e0_2)%D in
      (tC * ((Fin 768 / Fin 425)
             * (_1_e0_2 * _1_e0_2 * _1_e0_2 * Double.sqrt _1_e0_2)))%D
  | QUADRATURE =>
      let de := (p_Eccentricity / Fin 10000)%D in
      let sum :=
        quadrature_loop quadrature_fuel p_Eccentricity de (Fin 0) (Fin 0) in
      ((Fin 12 / Fin 19) * (_4_c0 / beta) * sum)%D
  end.

(** [void BaseBinaryStar::ResolveCoalescence()] *)
Definition ResolveCoalescence (s : BaseBinaryStar) (w : World)
    : BaseBinaryStar * World :=
  let s := set_double m_SemiMajorAxisAtDCOFormation s.[m_SemiMajorAxis] s in
  let s := set_double m_EccentricityAtDCOFormation s.[m_Eccentricity] s in
  let tC :=
    CalculateTimeToCoalescence (s.[m_SemiMajorAxis] * Fin AU)%D
      s.[m_Eccentricity]
      (Mass (m_Star1 s) * Fin MSOL_TO_KG)%D
      (Mass (m_Star2 s) * Fin MSOL_TO_KG)%D in
  let s :=
    set_double m_TimeToCoalescence
      ((tC / Fin SECONDS_IN_YEAR) * Fin YEAR_TO_MYR)%D s in
  let s :=
    if (utils.Compare tC (Fin HUBBLE_TIME) <? 0)%Z then
      let s := set_bool m_Merged true s in
      set_bool m_MergesInHubbleTime true s
    else
      let s := set_bool m_Merged false s in
      set_bool m_MergesInHubbleTime false s in
  (s, emit PrintDoubleCompactObjects w).

End Coalescence.

(* ------------------------------------------------------------------ *)
(** *** The sampling constructor *)

Section Constructor.
Context {cfg : CompareConfig} {K : Constants} {Opt : Options}
        {SI : StarInterface} {RI : RandomInterface}.

(** The variables of one pass through the [do ... while] loop of
    [BaseBinaryStar::BaseBinaryStar(const AIS &p_AIS, const long int p_Id)]:
    the data members the loop assigns, its local variables as they stand at
    the loop condition, and the values first drawn ([mass1_0], [mass2_0],
    [semiMajorAxis_0], [eccentricity_0]). *)
Record Birth : Type := mkBirth {
  b_SemiMajorAxis : double;          (* m_SemiMajorAxis *)
  b_Eccentricity : double;           (* m_Eccentricity *)
  b_Star1 : BinaryConstituentStar;   (* m_Star1 *)
  b_Star2 : BinaryConstituentStar;   (* m_Star2 *)
  b_MassesEquilibrated : bool;
  b_MassesEquilibratedAtBirth : bool;
  mass1 : double;
  mass2 : double;
  massRatio : double;
  metallicity1 : double;
  metallicity2 : double;
  rocheLobeTracker1 : double;
  rocheLobeTracker2 : double;
  rlof : bool;
  merger : bool;
  secondarySmallerThanMinimumMass : bool;
  initialParametersOutsideParameterSpace : bool;
  mass1_0 : double;
  mass2_0 : double;
  semiMajorAxis_0 : double;
  eccentricity_0 : double
}.

(** The body of the loop. *)
Definition SampleBirth (m_RandomSeed : N) (m_LBVfactor m_WolfRayetFactor : double)
    (rs : RandState) : Birth * RandState :=
  let rs := if AIS_RefinementPhase then AIS_Initialise rs else rs in
  let '(mass1_0, rs) := SampleInitialMassDistribution rs in
  let '(massRatio, rs) := SampleQDistribution rs in
  let mass2_0 := (massRatio * mass1_0)%D in
  let '(z1, rs) := SampleMetallicityDistribution rs in
  let metallicity1 := Double.min (Double.max z1 (Fin 0)) (Fin 1) in
  let '(z2, rs) := SampleMetallicityDistribution rs in
  let metallicity2 := Double.min (Double.max z2 (Fin 0)) (Fin 1) in
  let '(a_0, rs) := SampleSemiMajorAxisDistribution mass1_0 mass2_0 rs in
  let '(e_0, rs) := SampleEccentricityDistribution rs in
  let star1 :=
    NewBinaryConstituentStar m_RandomSeed mass1_0 metallicity1
      NoKickParameters m_LBVfactor m_WolfRayetFactor in
  let star2 :=
    NewBinaryConstituentStar m_RandomSeed mass2_0 metallicity2
      NoKickParameters m_LBVfactor m_WolfRayetFactor in
  let rocheLobeTracker1 :=
    ((Radius star1 * Fin RSOL_TO_AU)
     / (a_0 * (Fin 1 - e_0) * CalculateRocheLobeRadius_Static mass1_0 mass2_0))%D in
  let rocheLobeTracker2 :=
    ((Radius star2 * Fin RSOL_TO_AU)
     / (a_0 * (Fin 1 - e_0) * CalculateRocheLobeRadius_Static mass2_0 mass1_0))%D in
  let rlof :=
    (utils.Compare rocheLobeTracker1 (Fin 1) >? 0)%Z
    || (utils.Compare rocheLobeTracker2 (Fin 1) >? 0)%Z in
  let '(equilibrated, m1, m2, a, e, star1, star2, tracker1, tracker2) :=
    if rlof && AllowRLOFAtBirth then
      let mass1 := ((mass1_0 + mass2_0) / Fin 2)%D in
      let mass2 := mass1 in
      let M := (mass1 + mass2)%D in
      let m1m2 := (mass1 * mass2)%D in
      let a :=
        (a_0 * (Fin 16 * m1m2 * m1m2 / (M * M * M * M)
                * (Fin 1 - (e_0 * e_0))))%D in
      let e := Fin 0 in
      let star1 :=
        NewBinaryConstituentStar m_RandomSeed mass1 metallicity1
          NoKickParameters m_LBVfactor m_WolfRayetFactor in
      let star2 :=
        NewBinaryConstituentStar m_RandomSeed mass2 metallicity2
          NoKickParameters m_LBVfactor m_WolfRayetFactor in
      (true, mass1, mass2, a, e, star1, star2,
       ((Radius star1 * Fin RSOL_TO_AU)
        / (a * CalculateRocheLobeRadius_Static mass1 mass2))%D,
       ((Radius star2 * Fin RSOL_TO_AU)
        / (a * CalculateRocheLobeRadius_Static mass2 mass1))%D)
    else
      (false, mass1_0, mass2_0, a_0, e_0, star1, star2,
       rocheLobeTracker1, rocheLobeTracker2) in
  let star1 := SetCompanion Star2 star1 in
  let star2 := SetCompanion Star1 star2 in
  let merger :=
    Double.lt (a * Fin AU_TO_RSOL)%D (Radius star1 + Radius star2)%D in
  let secondarySmallerThanMinimumMass :=
    (utils.Compare m2 (Fin MinimumMassSecondary) <? 0)%Z in
  let initialParametersOutsideParameterSpace :=
    if AIS_RefinementPhase then
      (utils.Compare m1 (Fin InitialMassFunctionMin) <? 0)%Z
      || (utils.Compare m1 (Fin InitialMassFunctionMax) >? 0)%Z
      || (utils.Compare massRatio (Fin MassRatioDistributionMin) <? 0)%Z
      || (utils.Compare massRatio (Fin MassRatioDistributionMax) >? 0)%Z
      || (utils.Compare a (Fin SemiMajorAxisDistributionMin) <? 0)%Z
      || (utils.Compare a (Fin SemiMajorAxisDistributionMax) >? 0)%Z
    else false in
  (mkBirth a e star1 star2 false equilibrated m1 m2 massRatio
     metallicity1 metallicity2 tracker1 tracker2 rlof merger
     secondarySmallerThanMinimumMass initialParametersOutsideParameterSpace
     mass1_0 mass2_0 a_0 e_0,
   rs).

(** The condition of the [while]: the pass is rejected and the loop goes
    round again. *)
Definition rejected (b : Birth) : bool :=
  (negb AllowRLOFAtBirth && rlof b)
  || (negb AllowTouchingAtBirth && merger b)
  || secondarySmallerThanMinimumMass b
  || initialParametersOutsideParameterSpace b.

(** The [do ... while] loop.  It need not terminate (every pass may be
    rejected): [fuel] bounds the number of passes and [None] is the loop still
    running. *)
Fixpoint SampleUntilAccepted (fuel : nat) (m_RandomSeed : N)
    (m_LBVfactor m_WolfRayetFactor : double) (rs : RandState)
    : option (Birth * RandState) :=
  match fuel with
  | O => None
  | S fuel' =>
      let (b, rs') := SampleBirth m_RandomSeed m_LBVfactor m_WolfRayetFactor rs in
      if rejected b
      then SampleUntilAccepted fuel' m_RandomSeed m_LBVfactor m_WolfRayetFactor rs'
      else Some (b, rs')
  end.

(** The test "either star overflows its Roche lobe at formation", on the
    configuration first drawn: the stars built from the drawn masses and
    metallicities, at the periastron of the drawn orbit. *)
Definition overflows_at_formation (m_RandomSeed : N)
    (m_LBVfactor m_WolfRayetFactor : double) (b : Birth) : bool :=
  let star m z :=
    NewBinaryConstituentStar m_RandomSeed m z NoKickParameters
      m_LBVfactor m_WolfRayetFactor in
  let tracker m z m' :=
    ((Radius (star m z) * Fin RSOL_TO_AU)
     / (semiMajorAxis_0 b * (Fin 1 - eccentricity_0 b)
        * CalculateRocheLobeRadius_Static m m'))%D in
  (utils.Compare (tracker (mass1_0 b) (metallicity1 b) (mass2_0 b)) (Fin 1) >? 0)%Z
  || (utils.Compare (tracker (mass2_0 b) (metallicity2 b) (mass1_0 b)) (Fin 1) >? 0)%Z.

End Constructor.

(* ------------------------------------------------------------------ *)
(** *** Members declared in BaseBinaryStar.h *)

(** BaseBinaryStar.h is not part of the sources at hand.  The member
    functions it defines inline and that the embedded functions call are
    parameters: the test [IsUnbound()], the orbital energy and angular
    velocity, and the separations in solar radii. *)
Class Header {K : Constants} {SI : StarInterface} : Type := {
  IsUnbound : BaseBinaryStar -> bool;
  CalculateOrbitalEnergy : double -> double -> double -> double;
  OrbitalAngularVelocity : BaseBinaryStar -> double;
  SemiMajorAxisRsol : BaseBinaryStar -> double;
  PeriastronRsol : BaseBinaryStar -> double
}.

(** [Eccentricity()] reads the member it is named after. *)
Definition Eccentricity {K : Constants} {SI : StarInterface}
    (s : BaseBinaryStar) : double :=
  s.[m_Eccentricity].

Section StellarTypes.
Context {K : Constants} {SI : StarInterface}.

(** [bool BaseBinaryStar::HasOneOf(STELLAR_TYPE_LIST p_List) const] *)
Fixpoint HasOneOf (s : BaseBinaryStar) (p_List : list STELLAR_TYPE) : bool :=
  match p_List with
  | [] => false
  | elem :: rest =>
      if STELLAR_TYPE_eqb (StellarType (m_Star1 s)) elem
         || STELLAR_TYPE_eqb (StellarType (m_Star2 s)) elem
      then true
      else HasOneOf s rest
  end.

(** The loop of [HasTwoOf], [matchCount] carried along. *)
Fixpoint HasTwoOf_from (matchCount : Z) (s : BaseBinaryStar)
    (p_List : list STELLAR_TYPE) : bool :=
  match p_List with
  | [] => false
  | elem :: rest =>
      let matchCount :=
        if STELLAR_TYPE_eqb (StellarType (m_Star1 s)) elem
        then (matchCount + 1)%Z else matchCount in
      let matchCount :=
        if STELLAR_TYPE_eqb (StellarType (m_Star2 s)) elem
        then (matchCount + 1)%Z else matchCount in
      if (matchCount >? 1)%Z then true else HasTwoOf_from matchCount s rest
  end.

(** [bool BaseBinaryStar::HasTwoOf(STELLAR_TYPE_LIST p_List) const] *)
Definition HasTwoOf (s : BaseBinaryStar) (p_List : list STELLAR_TYPE) : bool :=
  HasTwoOf_from 0 s p_List.

End StellarTypes.

(* ------------------------------------------------------------------ *)
(** *** Angular momentum *)

Section AngularMomentum.
Context {K : Constants}.

(** [double BaseBinaryStar::CalculateAngularMomentum(p_SemiMajorAxis,
    p_Eccentricity, p_Star1Mass, p_Star2Mass, p_Star1Radius, p_Star2Radius,
    p_Star1_SpinAngularVelocity, p_Star2_SpinAngularVelocity,
    p_Star1_GyrationRadius, p_Star2_GyrationRadius)]: the spin angular
    momenta of the two stars and the orbital angular momentum. *)
Definition CalculateAngularMomentum
    (p_SemiMajorAxis p_Eccentricity p_Star1Mass p_Star2Mass
     p_Star1Radius p_Star2Radius
     p_Star1_SpinAngularVelocity p_Star2_SpinAngularVelocity
     p_Star1_GyrationRadius p_Star2_GyrationRadius : double) : double :=
  let m1 := p_Star1Mass in
  let m2 := p_Star2Mass in
  let R1 := (p_Star1Radius * Fin RSOL_TO_AU)%D in
  let R2 := (p_Star2Radius * Fin RSOL_TO_AU)%D in
  let w1 := p_Star1_SpinAngularVelocity in
  let w2 := p_Star2_SpinAngularVelocity in
  let ks1 := p_Star1_GyrationRadius in
  let ks2 := p_Star2_GyrationRadius in
  let Is1 := (ks1 * m1 * R1 * R1)%D in
  let Is2 := (ks2 * m2 * R2 * R2)%D in
  let Jorb :=
    (((m1 * m2) / (m1 + m2))
     * Double.sqrt (Fin G1 * (m1 + m2) * p_SemiMajorAxis
                    * (Fin 1 - (p_Eccentricity * p_Eccentricity))))%D in
  ((Is1 * w1) + (Is2 * w2) + Jorb)%D.

End AngularMomentum.

(* ------------------------------------------------------------------ *)
(** *** Mass-transfer orbit *)

Section MassTransferOrbit.
Context {cfg : CompareConfig} {K : Constants} {Opt : Options}
        {SI : StarInterface} {RI : RandomInterface}.


(** The local [int numberIterations] of [CalculateMassTransferOrbit]:
    [fmax(floor(fabs(p_DeltaMassDonor /
    (MAXIMUM_MASS_TRANSFER_FRACTION_PER_STEP * massD))), 1)], converted to
    [int].  The conversion is defined in C++ while the value is below
    [2^31]; see [Double.to_int]. *)
Definition numberIterations (p_DonorMass p_DeltaMassDonor : double) : Z :=
  let massD := p_DonorMass in
  Double.to_int
    (Double.fmax
       (Double.floor
          (Double.fabs
             (p_DeltaMassDonor
              / (Fin MAXIMUM_MASS_TRANSFER_FRACTION_PER_STEP * massD))%D))
       (Fin 1)).

(** The local [double dM]: the mass change per substep. *)
Definition dM (p_DonorMass p_DeltaMassDonor : double) : double :=
  (p_DeltaMassDonor
   / Double.of_int (numberIterations p_DonorMass p_DeltaMassDonor))%D.




End MassTransferOrbit.

(* ------------------------------------------------------------------ *)
(** *** Common envelope *)

Section CommonEnvelope.
Context {cfg : CompareConfig} {K : Constants} {Opt : Options}
        {SI : StarInterface} {RI : RandomInterface} {Hd : Header}.

(** [void BaseBinaryStar::SetPreCEEValues(p_SemiMajorAxis, p_Eccentricity,
    p_RocheLobe1to2, p_RocheLobe2to1)] *)
Definition SetPreCEEValues
    (p_SemiMajorAxis p_Eccentricity p_RocheLobe1to2 p_RocheLobe2to1 : double)
    (s : BaseBinaryStar) : BaseBinaryStar :=
  let s := set_double m_CEDetails_preCEE_semiMajorAxis p_SemiMajorAxis s in
  let s := set_double m_CEDetails_preCEE_eccentricity p_Eccentricity s in
  let s := set_double m_CEDetails_preCEE_rocheLobe1to2 p_RocheLobe1to2 s in
  set_double m_CEDetails_preCEE_rocheLobe2to1 p_RocheLobe2to1 s.

(** [void BaseBinaryStar::SetPostCEEValues(p_SemiMajorAxis, p_Eccentricity,
    p_RocheLobe1to2, p_RocheLobe2to1)] *)
Definition SetPostCEEValues
    (p_SemiMajorAxis p_Eccentricity p_RocheLobe1to2 p_RocheLobe2to1 : double)
    (s : BaseBinaryStar) : BaseBinaryStar :=
  let s := set_double m_CEDetails_postCEE_semiMajorAxis p_SemiMajorAxis s in
  let s := set_double m_CEDetails_postCEE_eccentricity p_Eccentricity s in
  let s := set_double m_CEDetails_postCEE_rocheLobe1to2 p_RocheLobe1to2 s in
  let s := set_double m_CEDetails_postCEE_rocheLobe2to1 p_RocheLobe2to1 s in
  if (utils.Compare (RadiusPostCEE (m_Star1 s))
        s.[m_CEDetails_postCEE_rocheLobe1to2] >=? 0)%Z
     || (utils.Compare (RadiusPostCEE (m_Star2 s))
           s.[m_CEDetails_postCEE_rocheLobe2to1] >=? 0)%Z
  then set_bool m_RLOFDetails_immediateRLOFPostCEE true s
  else s.

(** The first part of [ResolveCommonEnvelopeEvent]: the final masses and the
    envelope masses, with the local [donorMS]. *)
Definition CE_masses (s : BaseBinaryStar) : bool * BaseBinaryStar :=
  let donorMS := false in
  if AllowMainSequenceStarToSurviveCommonEnvelope then
    let '(donorMS, s) :=
      if IsOneOf (m_Star1 s) ALL_MAIN_SEQUENCE then
        let donorMS := donorMS || IsRLOF (m_Star1 s) in
        let s := set_double m_Mass1Final (Mass (m_Star1 s)) s in
        (donorMS, set_double m_MassEnv1 (Fin 0) s)
      else
        let s := set_double m_Mass1Final (CoreMass (m_Star1 s)) s in
        (donorMS,
         set_double m_MassEnv1 (Mass (m_Star1 s) - CoreMass (m_Star1 s))%D s) in
    if IsOneOf (m_Star2 s) ALL_MAIN_SEQUENCE then
      let donorMS := donorMS || IsRLOF (m_Star2 s) in
      let s := set_double m_Mass2Final (Mass (m_Star2 s)) s in
      (donorMS, set_double m_MassEnv2 (Fin 0) s)
    else
      let s := set_double m_Mass2Final (CoreMass (m_Star2 s)) s in
      (donorMS,
       set_double m_MassEnv2 (Mass (m_Star2 s) - CoreMass (m_Star2 s))%D s)
  else
    let s := set_double m_Mass1Final (CoreMass (m_Star1 s)) s in
    let s := set_double m_MassEnv1 (Mass (m_Star1 s) - CoreMass (m_Star1 s))%D s in
    let s := set_double m_Mass2Final (CoreMass (m_Star2 s)) s in
    let s := set_double m_MassEnv2 (Mass (m_Star2 s) - CoreMass (m_Star2 s))%D s in
    (donorMS, s).

(** The locals [k1], [k2], [k3], [k4] of the double common envelope
    prescription, read off the state as it stands when they are computed. *)
Definition CE_k1 (lambda1 alphaCE : double) (s : BaseBinaryStar) : double :=
  if IsOneOf (m_Star1 s) COMPACT_OBJECTS then Fin 0
  else ((Fin 2 / (lambda1 * alphaCE)) * Mass (m_Star1 s) * s.[m_MassEnv1]
        / Radius (m_Star1 s))%D.

Definition CE_k2 (lambda2 alphaCE : double) (s : BaseBinaryStar) : double :=
  if IsOneOf (m_Star2 s) COMPACT_OBJECTS then Fin 0
  else ((Fin 2 / (lambda2 * alphaCE)) * Mass (m_Star2 s) * s.[m_MassEnv2]
        / Radius (m_Star2 s))%D.

Definition CE_k3 (periastronRsol : double) (s : BaseBinaryStar) : double :=
  (Mass (m_Star1 s) * Mass (m_Star2 s) / periastronRsol)%D.

Definition CE_k4 (s : BaseBinaryStar) : double :=
  (s.[m_Mass1Final] * s.[m_Mass2Final])%D.

(** The state when [k1 .. k4] are computed: the masses are set, the event is
    counted, the stars have computed their lambdas, binding energies and
    common envelope values and stored their pre-event values, and so has the
    binary.  The locals that are still needed come with it. *)
Record CE_locals : Type := mkCE_locals {
  alphaCE : double;
  periastronRsol : double;
  donorMS : bool;
  envelopeFlag1 : bool;
  envelopeFlag2 : bool;
  lambda1 : double;
  lambda2 : double
}.

Definition CE_prepare (s : BaseBinaryStar) : CE_locals * BaseBinaryStar :=
  let alphaCE := s.[m_CEDetails_alpha] in
  let eccentricity := Eccentricity s in
  let semiMajorAxisRsol := SemiMajorAxisRsol s in
  let periastronRsol := PeriastronRsol s in
  let rRLd1Rsol :=
    (periastronRsol
     * CalculateRocheLobeRadius_Static (Mass (m_Star1 s)) (Mass (m_Star2 s)))%D in
  let rRLd2Rsol :=
    (periastronRsol
     * CalculateRocheLobeRadius_Static (Mass (m_Star2 s)) (Mass (m_Star1 s)))%D in
  let '(donorMS, s) := CE_masses s in
  let envelopeFlag1 :=
    (utils.Compare s.[m_MassEnv1] (Fin 0) >? 0)%Z
    && (utils.Compare s.[m_Mass1Final] (Fin 0) >? 0)%Z in
  let envelopeFlag2 :=
    (utils.Compare s.[m_MassEnv2] (Fin 0) >? 0)%Z
    && (utils.Compare s.[m_Mass2Final] (Fin 0) >? 0)%Z in
  let s := set_bool m_CEDetails_doubleCoreCE (envelopeFlag1 && envelopeFlag2) s in
  let s := set_CEEcount (m_CEDetails_CEEcount s + 1)%Z s in
  let s :=
    set_bool m_RLOFDetails_simultaneousRLOF
      (IsRLOF (m_Star1 s) && IsRLOF (m_Star2 s)) s in
  let s := call Star1 (CalculateLambdas s.[m_MassEnv1]) s in
  let s := call Star2 (CalculateLambdas s.[m_MassEnv2]) s in
  let s :=
    call Star1
      (CalculateBindingEnergies s.[m_Mass1Final] s.[m_MassEnv1]
         (Radius (m_Star1 s))) s in
  let s :=
    call Star2
      (CalculateBindingEnergies s.[m_Mass2Final] s.[m_MassEnv2]
         (Radius (m_Star2 s))) s in
  let s := call Star1 CalculateCommonEnvelopeValues s in
  let s := call Star2 CalculateCommonEnvelopeValues s in
  let lambda1 := LambdaAtCEE (m_Star1 s) in
  let lambda2 := LambdaAtCEE (m_Star2 s) in
  let s :=
    if HasOneOf s ALL_HERTZSPRUNG_GAP
    then set_bool m_CEDetails_optimisticCE true s
    else s in
  let s := call Star1 StarSetPreCEEValues s in
  let s := call Star2 StarSetPreCEEValues s in
  let s := SetPreCEEValues semiMajorAxisRsol eccentricity rRLd1Rsol rRLd2Rsol s in
  (mkCE_locals alphaCE periastronRsol donorMS envelopeFlag1 envelopeFlag2
     lambda1 lambda2, s).

(** The local [aFinalRsol]. *)
Definition CE_aFinalRsol (l : CE_locals) (s : BaseBinaryStar) : double :=
  let k1 := CE_k1 (lambda1 l) (alphaCE l) s in
  let k2 := CE_k2 (lambda2 l) (alphaCE l) s in
  let k3 := CE_k3 (periastronRsol l) s in
  let k4 := CE_k4 s in
  (k4 / (k1 + k2 + k3))%D.

(** The update of the stellar types after the envelopes are lost, or the
    stellar merger. *)
Definition CE_switch (l : CE_locals) (s : BaseBinaryStar) : BaseBinaryStar :=
  if donorMS l || (negb (envelopeFlag1 l) && negb (envelopeFlag2 l)) then
    let s :=
      set_MassTransferTrackerHistory
        (if HasTwoOf s [NAKED_HELIUM_STAR_MS]
         then MT_TRACKING.CE_BOTH_MS else MT_TRACKING.CE_MS_WITH_CO) s in
    set_bool m_StellarMerger true s
  else
    let stellarType1 := StellarType (m_Star1 s) in
    let stellarType2 := StellarType (m_Star2 s) in
    let s :=
      if envelopeFlag1 l then
        let s := call Star1 ResolveEnvelopeLossAndSwitch s in
        set_MassTransferTrackerHistory MT_TRACKING.CE_FROM_1_TO_2 s
      else s in
    let s :=
      if envelopeFlag2 l then
        let s := call Star2 ResolveEnvelopeLossAndSwitch s in
        set_MassTransferTrackerHistory MT_TRACKING.CE_FROM_2_TO_1 s
      else s in
    let s :=
      if bools s m_CEDetails_doubleCoreCE
      then set_MassTransferTrackerHistory MT_TRACKING.CE_DOUBLE_CORE s
      else s in
    let s := call Star1 (UpdateAttributes (Fin 0) (Fin 0) true) s in
    let s := call Star2 (UpdateAttributes (Fin 0) (Fin 0) true) s in
    if negb (STELLAR_TYPE_eqb (StellarType (m_Star1 s)) stellarType1)
       || negb (STELLAR_TYPE_eqb (StellarType (m_Star2 s)) stellarType2)
    then set_bool m_PrintExtraDetailedOutput true s
    else s.

(** [ResolveCommonEnvelopeEvent] up to the test for a merger: the new
    separation, the circular orbit, the accretion step and the update of the
    stellar types.  The state returned is the one on which the merger test
    reads the radii of the stars. *)
Definition CE_contract (s : BaseBinaryStar)
    : CE_locals * (double * double * double) * BaseBinaryStar :=
  let '(l, s) := CE_prepare s in
  let aFinalRsol := CE_aFinalRsol l s in
  let aFinal := (aFinalRsol * Fin RSOL_TO_AU)%D in
  let s := set_double m_SemiMajorAxis aFinal s in
  let rRLdfin1 :=
    (aFinal * CalculateRocheLobeRadius_Static s.[m_Mass1Final] s.[m_Mass2Final])%D in
  let rRLdfin2 :=
    (aFinal * CalculateRocheLobeRadius_Static s.[m_Mass2Final] s.[m_Mass1Final])%D in
  let rRLdfin1Rsol := (rRLdfin1 * Fin AU_TO_RSOL)%D in
  let rRLdfin2Rsol := (rRLdfin2 * Fin AU_TO_RSOL)%D in
  let s := set_double m_Eccentricity (Fin 0) s in
  let s := call Star1 (ResolveCommonEnvelopeAccretion s.[m_Mass1Final]) s in
  let s := call Star2 (ResolveCommonEnvelopeAccretion s.[m_Mass2Final]) s in
  let s := CE_switch l s in
  (l, (aFinalRsol, rRLdfin1Rsol, rRLdfin2Rsol), s).

(** [void BaseBinaryStar::ResolveCommonEnvelopeEvent()] *)
Definition ResolveCommonEnvelopeEvent (s : BaseBinaryStar) (w : World)
    : BaseBinaryStar * World :=
  let '(l, (aFinalRsol, rRLdfin1Rsol, rRLdfin2Rsol), s) := CE_contract s in
  let aFinal := (aFinalRsol * Fin RSOL_TO_AU)%D in
  let s :=
    if (utils.Compare aFinal (Fin 0) <=? 0)%Z
       || (utils.Compare (Radius (m_Star1 s) + Radius (m_Star2 s))%D
             (aFinal * Fin AU_TO_RSOL)%D >? 0)%Z
    then set_bool m_StellarMerger true s
    else s in
  let s :=
    match CHE_Option with
    | CHE_OPTION.NONE => s
    | _ => call Star1 (SetOmega (OrbitalAngularVelocity s)) s
    end in
  let s :=
    match CHE_Option with
    | CHE_OPTION.NONE => s
    | _ => call Star2 (SetOmega (OrbitalAngularVelocity s)) s
    end in
  let s := call Star1 StarSetPostCEEValues s in
  let s := call Star2 StarSetPostCEEValues s in
  let s :=
    SetPostCEEValues aFinalRsol s.[m_Eccentricity] rRLdfin1Rsol rRLdfin2Rsol s in
  (s, emit PrintCommonEnvelope w).

End CommonEnvelope.

(* ------------------------------------------------------------------ *)
(** *** Supernova *)

(** The names of the locals of [ResolveSupernova] live in a module of their
    own: [SN.R] is the relative position vector, not the real numbers. *)
Module SN.

(** The local variables of the branch for a binary that is intact before the
    supernova, up to the post-supernova orbit. *)
Record locals : Type := mkLocals {
  e : double;
  R : Vector3d;
  r : double;
  V : Vector3d;
  v : double;
  H : Vector3d;
  h : double;
  E : Vector3d;
  natalKickVector : Vector3d;
  m1_ : double;
  m2_ : double;
  mb_ : double;
  Vcm_ : Vector3d;
  V_ : Vector3d;
  H_ : Vector3d;
  h_ : double;
  E_ : Vector3d;
  e_ : double;
  a_ : double
}.

End SN.

Section Supernova.
Context {cfg : CompareConfig} {K : Constants} {Opt : Options}
        {SI : StarInterface} {RI : RandomInterface} {Hd : Header}.

(** [void BaseBinaryStar::UpdateSystemicVelocity(Vector3d p_newVelocity)] *)
Definition UpdateSystemicVelocity (p_newVelocity : Vector3d)
    (s : BaseBinaryStar) : BaseBinaryStar :=
  let s := set_SystemicVelocity (m_SystemicVelocity s + p_newVelocity)%V s in
  set_double m_SystemicSpeed (Vec.Magnitude (m_SystemicVelocity s)) s.

(** [ResolveSupernova] up to the test [IsUnbound()]: the pre-supernova
    values and the orbital energy handed to the exploding star. *)
Definition SN_preamble (s : BaseBinaryStar) : BaseBinaryStar :=
  let s := set_double m_EccentricityPreSN s.[m_EccentricityPrev] s in
  let s := set_double m_SemiMajorAxisPreSN s.[m_SemiMajorAxisPrev] s in
  let totalMassPreSN :=
    (MassPrev (star (m_Supernova s) s) + MassPrev (star (m_Companion s) s))%D in
  let reducedMassPreSN :=
    (MassPrev (star (m_Supernova s) s) * MassPrev (star (m_Companion s) s)
     / totalMassPreSN)%D in
  call (m_Supernova s)
    (SetOrbitalEnergyPreSN
       (CalculateOrbitalEnergy reducedMassPreSN totalMassPreSN
          s.[m_SemiMajorAxisPreSN])) s.

(** The natal kick vector for a kick of the exploding star in the direction
    [(theta, phi)]. *)
Definition SN_kick (s : BaseBinaryStar) (theta phi : double) : Vector3d :=
  SN_KickMagnitude (star (m_Supernova s) s)
  *v mkVector3d (Double.cos theta * Double.cos phi)
                (Double.cos theta * Double.sin phi)
                (Double.sin theta).

(** The arithmetic of the branch for a binary that is intact before the
    supernova, from the values it reads to the post-supernova orbit: [a] is
    the pre-supernova semi-major axis in km, [e] the eccentricity, [m1] and
    [m2] the masses before and [m1_] and [m2_] the masses after the
    supernova, [EA] and [psi] the eccentric and true anomalies, [theta] and
    [phi] the direction and [vk] the magnitude of the kick. *)
Definition SN_kinematics (a e m1 m2 EA psi theta phi vk m1_ m2_ : double)
    : SN.locals :=
  let G := Fin G_SN in
  let mb := (m1 + m2)%D in
  let cosEA := Double.cos EA in
  let sinEA := Double.sin EA in
  let omega := Double.sqrt (G * mb / (a * a * a))%D in
  let R :=
    mkVector3d (a * (cosEA - e))%D
               (a * Double.sqrt (Fin 1 - e * e) * sinEA)%D
               (Fin 0) in
  let r := Vec.Magnitude R in
  let V :=
    mkVector3d ((- omega * a * a / r) * sinEA)%D
               ((omega * a * a / r) * Double.sqrt (Fin 1 - e * e) * cosEA)%D
               (Fin 0) in
  let v := Vec.Magnitude V in
  let H := linalg.cross R V in
  let h := Vec.Magnitude H in
  let E := (linalg.cross V H /v (G * mb)%D - R /v r)%V in
  (* applyPhiSwitch is true *)
  let beta := (Fin M_PI - linalg.angleBetween R V)%D in
  let newPhi := (phi + psi + Fin M_PI - beta)%D in
  let natalKickVector :=
    vk *v mkVector3d (Double.cos theta * Double.cos newPhi)
                     (Double.cos theta * Double.sin newPhi)
                     (Double.sin theta) in
  let dV1 := natalKickVector in
  let dV2 := mkVector3d (Fin 0) (Fin 0) (Fin 0) in
  let mb_ := (m1_ + m2_)%D in
  let dm1 := (m1 - m1_)%D in
  let dm2 := (m2 - m2_)%D in
  let Vcm_ :=
    ((- m2 * dm1 / (mb * mb_) + m1 * dm2 / (mb * mb_))%D *v V
     + (m1_ / mb_)%D *v dV1
     + (m2_ / mb_)%D *v dV2)%V in
  let V_ := (V + (dV1 - dV2))%V in
  let H_ := linalg.cross R V_ in
  let h_ := Vec.Magnitude H_ in
  let E_ := (linalg.cross V_ H_ /v (G * mb_)%D - R /v r)%V in
  let e_ := Vec.Magnitude E_ in
  let a_ := ((h_ * h_) / (G * mb_ * (Fin 1 - (e_ * e_))))%D in
  SN.mkLocals e R r V v H h E natalKickVector m1_ m2_ mb_ Vcm_ V_ H_ h_ E_ e_ a_.

(** The orbit before and after the kick.  [s] is the state after
    [SN_preamble]; the exploding star computes its anomalies, the values the
    branch reads are handed to [SN_kinematics], and the pre-supernova orbital
    velocity and the dimensionless kick are recorded ([ResolveSupernova]
    assigns these two members in the midst of the arithmetic, which does not
    read them). *)
Definition SN_orbit (theta : double) (s : BaseBinaryStar)
    : SN.locals * BaseBinaryStar :=
  let a := (s.[m_SemiMajorAxisPrev] * Fin AU_TO_KM)%D in
  let e := s.[m_EccentricityPrev] in
  let m1 := MassPrev (star (m_Supernova s) s) in
  let m2 := MassPrev (star (m_Companion s) s) in
  let s := call (m_Supernova s) (CalculateSNAnomalies e) s in
  let l :=
    SN_kinematics a e m1 m2
      (SN_EccentricAnomaly (star (m_Supernova s) s))
      (SN_TrueAnomaly (star (m_Supernova s) s))
      theta
      (SN_Phi (star (m_Supernova s) s))
      (SN_KickMagnitude (star (m_Supernova s) s))
      (Mass (star (m_Supernova s) s))
      (Mass (star (m_Companion s) s)) in
  let s := set_double m_OrbitalVelocityPreSN (SN.v l) s in
  let s :=
    set_double m_uK
      (SN_KickMagnitude (star (m_Supernova s) s) / s.[m_OrbitalVelocityPreSN])%D
      s in
  (l, s).

(** The locals of the branch "binary has become unbound". *)
Definition SN_vinf (l : SN.locals) : double :=
  ((Fin G_SN * SN.mb_ l / SN.h_ l) * Double.sqrt (SN.e_ l * SN.e_ l - Fin 1))%D.

Definition SN_Vinf (l : SN.locals) : Vector3d :=
  SN_vinf l
  *v (((- Fin 1 / SN.e_ l)%D *v (SN.E_ l /v Vec.Magnitude (SN.E_ l))
       + Double.sqrt (Fin 1 - Fin 1 / (SN.e_ l * SN.e_ l))%D
         *v linalg.cross (SN.H_ l /v Vec.Magnitude (SN.H_ l))
                         (SN.E_ l /v Vec.Magnitude (SN.E_ l)))%V).

Definition SN_V1inf (l : SN.locals) : Vector3d :=
  ((SN.m2_ l / SN.mb_ l)%D *v SN_Vinf l + SN.Vcm_ l)%V.

Definition SN_V2inf (l : SN.locals) : Vector3d :=
  ((- (SN.m1_ l / SN.mb_ l))%D *v SN_Vinf l + SN.Vcm_ l)%V.

(** The branch "binary has become unbound". *)
Definition SN_unbound (l : SN.locals) (s : BaseBinaryStar) (w : World)
    : BaseBinaryStar * World :=
  let s := set_bool m_Unbound true s in
  let s :=
    call (m_Supernova s)
      (UpdateComponentVelocity
         (Vec.RotateVector (SN_V1inf l) s.[m_ThetaE] s.[m_PhiE] s.[m_PsiE])) s in
  let s :=
    call (m_Companion s)
      (UpdateComponentVelocity
         (Vec.RotateVector (SN_V2inf l) s.[m_ThetaE] s.[m_PhiE] s.[m_PsiE])) s in
  let s :=
    set_double m_ThetaE (linalg.angleBetween (SN.H l /v SN.h l) (SN.H_ l /v SN.h_ l)) s in
  let '(u, w) := draw w in
  let s := set_double m_PhiE (Fin _2_PI * Fin u)%D s in
  let '(u, w) := draw w in
  let s := set_double m_PsiE (Fin _2_PI * Fin u)%D s in
  (s, w).

(** The branch "binary is still bound". *)
Definition SN_bound (l : SN.locals) (s : BaseBinaryStar) (w : World)
    : BaseBinaryStar * World :=
  let s :=
    call (m_Supernova s)
      (UpdateComponentVelocity
         (Vec.RotateVector (SN.Vcm_ l) s.[m_ThetaE] s.[m_PhiE] s.[m_PsiE])) s in
  let s :=
    call (m_Companion s)
      (UpdateComponentVelocity
         (Vec.RotateVector (SN.Vcm_ l) s.[m_ThetaE] s.[m_PhiE] s.[m_PsiE])) s in
  let s :=
    set_double m_ThetaE (linalg.angleBetween (SN.H l /v SN.h l) (SN.H_ l /v SN.h_ l)) s in
  let '(s, w) :=
    if (utils.Compare s.[m_ThetaE] (Fin 0) =? 0)%Z
       && ((utils.Compare (SN.e l) (Fin 0) >? 0)%Z
           && (utils.Compare (SN.e_ l) (Fin 0) >? 0)%Z)
    then
      let psiPlusPhi := linalg.angleBetween (SN.E l) (SN.E_ l) in
      let '(u, w) := draw w in
      let s := set_double m_PhiE (Fin _2_PI * Fin u)%D s in
      (set_double m_PsiE (psiPlusPhi - s.[m_PhiE])%D s, w)
    else if (utils.Compare s.[m_ThetaE] (Fin M_PI) =? 0)%Z
            && ((utils.Compare (SN.e l) (Fin 0) >? 0)%Z
                && (utils.Compare (SN.e_ l) (Fin 0) >? 0)%Z)
    then
      let psiMinusPhi := linalg.angleBetween (SN.E l) (SN.E_ l) in
      let '(u, w) := draw w in
      let s := set_double m_PhiE (Fin _2_PI * Fin u)%D s in
      (set_double m_PsiE (psiMinusPhi + s.[m_PhiE])%D s, w)
    else
      let N := linalg.cross (SN.H l) (SN.H_ l) in
      let n := Vec.Magnitude N in
      let '(s, w) :=
        if (utils.Compare (SN.e l) (Fin 0) =? 0)%Z then
          let '(u, w) := draw w in
          (set_double m_PhiE (Fin _2_PI * Fin u)%D s, w)
        else
          (set_double m_PhiE
             (if (utils.Compare (linalg.dot (SN.E l) (SN.H_ l)) (Fin 0) >=? 0)%Z
              then linalg.angleBetween (SN.E l /v SN.e l) (N /v n)
              else (- linalg.angleBetween (SN.E l /v SN.e l) (N /v n))%D) s, w) in
      if (utils.Compare (SN.e_ l) (Fin 0) =? 0)%Z then
        let '(u, w) := draw w in
        (set_double m_PsiE (Fin _2_PI * Fin u)%D s, w)
      else
        (set_double m_PsiE
           (if (utils.Compare (linalg.dot (SN.E_ l) (SN.H l)) (Fin 0) >=? 0)%Z
            then linalg.angleBetween (SN.E_ l /v SN.e_ l) (N /v n)
            else (- linalg.angleBetween (SN.E_ l /v SN.e_ l) (N /v n))%D) s, w) in
  let '(u, w) := draw w in
  (set_double m_PsiE (Fin _2_PI * Fin u)%D s, w).

(** [bool BaseBinaryStar::ResolveSupernova()] *)
Definition ResolveSupernova (s : BaseBinaryStar) (w : World)
    : bool * BaseBinaryStar * World :=
  if negb (IsSNevent (star (m_Supernova s) s)) then
    (false, s, emit (SHOW_WARN ERROR.RESOLVE_SUPERNOVA_IMPROPERLY_CALLED) w)
  else
    let s := SN_preamble s in
    let theta := SN_Theta (star (m_Supernova s) s) in
    let phi := SN_Phi (star (m_Supernova s) s) in
    let natalKickVector := SN_kick s theta phi in
    let '(s, w) :=
      if IsUnbound s then
        let s :=
          call (m_Supernova s)
            (UpdateComponentVelocity
               (Vec.RotateVector natalKickVector
                  s.[m_ThetaE] s.[m_PhiE] s.[m_PsiE])) s in
        let s := set_double m_OrbitalVelocityPreSN NaN s in
        (set_double m_uK NaN s, w)
      else
        let '(l, s) := SN_orbit theta s in
        let s :=
          UpdateSystemicVelocity
            (Vec.RotateVector (SN.Vcm_ l) s.[m_ThetaE] s.[m_PhiE] s.[m_PsiE]) s in
        let '(s, w) :=
          if (utils.Compare (SN.e_ l) (Fin 1) >=? 0)%Z
          then SN_unbound l s w
          else SN_bound l s w in
        let s := call (m_Companion s) (CheckRunaway (bools s m_Unbound)) s in
        let s := set_double m_Eccentricity (SN.e_ l) s in
        (set_double m_SemiMajorAxis (SN.a_ l * Fin KM_TO_AU)%D s, w) in
    let totalMass :=
      (Mass (star (m_Supernova s) s) + Mass (star (m_Companion s) s))%D in
    let reducedMass :=
      (Mass (star (m_Supernova s) s) * Mass (star (m_Companion s) s)
       / totalMass)%D in
    let s :=
      call (m_Supernova s)
        (SetOrbitalEnergyPostSN
           (CalculateOrbitalEnergy reducedMass totalMass s.[m_SemiMajorAxis])) s in
    let s := set_double m_IPrime s.[m_ThetaE] s in
    let s := set_double m_CosIPrime (Double.cos s.[m_IPrime]) s in
    let w := emit PrintSupernovaDetails w in
    let s := call (m_Supernova s) ClearCurrentSNEvent s in
    (true, s, w).

End Supernova.


(* ================================================================== *)
(** ** The supernova arithmetic over the reals *)

(** The formulas of [SN_kinematics] written over the real numbers.  Where
    no division by zero and no square root or arc cosine outside its domain
    occurs, the doubles of [SN_kinematics] are these numbers
    (lemma [SN_kinematics_reals]). *)
Module RealOrbit.

Definition vec : Type := (R * R * R)%type.

Definition inj (u : vec) : Vector3d :=
  let '(x, y, z) := u in Vec.of_reals x y z.

Definition norm (u : vec) : R :=
  let '(x, y, z) := u in sqrt (x * x + y * y + z * z).

Definition cross (u w : vec) : vec :=
  let '(x, y, z) := u in
  let '(x', y', z') := w in
  (y * z' - z * y', z * x' - x * z', x * y' - y * x').

Definition dot (u w : vec) : R :=
  let '(x, y, z) := u in
  let '(x', y', z') := w in
  0 + x * x' + y * y' + z * z'.

Definition add (u w : vec) : vec :=
  let '(x, y, z) := u in
  let '(x', y', z') := w in
  (x + x', y + y', z + z').

Definition sub (u w : vec) : vec :=
  let '(x, y, z) := u in
  let '(x', y', z') := w in
  (x - x', y - y', z - z').

Definition scale (k : R) (u : vec) : vec :=
  let '(x, y, z) := u in (k * x, k * y, k * z).

Definition divide (u : vec) (k : R) : vec :=
  let '(x, y, z) := u in (x / k, y / k, z / k).

Definition angle (u w : vec) : R :=
  acos (dot u w / (norm u * norm w)).

(** The numbers the arithmetic starts from. *)
Record input : Type := mkInput {
  G : R;
  a : R;
  e : R;
  m1 : R;
  m2 : R;
  EA : R;
  psi : R;
  theta : R;
  phi : R;
  vk : R;
  m1_ : R;
  m2_ : R
}.

Definition omega (i : input) : R :=
  sqrt (G i * (m1 i + m2 i) / (a i * a i * a i)).

Definition R_ (i : input) : vec :=
  (a i * (cos (EA i) - e i),
   a i * sqrt (1 - e i * e i) * sin (EA i),
   0).

Definition r (i : input) : R := norm (R_ i).

Definition V (i : input) : vec :=
  ((- omega i * a i * a i / r i) * sin (EA i),
   (omega i * a i * a i / r i) * sqrt (1 - e i * e i) * cos (EA i),
   0).

Definition v (i : input) : R := norm (V i).

Definition H (i : input) : vec := cross (R_ i) (V i).

Definition h (i : input) : R := norm (H i).

Definition E (i : input) : vec :=
  sub (divide (cross (V i) (H i)) (G i * (m1 i + m2 i))) (divide (R_ i) (r i)).

Definition newPhi (i : input) : R :=
  phi i + psi i + PI - (PI - angle (R_ i) (V i)).

Definition natalKickVector (i : input) : vec :=
  scale (vk i)
    (cos (theta i) * cos (newPhi i),
     cos (theta i) * sin (newPhi i),
     sin (theta i)).

Definition mb_ (i : input) : R := m1_ i + m2_ i.

Definition Vcm_ (i : input) : vec :=
  add (add (scale (- m2 i * (m1 i - m1_ i) / ((m1 i + m2 i) * mb_ i)
                   + m1 i * (m2 i - m2_ i) / ((m1 i + m2 i) * mb_ i)) (V i))
           (scale (m1_ i / mb_ i) (natalKickVector i)))
      (scale (m2_ i / mb_ i) (0, 0, 0)).

Definition V_ (i : input) : vec :=
  add (V i) (sub (natalKickVector i) (0, 0, 0)).

Definition H_ (i : input) : vec := cross (R_ i) (V_ i).

Definition h_ (i : input) : R := norm (H_ i).

Definition E_ (i : input) : vec :=
  sub (divide (cross (V_ i) (H_ i)) (G i * mb_ i)) (divide (R_ i) (r i)).

Definition e_ (i : input) : R := norm (E_ i).

(** A binary on a bound Keplerian orbit before the supernova, with stars
    that have mass before it and some mass left after it. *)
Definition bound_orbit (i : input) : Prop :=
  0 < G i /\ 0 < a i /\ 0 <= e i < 1 /\ 0 < m1 i /\ 0 < m2 i
  /\ 0 < m1_ i + m2_ i.

End RealOrbit.

(** The locals of [SN_kinematics] when every number handed to it is
    finite. *)
Definition SN_kinematics_at {K : Constants} (i : RealOrbit.input)
    : SN.locals :=
  SN_kinematics (Fin (RealOrbit.a i)) (Fin (RealOrbit.e i))
    (Fin (RealOrbit.m1 i)) (Fin (RealOrbit.m2 i))
    (Fin (RealOrbit.EA i)) (Fin (RealOrbit.psi i)) (Fin (RealOrbit.theta i))
    (Fin (RealOrbit.phi i)) (Fin (RealOrbit.vk i))
    (Fin (RealOrbit.m1_ i)) (Fin (RealOrbit.m2_ i)).

(* ================================================================== *)
(** ** The donor of a common envelope event, in the specification *)


(* ================================================================== *)
(** ** The semi-major axis the specification gives for an overflow at birth *)

(** The specification has the semi-major axis of a binary equilibrated at
    birth equal to [a0 * 16 m1 m2 / (m1 + m2)^4 * (1 - e0^2)] "for the
    pre-equilibration masses/eccentricity". *)
Definition spec_equilibrated_SemiMajorAxis {K : Constants} {SI : StarInterface}
    (b : Birth) : double :=
  let m1 := mass1_0 b in
  let m2 := mass2_0 b in
  let M := (m1 + m2)%D in
  (semiMajorAxis_0 b * (Fin 16 * m1 * m2 / (M * M * M * M))
   * (Fin 1 - eccentricity_0 b * eccentricity_0 b))%D.

(* ================================================================== *)
(** ** A concrete setting *)

(** Values for everything the development leaves open, to run the embedded
    functions on concrete binaries: constants of the order of the physical
    ones, an exact comparison, stars that are plain records, and a random
    stream that replays a script. *)
Module Example.

Definition compare : CompareConfig :=
  {| COMPARE_WITH_TOLERANCE := false;
     FLOAT_TOLERANCE_ABSOLUTE := 0.0000005;
     FLOAT_TOLERANCE_RELATIVE := 0.0000005 |}.

Inductive stellar_type : Set :=
| MS_LTE_07 | MS_GT_07 | HERTZSPRUNG_GAP | FIRST_GIANT_BRANCH
| CORE_HELIUM_BURNING | EARLY_ASYMPTOTIC_GIANT_BRANCH
| THERMALLY_PULSING_ASYMPTOTIC_GIANT_BRANCH
| HELIUM_MS | HELIUM_HERTZSPRUNG_GAP | HELIUM_GIANT_BRANCH
| HELIUM_WHITE_DWARF | CARBON_OXYGEN_WHITE_DWARF | OXYGEN_NEON_WHITE_DWARF
| NEUTRON_STAR | BLACK_HOLE | MASSLESS_REMNANT | CHEMICALLY_HOMOGENEOUS.

Scheme Equality for stellar_type.

Definition constants : Constants :=
  {| STELLAR_TYPE := stellar_type;
     STELLAR_TYPE_eqb := stellar_type_beq;
     NAKED_HELIUM_STAR_MS := HELIUM_MS;
     ALL_MAIN_SEQUENCE := [MS_LTE_07; MS_GT_07; HELIUM_MS];
     ALL_HERTZSPRUNG_GAP := [HERTZSPRUNG_GAP; HELIUM_HERTZSPRUNG_GAP];
     COMPACT_OBJECTS :=
       [HELIUM_WHITE_DWARF; CARBON_OXYGEN_WHITE_DWARF; OXYGEN_NEON_WHITE_DWARF;
        NEUTRON_STAR; BLACK_HOLE];
     G := 0.0000000000667;
     C := 300000000;
     G1 := 4 * PI * PI;
     G_SN := 132700000000;
     AU := 149597871000;
     MSOL_TO_KG := 1989000000000000000000000000000;
     SECONDS_IN_YEAR := 31556926;
     YEAR_TO_MYR := 0.000001;
     HUBBLE_TIME := 435000000000000000;
     RSOL_TO_AU := 0.00465;
     AU_TO_RSOL := / 0.00465;
     AU_TO_KM := 149597871;
     KM_TO_AU := / 149597871;
     MAXIMUM_MASS_TRANSFER_FRACTION_PER_STEP := 0.001 |}.

(** A star: the quantities the accessors return. *)
Record Star : Type := mkStar {
  x_Mass : double;
  x_MassPrev : double;
  x_Radius : double;
  x_CoreMass : double;
  x_Lambda : double;
  x_StellarType : stellar_type;
  x_IsRLOF : bool;
  x_IsSNevent : bool;
  x_Theta : double;
  x_Phi : double;
  x_KickMagnitude : double;
  x_EccentricAnomaly : double;
  x_TrueAnomaly : double;
  x_ComponentVelocity : Vector3d
}.

Definition with_mass (m : double) (st : Star) : Star :=
  mkStar m (x_MassPrev st) (x_Radius st) (x_CoreMass st) (x_Lambda st)
    (x_StellarType st) (x_IsRLOF st) (x_IsSNevent st) (x_Theta st) (x_Phi st)
    (x_KickMagnitude st) (x_EccentricAnomaly st) (x_TrueAnomaly st)
    (x_ComponentVelocity st).

Definition with_velocity (u : Vector3d) (st : Star) : Star :=
  mkStar (x_Mass st) (x_MassPrev st) (x_Radius st) (x_CoreMass st)
    (x_Lambda st) (x_StellarType st) (x_IsRLOF st) (x_IsSNevent st)
    (x_Theta st) (x_Phi st) (x_KickMagnitude st) (x_EccentricAnomaly st)
    (x_TrueAnomaly st) (x_ComponentVelocity st + u)%V.

Definition without_SNevent (st : Star) : Star :=
  mkStar (x_Mass st) (x_MassPrev st) (x_Radius st) (x_CoreMass st)
    (x_Lambda st) (x_StellarType st) (x_IsRLOF st) false
    (x_Theta st) (x_Phi st) (x_KickMagnitude st) (x_EccentricAnomaly st)
    (x_TrueAnomaly st) (x_ComponentVelocity st).

(** A star at birth: a main-sequence star of the given mass whose radius, in
    solar radii, is [radius] of its mass. *)
Definition newborn (radius : R -> R) (m : double) : Star :=
  mkStar m m (Double.lift1 radius m) (Fin 0) (Fin 1) MS_GT_07 false false
    (Fin 0) (Fin 0) (Fin 0) (Fin 0) (Fin 0) Vec.zero.

(** Stars whose member functions do the least their names ask for: the
    common envelope leaves a star with the final mass it is handed, a kick
    adds to the component velocity, the supernova event is cleared. *)
Definition stars (radius : R -> R) : @StarInterface constants :=
  {| BinaryConstituentStar := Star;
     KickParameters := unit;
     NoKickParameters := tt;
     NewBinaryConstituentStar := fun _ m _ _ _ _ => newborn radius m;
     Mass := x_Mass;
     MassPrev := x_MassPrev;
     Radius := x_Radius;
     RadiusPostCEE := x_Radius;
     CoreMass := x_CoreMass;
     LambdaAtCEE := x_Lambda;
     StellarType := x_StellarType : Star -> @STELLAR_TYPE constants;
     IsRLOF := x_IsRLOF;
     IsSNevent := x_IsSNevent;
     SN_Theta := x_Theta;
     SN_Phi := x_Phi;
     SN_KickMagnitude := x_KickMagnitude;
     SN_EccentricAnomaly := x_EccentricAnomaly;
     SN_TrueAnomaly := x_TrueAnomaly;
     SetCompanion := fun _ st => st;
     SetOrbitalEnergyPreSN := fun _ st => st;
     SetOrbitalEnergyPostSN := fun _ st => st;
     UpdateComponentVelocity := with_velocity;
     CalculateSNAnomalies := fun _ st => st;
     CheckRunaway := fun _ st => st;
     ClearCurrentSNEvent := without_SNevent;
     CalculateLambdas := fun _ st => st;
     CalculateBindingEnergies := fun _ _ _ st => st;
     CalculateCommonEnvelopeValues := fun st => st;
     StarSetPreCEEValues := fun st => st;
     StarSetPostCEEValues := fun st => st;
     ResolveCommonEnvelopeAccretion := with_mass;
     ResolveEnvelopeLossAndSwitch := fun st => st;
     UpdateAttributes := fun _ _ _ st => st;
     SetOmega := fun _ st => st |}.

(** The random stream replays a script: every draw takes the next number of
    the list, and 0 once the list is exhausted. *)
Definition next (script : list R) : R * list R :=
  match script with
  | [] => (0, [])
  | x :: rest => (x, rest)
  end.

Definition next_double (script : list R) : double * list R :=
  let (x, rest) := next script in (Fin x, rest).

Definition random : RandomInterface :=
  {| RandState := list R;
     Random := next;
     AIS_Initialise := fun script => script;
     SampleInitialMassDistribution := next_double;
     SampleQDistribution := next_double;
     SampleMetallicityDistribution := next_double;
     SampleSemiMajorAxisDistribution := fun _ _ => next_double;
     SampleEccentricityDistribution := next_double |}.

(** Options: overflow and touching at birth either allowed or not, a minimum
    secondary mass of 0.1 solar masses. *)
Definition options (allowRLOF allowTouching allowMS : bool) : Options :=
  {| AllowRLOFAtBirth := allowRLOF;
     AllowTouchingAtBirth := allowTouching;
     MinimumMassSecondary := 0.1;
     AIS_RefinementPhase := false;
     InitialMassFunctionMin := 5;
     InitialMassFunctionMax := 150;
     MassRatioDistributionMin := 0;
     MassRatioDistributionMax := 1;
     SemiMajorAxisDistributionMin := 0.01;
     SemiMajorAxisDistributionMax := 1000;
     AllowMainSequenceStarToSurviveCommonEnvelope := allowMS;
     CHE_Option := CHE_OPTION.NONE;
     MassTransferAngularMomentumLossPrescription :=
       MT_ANGULAR_MOMENTUM_LOSS_PRESCRIPTION.ISOTROPIC_RE_EMISSION;
     MassTransferJloss := 1 |}.

(** The script of the scenario of the specification: a primary of 10 solar
    masses, a mass ratio 0.8, solar metallicities, 10 AU, a circular orbit. *)
Definition script_10_8 : list R := [10; 0.8; 0.02; 0.02; 10; 0].

(** The scenario with stellar radii forced to 2000 solar radii, so that the
    stars overflow at 10 AU, and with overflow and touching at birth
    allowed; and the same scenario with radii equal to the masses (no
    overflow) and overflow at birth not allowed. *)
Definition overflowing_birth :=
  @SampleUntilAccepted compare constants (options true true true)
    (stars (fun _ => 2000)) random 1 0%N (Fin 1) (Fin 1) script_10_8.

(** A build with [COMPARE_WITH_TOLERANCE] defined. *)
Definition tolerant_compare : CompareConfig :=
  {| COMPARE_WITH_TOLERANCE := true;
     FLOAT_TOLERANCE_ABSOLUTE := 0.0000005;
     FLOAT_TOLERANCE_RELATIVE := 0.0000005 |}.

Definition detached_birth :=
  @SampleUntilAccepted compare constants (options false false true)
    (stars (fun m => m)) random 1 0%N (Fin 1) (Fin 1) script_10_8.

(** The inline members of the header: an orbit counts as unbound when its
    semi-major axis is not positive or its eccentricity exceeds 1; the
    orbital energy is [- G1 mu M / (2 a)]; the separations in solar radii are
    conversions of the semi-major axis. *)
Definition header (radius : R -> R) : @Header constants (stars radius) :=
  {| IsUnbound := fun s =>
       (@utils.Compare compare s.[m_SemiMajorAxis] (Fin 0) <=? 0)%Z
       || (@utils.Compare compare s.[m_Eccentricity] (Fin 1) >? 0)%Z;
     CalculateOrbitalEnergy := fun mu M a =>
       (- (Fin (@G1 constants) * mu * M) / (Fin 2 * a))%D;
     OrbitalAngularVelocity := fun s =>
       Double.sqrt
         (Fin (@G1 constants) * (Mass (m_Star1 s) + Mass (m_Star2 s))
          / (s.[m_SemiMajorAxis] * s.[m_SemiMajorAxis] * s.[m_SemiMajorAxis]))%D;
     SemiMajorAxisRsol := fun s => (s.[m_SemiMajorAxis] * Fin (@AU_TO_RSOL constants))%D;
     PeriastronRsol := fun s =>
       (s.[m_SemiMajorAxis] * Fin (@AU_TO_RSOL constants)
        * (Fin 1 - s.[m_Eccentricity]))%D |}.

(** Stars whose radius in solar radii is their mass in solar masses, and
    the header for them. *)
Definition unit_stars : @StarInterface constants := stars (fun m => m).

Definition unit_header : @Header constants unit_stars := header (fun m => m).

(** A world whose random stream replays [script] and whose log is empty. *)
Definition world (script : list R) : @World random :=
  mkWorld random script [].

(** *** A supernova whose kick cancels the orbital velocity *)

(** A circular orbit of 1 AU; the exploding star has 2 solar masses before
    and 1 after the supernova, the companion 1 solar mass.  The kick is in
    the orbital plane ([theta = 0]) at [phi = pi], and its magnitude is the
    orbital speed [omega a] in km/s. *)
Definition radial_speed : R :=
  sqrt (132700000000 * (2 + 1)
        / (1 * 149597871 * (1 * 149597871) * (1 * 149597871)))
  * (1 * 149597871).

Definition radial_input : RealOrbit.input :=
  RealOrbit.mkInput 132700000000 (1 * 149597871) 0 2 1 0 0 0 PI radial_speed
    1 1.

Definition exploding_star : Star :=
  mkStar (Fin 1) (Fin 2) (Fin 1) (Fin 1) (Fin 1) NEUTRON_STAR false true
    (Fin 0) (Fin PI) (Fin radial_speed) (Fin 0) (Fin 0) Vec.zero.

Definition companion_star : Star :=
  mkStar (Fin 1) (Fin 1) (Fin 1) (Fin 0) (Fin 1) MS_GT_07 false false
    (Fin 0) (Fin 0) (Fin 0) (Fin 0) (Fin 0) Vec.zero.

(** Every member of type double is zero except the semi-major axes, which
    are 1 AU, and the common envelope efficiency, which is 1; every flag is
    false. *)
Definition members_at_1AU (f : DoubleMember) : double :=
  match f with
  | m_SemiMajorAxis | m_SemiMajorAxisPrev | m_CEDetails_alpha => Fin 1
  | _ => Fin 0
  end.

Definition radial_binary : @BaseBinaryStar constants unit_stars :=
  mkBinary constants unit_stars members_at_1AU (fun _ => false)
    Vec.zero 0%Z MT_TRACKING.NO_MASS_TRANSFER ERROR.NONE
    exploding_star companion_star Star1 Star2.

(** *** A giant in a common envelope with a main-sequence companion *)

(** A giant of 5 solar masses with a core of 1 solar mass and a radius of
    100 solar radii overflows onto a main-sequence star of 1 solar mass and
    1 solar radius, 1 AU away on a circular orbit. *)
Definition giant_star : Star :=
  mkStar (Fin 5) (Fin 5) (Fin 100) (Fin 1) (Fin 1) FIRST_GIANT_BRANCH true
    false (Fin 0) (Fin 0) (Fin 0) (Fin 0) (Fin 0) Vec.zero.

Definition envelope_binary : @BaseBinaryStar constants unit_stars :=
  mkBinary constants unit_stars members_at_1AU (fun _ => false)
    Vec.zero 0%Z MT_TRACKING.NO_MASS_TRANSFER ERROR.NONE
    giant_star companion_star Star1 Star2.

End Example.
(* ================================================================== *)
(** * Properties *)

(** ** Arithmetic of doubles *)

Ltac decide_reals :=
  repeat match goal with
  | |- context [Req_dec_T ?a ?b] => destruct (Req_dec_T a b); try lra
  | |- context [Rlt_dec ?a ?b] => destruct (Rlt_dec a b); try lra
  | |- context [Rle_dec ?a ?b] => destruct (Rle_dec a b); try lra
  end.

Lemma div_Fin (a b : R) : b <> 0 -> (Fin a / Fin b)%D = Fin (a / b).
Proof. intros Hb. simpl. destruct (Req_dec_T b 0); [contradiction | reflexivity]. Qed.

Lemma div_by_zero (x : double) : (x / Fin 0)%D = NaN.
Proof.
  destruct x as [a|]; simpl; [|reflexivity].
  destruct (Req_dec_T 0 0); [reflexivity | lra].
Qed.

Lemma sqrt_Fin (a : R) : 0 <= a -> Double.sqrt (Fin a) = Fin (sqrt a).
Proof. intros Ha. simpl. destruct (Rlt_dec a 0); [lra | reflexivity]. Qed.

Lemma log_Fin (a : R) : 0 < a -> Double.log (Fin a) = Fin (ln a).
Proof. intros Ha. simpl. destruct (Rlt_dec 0 a); [reflexivity | lra]. Qed.

Lemma pow_Fin (a b : R) : 0 < a -> Double.pow (Fin a) (Fin b) = Fin (Rpower a b).
Proof. intros Ha. simpl. destruct (Rlt_dec 0 a); [reflexivity | lra]. Qed.

Lemma acos_Fin (a : R) :
  -1 <= a <= 1 -> Double.acos (Fin a) = Fin (acos a).
Proof.
  intros [Hl Hu]. simpl.
  destruct (Rle_dec (-1) a); [|lra]. destruct (Rle_dec a 1); [reflexivity | lra].
Qed.

Lemma lt_Fin (a b : R) : Double.lt (Fin a) (Fin b) = true <-> a < b.
Proof. simpl. destruct (Rlt_dec a b); split; intros; try easy; lra. Qed.

Lemma le_Fin (a b : R) : Double.le (Fin a) (Fin b) = true <-> a <= b.
Proof. simpl. destruct (Rle_dec a b); split; intros; try easy; lra. Qed.

Lemma eq_Fin (a b : R) : Double.eq (Fin a) (Fin b) = true <-> a = b.
Proof. simpl. destruct (Req_dec_T a b); split; intros; try easy. Qed.

(** ** utils::Compare *)

Section CompareFacts.
Context {cfg : CompareConfig}.

(** The result is one of -1, 0, 1. *)
Lemma Compare_range (x y : double) :
  utils.Compare x y = (-1)%Z \/ utils.Compare x y = 0%Z \/ utils.Compare x y = 1%Z.
Proof.
  unfold utils.Compare.
  repeat match goal with |- context [if ?c then _ else _] => destruct c end; auto.
Qed.

(** -1 is returned only when the first number is below the second. *)
Lemma Compare_neg (x y : double) :
  (utils.Compare x y < 0)%Z -> Double.lt x y = true.
Proof.
  unfold utils.Compare.
  repeat match goal with |- context [if ?c then _ else _] => destruct c eqn:? end;
    intros; try lia; reflexivity.
Qed.

(** A NaN on either side gives 1. *)
Lemma Compare_NaN_l (y : double) : utils.Compare NaN y = 1%Z.
Proof. unfold utils.Compare. destruct COMPARE_WITH_TOLERANCE; reflexivity. Qed.

Lemma Compare_NaN_r (x : double) : utils.Compare x NaN = 1%Z.
Proof.
  unfold utils.Compare. destruct COMPARE_WITH_TOLERANCE, x; reflexivity.
Qed.

(** Zero compares equal to zero whatever the tolerances. *)
Lemma Compare_0_0 : utils.Compare (Fin 0) (Fin 0) = 0%Z.
Proof.
  unfold utils.Compare. destruct COMPARE_WITH_TOLERANCE.
  - unfold Double.fabs, Double.max. simpl.
    rewrite Rminus_diag, Rabs_R0.
    destruct (Rlt_dec 0 0); [lra|].
    destruct (Rlt_dec FLOAT_TOLERANCE_ABSOLUTE (FLOAT_TOLERANCE_RELATIVE * 0)).
    + destruct (Rle_dec 0 (FLOAT_TOLERANCE_RELATIVE * 0)); [reflexivity | lra].
    + destruct (Rle_dec 0 FLOAT_TOLERANCE_ABSOLUTE); [reflexivity | lra].
  - simpl. destruct (Req_dec_T 0 0); [reflexivity | lra].
Qed.

(** With an exact comparison, [Compare] is the order of the reals. *)
Lemma Compare_exact (a b : R) :
  exact_compare cfg ->
  utils.Compare (Fin a) (Fin b)
  = if Req_dec_T a b then 0%Z else if Rlt_dec a b then (-1)%Z else 1%Z.
Proof.
  assert (Hexact :
    (if Double.eq (Fin a) (Fin b) then 0%Z
     else if Double.lt (Fin a) (Fin b) then (-1)%Z else 1%Z)
    = if Req_dec_T a b then 0%Z else if Rlt_dec a b then (-1)%Z else 1%Z).
  { simpl. destruct (Req_dec_T a b), (Rlt_dec a b); reflexivity. }
  intros [Hoff | [Habs Hrel]]; unfold utils.Compare.
  - rewrite Hoff. exact Hexact.
  - destruct COMPARE_WITH_TOLERANCE; [|exact Hexact].
    rewrite Habs, Hrel.
    assert (Htol :
      Double.max (Fin 0)
        (Fin 0 * Double.max (Double.fabs (Fin a)) (Double.fabs (Fin b)))%D
      = Fin 0).
    { unfold Double.max, Double.fabs. simpl.
      destruct (Rlt_dec (Rabs a) (Rabs b)); simpl;
        match goal with
        | |- context [Rlt_dec 0 ?t] => destruct (Rlt_dec 0 t); [lra | reflexivity]
        end. }
    rewrite Htol. simpl.
    pose proof (Rabs_pos (a - b)) as Hpos.
    destruct (Rle_dec (Rabs (a - b)) 0) as [Hle | Hnle].
    + assert (Heq : a = b).
      { apply Rminus_diag_uniq.
        destruct (Req_dec_T (a - b) 0) as [Hz | Hnz]; [assumption|].
        pose proof (Rabs_pos_lt _ Hnz). lra. }
      destruct (Req_dec_T a b); [reflexivity | contradiction].
    + destruct (Req_dec_T a b) as [Heq | Hne].
      * exfalso. apply Hnle. subst. rewrite Rminus_diag, Rabs_R0. lra.
      * destruct (Rlt_dec a b); reflexivity.
Qed.

Lemma Compare_exact_lt (a b : R) :
  exact_compare cfg -> ((utils.Compare (Fin a) (Fin b) <? 0)%Z = true <-> a < b).
Proof.
  intros Hx. rewrite (Compare_exact a b Hx).
  destruct (Req_dec_T a b), (Rlt_dec a b); simpl; split; intros; try easy; lra.
Qed.

Lemma Compare_exact_gt (a b : R) :
  exact_compare cfg -> ((utils.Compare (Fin a) (Fin b) >? 0)%Z = true <-> b < a).
Proof.
  intros Hx. rewrite (Compare_exact a b Hx).
  destruct (Req_dec_T a b), (Rlt_dec a b); simpl; split; intros; try easy; lra.
Qed.

Lemma Compare_exact_ge (a b : R) :
  exact_compare cfg -> ((utils.Compare (Fin a) (Fin b) >=? 0)%Z = true <-> b <= a).
Proof.
  intros Hx. rewrite (Compare_exact a b Hx).
  destruct (Req_dec_T a b), (Rlt_dec a b); simpl; split; intros; try easy; lra.
Qed.


Lemma Compare_exact_eq (a b : R) :
  exact_compare cfg -> ((utils.Compare (Fin a) (Fin b) =? 0)%Z = true <-> a = b).
Proof.
  intros Hx. rewrite (Compare_exact a b Hx).
  destruct (Req_dec_T a b), (Rlt_dec a b); simpl; split; intros; try easy; lra.
Qed.

End CompareFacts.

(** ** The Roche lobe radius *)

Lemma Rpower_pos (x y : R) : 0 < Rpower x y.
Proof. unfold Rpower. apply exp_pos. Qed.

(** For positive finite masses the formula stays within the finite numbers. *)
Lemma RocheLobe_Fin (a b : R) :
  0 < a -> 0 < b ->
  CalculateRocheLobeRadius_Static (Fin a) (Fin b)
  = Fin (0.49 / (0.6 + ln (1 + Rpower (a / b) (1 / 3))
                        / Rpower (a / b) (1 / 3) / Rpower (a / b) (1 / 3))).
Proof.
  intros Ha Hb. unfold CalculateRocheLobeRadius_Static.
  assert (Hq : 0 < a / b) by (apply Rdiv_lt_0_compat; assumption).
  pose proof (Rpower_pos (a / b) (1 / 3)) as Hc.
  set (qc := Rpower (a / b) (1 / 3)) in *.
  rewrite (div_Fin a b) by lra.
  rewrite (div_Fin 1 3) by lra.
  rewrite pow_Fin by assumption. fold qc.
  change (Fin 1 + Fin qc)%D with (Fin (1 + qc)).
  rewrite log_Fin by lra.
  rewrite (div_Fin _ qc) by lra. rewrite (div_Fin _ qc) by lra.
  assert (Hl : 0 < ln (1 + qc)).
  { rewrite <- ln_1. apply ln_increasing; lra. }
  assert (Hd : 0 < ln (1 + qc) / qc / qc).
  { apply Rdiv_lt_0_compat; [apply Rdiv_lt_0_compat|]; assumption. }
  change (Fin 0.6 + Fin (ln (1 + qc) / qc / qc))%D
    with (Fin (0.6 + ln (1 + qc) / qc / qc)).
  rewrite div_Fin by lra. reflexivity.
Qed.

Lemma ln_le_minus_1 (x : R) : 0 < x -> ln x <= x - 1.
Proof.
  intros Hx. pose proof (exp_ineq1_le (ln x)) as H.
  rewrite exp_ln in H by assumption. lra.
Qed.

Lemma ln_ge_1_minus_inv (x : R) : 0 < x -> 1 - / x <= ln x.
Proof.
  intros Hx.
  assert (Hi : 0 < / x) by now apply Rinv_0_lt_compat.
  pose proof (ln_le_minus_1 (/ x) Hi) as H.
  rewrite ln_Rinv in H by assumption. lra.
Qed.

(** Bounds on [ln 2], from [2 <= 1.022 ^ 32] and [1.0218 ^ 32 <= 2]. *)
Lemma ln2_upper : ln 2 <= 0.704.
Proof.
  assert (H : 2 < 1.022 ^ 32) by (simpl; lra).
  assert (Hl : ln 2 < ln (1.022 ^ 32)) by (apply ln_increasing; lra).
  rewrite ln_pow in Hl by lra.
  pose proof (ln_le_minus_1 1.022 ltac:(lra)).
  rewrite INR_IZR_INZ in Hl. simpl in Hl. lra.
Qed.

Lemma ln2_lower : 0.682 <= ln 2.
Proof.
  assert (H : 1.0218 ^ 32 < 2) by (simpl; lra).
  assert (Hl : ln (1.0218 ^ 32) < ln 2).
  { apply ln_increasing; [apply pow_lt|]; lra. }
  rewrite ln_pow in Hl by lra.
  pose proof (ln_ge_1_minus_inv 1.0218 ltac:(lra)).
  rewrite INR_IZR_INZ in Hl. simpl in Hl. lra.
Qed.

(** At equal masses the radius is [0.49 / (0.6 + ln 2)]. *)
Lemma RocheLobe_equal_masses (m : R) :
  0 < m ->
  CalculateRocheLobeRadius_Static (Fin m) (Fin m) = Fin (0.49 / (0.6 + ln 2)).
Proof.
  intros Hm. rewrite RocheLobe_Fin by assumption.
  replace (m / m) with 1 by (field; lra).
  assert (H1 : Rpower 1 (1 / 3) = 1).
  { unfold Rpower. rewrite ln_1, Rmult_0_r. apply exp_0. }
  rewrite H1. do 2 f_equal.
  replace (1 + 1) with 2 by lra. field.
Qed.

(** C7.  The Roche-lobe radius in units of the semi-major axis is unchanged
    when both (positive) masses are scaled by the same positive factor: it
    depends on the mass ratio only.  At equal masses it is a finite number
    within 0.005 of 0.38. *)
Theorem RocheLobe_mass_ratio_only (m1 m2 c : R) :
  0 < m1 -> 0 < m2 -> 0 < c ->
  CalculateRocheLobeRadius_Static (Fin c * Fin m1)%D (Fin c * Fin m2)%D
  = CalculateRocheLobeRadius_Static (Fin m1) (Fin m2)
  /\ Double.is_finite (CalculateRocheLobeRadius_Static (Fin m1) (Fin m2))
  /\ exists rl : R,
       CalculateRocheLobeRadius_Static (Fin m1) (Fin m1) = Fin rl
       /\ Rabs (rl - 0.38) < 0.005.
Proof.
  intros H1 H2 Hc. split; [|split].
  - change (Fin c * Fin m1)%D with (Fin (c * m1)).
    change (Fin c * Fin m2)%D with (Fin (c * m2)).
    rewrite !RocheLobe_Fin by nra.
    replace (c * m1 / (c * m2)) with (m1 / m2) by (field; lra).
    reflexivity.
  - rewrite RocheLobe_Fin by assumption. eexists. reflexivity.
  - exists (0.49 / (0.6 + ln 2)). split.
    + apply RocheLobe_equal_masses. assumption.
    + pose proof ln2_upper. pose proof ln2_lower.
      assert (Hd : 0 < 0.6 + ln 2) by lra.
      assert (Hlo : 0.375 < 0.49 / (0.6 + ln 2)).
      { apply (Rmult_lt_reg_r (0.6 + ln 2)); [assumption|].
        unfold Rdiv. rewrite Rmult_assoc, Rinv_l by lra. lra. }
      assert (Hhi : 0.49 / (0.6 + ln 2) < 0.385).
      { apply (Rmult_lt_reg_r (0.6 + ln 2)); [assumption|].
        unfold Rdiv. rewrite Rmult_assoc, Rinv_l by lra. lra. }
      apply Rabs_def1; lra.
Qed.

(** ** Reading the state after an assignment *)

Section MemberFacts.
Context {K : Constants} {SI : StarInterface}.

Lemma DoubleMember_beq_refl (f : DoubleMember) : DoubleMember_beq f f = true.
Proof. destruct f; reflexivity. Qed.

Lemma BoolMember_beq_refl (f : BoolMember) : BoolMember_beq f f = true.
Proof. destruct f; reflexivity. Qed.

Lemma get_set_double (f g : DoubleMember) (x : double) (s : BaseBinaryStar) :
  (set_double f x s).[g] = if DoubleMember_beq f g then x else s.[g].
Proof. reflexivity. Qed.

Lemma get_set_double_same (f : DoubleMember) (x : double) (s : BaseBinaryStar) :
  (set_double f x s).[f] = x.
Proof. simpl. now rewrite DoubleMember_beq_refl. Qed.

Lemma get_set_bool (f g : BoolMember) (x : bool) (s : BaseBinaryStar) :
  bools (set_bool f x s) g = if BoolMember_beq f g then x else bools s g.
Proof. reflexivity. Qed.

Lemma get_set_bool_same (f : BoolMember) (x : bool) (s : BaseBinaryStar) :
  bools (set_bool f x s) f = x.
Proof. simpl. now rewrite BoolMember_beq_refl. Qed.

Lemma bools_set_double (f : DoubleMember) (x : double) (s : BaseBinaryStar) :
  bools (set_double f x s) = bools s.
Proof. reflexivity. Qed.

Lemma doubles_set_bool (f : BoolMember) (x : bool) (s : BaseBinaryStar) :
  doubles (set_bool f x s) = doubles s.
Proof. reflexivity. Qed.

Lemma bools_call (p : StarRef) (f : BinaryConstituentStar -> BinaryConstituentStar)
    (s : BaseBinaryStar) :
  bools (call p f s) = bools s.
Proof. destruct p; reflexivity. Qed.

Lemma doubles_call (p : StarRef) (f : BinaryConstituentStar -> BinaryConstituentStar)
    (s : BaseBinaryStar) :
  doubles (call p f s) = doubles s.
Proof. destruct p; reflexivity. Qed.

End MemberFacts.

(** ** Coalescence *)

Section CoalescenceFacts.
Context {cfg : CompareConfig} {K : Constants} {SI : StarInterface}
        {RI : RandomInterface}.

(** C5.  For an eccentricity equal to 0 the time to coalescence is the
    circular value [a^4 / (4 beta)], [beta = (64/5) G^3 m1 m2 (m1 + m2) / c^5]:
    the circular branch is the one taken, whatever the comparison tolerances,
    so that neither the eccentricity series nor the quadrature enters the
    result; for finite arguments that keep [beta] away from zero the value is
    the closed form over the reals. *)
Theorem TimeToCoalescence_circular (a m1 m2 : double) :
  CoalescenceBranchOf (Fin 0) = CIRCULAR
  /\ CalculateTimeToCoalescence a (Fin 0) m1 m2
     = (a * a * a * a
        / (Fin 4 * ((Fin 64 / Fin 5) * Fin G * Fin G * Fin G * m1 * m2
                    * (m1 + m2) / (Fin C * Fin C * Fin C * Fin C * Fin C))))%D
  /\ forall ra r1 r2 : R,
       a = Fin ra -> m1 = Fin r1 -> m2 = Fin r2 ->
       C <> 0 -> G * r1 * r2 * (r1 + r2) <> 0 ->
       CalculateTimeToCoalescence a (Fin 0) m1 m2
       = Fin (ra ^ 4 / (4 * (64 / 5 * G ^ 3 * r1 * r2 * (r1 + r2) / C ^ 5))).
Proof.
  assert (Hb : CoalescenceBranchOf (Fin 0) = CIRCULAR).
  { unfold CoalescenceBranchOf. rewrite Compare_0_0. reflexivity. }
  split; [exact Hb|]. split.
  - unfold CalculateTimeToCoalescence. rewrite Hb. reflexivity.
  - intros ra r1 r2 -> -> -> HC Hm.
    unfold CalculateTimeToCoalescence. rewrite Hb.
    rewrite (div_Fin 64 5) by lra.
    cbn [Double.mul Double.add Double.lift2].
    assert (HC5 : C * C * C * C * C <> 0).
    { repeat apply Rmult_integral_contrapositive_currified; assumption. }
    rewrite div_Fin by assumption.
    cbn [Double.mul Double.lift2].
    assert (HG : G <> 0) by (intros E0; apply Hm; rewrite E0; ring).
    assert (H1 : r1 <> 0) by (intros E0; apply Hm; rewrite E0; ring).
    assert (H2 : r2 <> 0) by (intros E0; apply Hm; rewrite E0; ring).
    assert (H12 : r1 + r2 <> 0) by (intros E0; apply Hm; rewrite E0; ring).
    rewrite div_Fin.
    + f_equal. field. repeat split; assumption.
    + apply Rmult_integral_contrapositive_currified; [lra|].
      unfold Rdiv. apply Rmult_integral_contrapositive_currified.
      * repeat apply Rmult_integral_contrapositive_currified;
          try assumption; lra.
      * apply Rinv_neq_0_compat. assumption.
Qed.

(** C10.  After [ResolveCoalescence] the flags [m_Merged] and
    [m_MergesInHubbleTime] are equal: both hold exactly when the comparison
    of the coalescence time with [HUBBLE_TIME] is negative, that is, when the
    comparison is exact and the time is a finite number, when the time is
    below [HUBBLE_TIME]. *)
Theorem ResolveCoalescence_flags_agree (s : BaseBinaryStar) (w : World) :
  let s' := fst (ResolveCoalescence s w) in
  let tC :=
    CalculateTimeToCoalescence (s.[m_SemiMajorAxis] * Fin AU)%D
      s.[m_Eccentricity]
      (Mass (m_Star1 s) * Fin MSOL_TO_KG)%D
      (Mass (m_Star2 s) * Fin MSOL_TO_KG)%D in
  bools s' m_Merged = bools s' m_MergesInHubbleTime
  /\ bools s' m_Merged = (utils.Compare tC (Fin HUBBLE_TIME) <? 0)%Z
  /\ forall t : R,
       exact_compare cfg -> tC = Fin t ->
       (bools s' m_Merged = true <-> t < HUBBLE_TIME).
Proof.
  cbv zeta. unfold ResolveCoalescence. cbn [fst].
  set (tC := CalculateTimeToCoalescence _ _ _ _).
  assert (Hflags :
    forall s0 : BaseBinaryStar,
      let s' :=
        if (utils.Compare tC (Fin HUBBLE_TIME) <? 0)%Z
        then set_bool m_MergesInHubbleTime true (set_bool m_Merged true s0)
        else set_bool m_MergesInHubbleTime false (set_bool m_Merged false s0) in
      bools s' m_Merged = bools s' m_MergesInHubbleTime
      /\ bools s' m_Merged = (utils.Compare tC (Fin HUBBLE_TIME) <? 0)%Z).
  { intros s0. destruct (utils.Compare tC (Fin HUBBLE_TIME) <? 0)%Z;
      split; reflexivity. }
  match goal with
  | |- bools ?s' _ = _ /\ _ =>
      match s' with
      | context [set_bool m_Merged true ?s0] =>
          destruct (Hflags s0) as [H1 H2]
      end
  end.
  split; [exact H1|]. split; [exact H2|].
  intros t Hx Ht. rewrite H2, Ht. apply Compare_exact_lt. assumption.
Qed.

End CoalescenceFacts.

Section QuadratureFuel.
Context {cfg : CompareConfig}.

Lemma quadrature_loop_exit (fuel : nat) (ecc de e sum : double) :
  (utils.Compare e ecc <? 0)%Z = false ->
  quadrature_loop fuel ecc de e sum = sum.
Proof. intros Hc. destruct fuel; simpl; [reflexivity | now rewrite Hc]. Qed.

Lemma quadrature_loop_stable (x : R) (n : nat) :
  0 < x ->
  forall (k : nat) (ek : R) (sum : double) (extra : nat),
    (Z.to_nat 10000 <= k + n)%nat ->
    ek = INR k * (x / 10000) ->
    quadrature_loop (n + extra) (Fin x) (Fin (x / 10000)) (Fin ek) sum
    = quadrature_loop n (Fin x) (Fin (x / 10000)) (Fin ek) sum.
Proof.
  intros Hx. induction n as [|n IH]; intros k ek sum extra Hk Hek.
  - simpl. apply quadrature_loop_exit.
    apply Z.ltb_ge.
    destruct (Z.lt_ge_cases (utils.Compare (Fin ek) (Fin x)) 0) as [Hlt|Hge];
      [|lia].
    apply Compare_neg in Hlt. apply lt_Fin in Hlt.
    assert (Hk' : 10000 <= INR k).
    { replace 10000 with (INR (Z.to_nat 10000)).
      - apply le_INR. lia.
      - rewrite INR_IZR_INZ, Z2Nat.id by lia. reflexivity. }
    exfalso. subst ek. unfold Rdiv in Hlt. nra.
  - simpl. destruct (utils.Compare (Fin ek) (Fin x) <? 0)%Z; [|reflexivity].
    apply (IH (S k)); [lia|].
    rewrite S_INR. subst ek. ring.
Qed.

(** The quadrature never needs more than [quadrature_fuel] passes: with more
    fuel the loop of [CalculateTimeToCoalescence] returns the same sum. *)
Lemma quadrature_fuel_enough (p_Eccentricity : double) (extra : nat) :
  let de := (p_Eccentricity / Fin 10000)%D in
  quadrature_loop (quadrature_fuel + extra) p_Eccentricity de (Fin 0) (Fin 0)
  = quadrature_loop quadrature_fuel p_Eccentricity de (Fin 0) (Fin 0).
Proof.
  cbv zeta. destruct p_Eccentricity as [x|].
  - rewrite div_Fin by lra.
    destruct (Rlt_dec 0 x) as [Hpos|Hneg].
    + apply (quadrature_loop_stable x quadrature_fuel Hpos 0%nat).
      * unfold quadrature_fuel. lia.
      * simpl. ring.
    + rewrite !quadrature_loop_exit; try reflexivity;
        apply Z.ltb_ge;
        destruct (Z.lt_ge_cases (utils.Compare (Fin 0) (Fin x)) 0) as [Hlt|Hge];
        try lia; apply Compare_neg in Hlt; apply lt_Fin in Hlt; lra.
  - rewrite !quadrature_loop_exit; try reflexivity;
      rewrite Compare_NaN_r; reflexivity.
Qed.

End QuadratureFuel.

(** ** The rejection loop of the sampling constructor *)

Section ConstructorFacts.
Context {cfg : CompareConfig} {K : Constants} {Opt : Options}
        {SI : StarInterface} {RI : RandomInterface}.

(** What one pass of the loop leaves in its variables. *)
Lemma SampleBirth_fields (seed : N) (lbv wr : double) (rs : RandState) :
  let b := fst (SampleBirth seed lbv wr rs) in
  rlof b = overflows_at_formation seed lbv wr b
  /\ secondarySmallerThanMinimumMass b
     = (utils.Compare (mass2 b) (Fin MinimumMassSecondary) <? 0)%Z
  /\ b_Star1 b
     = SetCompanion Star2
         (NewBinaryConstituentStar seed (mass1 b) (metallicity1 b)
            NoKickParameters lbv wr)
  /\ b_Star2 b
     = SetCompanion Star1
         (NewBinaryConstituentStar seed (mass2 b) (metallicity2 b)
            NoKickParameters lbv wr)
  /\ b_MassesEquilibratedAtBirth b = rlof b && AllowRLOFAtBirth
  /\ (rlof b && AllowRLOFAtBirth = true ->
      mass1 b = ((mass1_0 b + mass2_0 b) / Fin 2)%D
      /\ mass2 b = mass1 b
      /\ b_Eccentricity b = Fin 0
      /\ b_SemiMajorAxis b
         = (semiMajorAxis_0 b
            * (Fin 16 * (mass1 b * mass2 b) * (mass1 b * mass2 b)
               / ((mass1 b + mass2 b) * (mass1 b + mass2 b)
                  * (mass1 b + mass2 b) * (mass1 b + mass2 b))
               * (Fin 1 - eccentricity_0 b * eccentricity_0 b)))%D)
  /\ (rlof b && AllowRLOFAtBirth = false ->
      mass1 b = mass1_0 b /\ mass2 b = mass2_0 b
      /\ b_Eccentricity b = eccentricity_0 b
      /\ b_SemiMajorAxis b = semiMajorAxis_0 b).
Proof.
  unfold SampleBirth, overflows_at_formation.
  destruct (SampleInitialMassDistribution _) as [m1 rs1].
  destruct (SampleQDistribution rs1) as [q rs2].
  destruct (SampleMetallicityDistribution rs2) as [z1 rs3].
  destruct (SampleMetallicityDistribution rs3) as [z2 rs4].
  destruct (SampleSemiMajorAxisDistribution _ _ rs4) as [a0 rs5].
  destruct (SampleEccentricityDistribution rs5) as [e0 rs6].
  match goal with
  | |- context [if ?c && AllowRLOFAtBirth then _ else _] =>
      destruct (c && AllowRLOFAtBirth) eqn:Hc
  end;
    cbn [fst b_SemiMajorAxis b_Eccentricity b_Star1 b_Star2
         b_MassesEquilibrated b_MassesEquilibratedAtBirth mass1 mass2
         massRatio metallicity1 metallicity2 rlof merger
         secondarySmallerThanMinimumMass mass1_0 mass2_0 semiMajorAxis_0
         eccentricity_0];
    repeat split; try reflexivity; try congruence.
Qed.

(** A configuration the loop returns was drawn by one pass and passed the
    loop condition. *)
Lemma SampleUntilAccepted_inv (fuel : nat) (seed : N) (lbv wr : double)
    (rs rs' : RandState) (b : Birth) :
  SampleUntilAccepted fuel seed lbv wr rs = Some (b, rs') ->
  exists rs0, SampleBirth seed lbv wr rs0 = (b, rs') /\ rejected b = false.
Proof.
  revert rs. induction fuel as [|fuel IH]; intros rs; simpl; [discriminate|].
  destruct (SampleBirth seed lbv wr rs) as [b0 rs0] eqn:Hs.
  destruct (rejected b0) eqn:Hr.
  - apply IH.
  - intros [= <- <-]. exists rs. split; assumption.
Qed.

(** A rejected pass is followed by another one. *)
Lemma SampleUntilAccepted_resample (fuel : nat) (seed : N) (lbv wr : double)
    (rs : RandState) :
  rejected (fst (SampleBirth seed lbv wr rs)) = true ->
  SampleUntilAccepted (S fuel) seed lbv wr rs
  = SampleUntilAccepted fuel seed lbv wr (snd (SampleBirth seed lbv wr rs)).
Proof.
  simpl. destruct (SampleBirth seed lbv wr rs) as [b0 rs0]. simpl.
  intros ->. reflexivity.
Qed.

(** C9.  A binary accepted by the rejection loop has a secondary whose mass
    does not compare below [MinimumMassSecondary]: with an exact comparison
    and a mass that is a number, the mass is at least the minimum.  The
    secondary star is the one built from that mass.  A pass whose secondary
    compares below the minimum is never returned: the loop samples again. *)
Theorem accepted_secondary_at_least_minimum (fuel : nat) (seed : N)
    (lbv wr : double) (rs rs' : RandState) (b : Birth) :
  SampleUntilAccepted fuel seed lbv wr rs = Some (b, rs') ->
  (utils.Compare (mass2 b) (Fin MinimumMassSecondary) <? 0)%Z = false
  /\ (forall m : R,
        exact_compare cfg -> mass2 b = Fin m -> MinimumMassSecondary <= m)
  /\ b_Star2 b
     = SetCompanion Star1
         (NewBinaryConstituentStar seed (mass2 b) (metallicity2 b)
            NoKickParameters lbv wr)
  /\ (forall (fuel0 : nat) (rs0 : RandState),
        secondarySmallerThanMinimumMass (fst (SampleBirth seed lbv wr rs0)) = true ->
        SampleUntilAccepted (S fuel0) seed lbv wr rs0
        = SampleUntilAccepted fuel0 seed lbv wr
            (snd (SampleBirth seed lbv wr rs0))).
Proof.
  intros Hacc.
  destruct (SampleUntilAccepted_inv _ _ _ _ _ _ _ Hacc) as (rs0 & Hb & Hrej).
  pose proof (SampleBirth_fields seed lbv wr rs0) as Hf.
  rewrite Hb in Hf. cbn [fst] in Hf.
  destruct Hf as (_ & Hsmall & _ & Hstar2 & _).
  unfold rejected in Hrej.
  apply orb_false_iff in Hrej as [Hrej _].
  apply orb_false_iff in Hrej as [_ Hrej].
  rewrite Hsmall in Hrej.
  split; [exact Hrej|]. split; [|split; [exact Hstar2|]].
  - intros m Hx Hm. rewrite Hm in Hrej.
    destruct (Rle_dec MinimumMassSecondary m) as [Hle|Hnle]; [assumption|].
    exfalso. assert (Hlt : m < MinimumMassSecondary) by lra.
    apply (Compare_exact_lt _ _ Hx) in Hlt. congruence.
  - intros fuel0 rs0' Hs. apply SampleUntilAccepted_resample.
    unfold rejected. rewrite Hs. now rewrite !orb_true_r.
Qed.

End ConstructorFacts.

(** ** Evaluating expressions on finite doubles *)

Ltac dfold :=
  cbn [Double.add Double.sub Double.mul Double.neg Double.lift1 Double.lift2
       Double.cos Double.sin Double.fabs Double.floor Double.of_int].

Ltac dcalc :=
  dfold;
  repeat (first
    [ rewrite div_Fin by (first [lra | nra | assumption])
    | rewrite sqrt_Fin by (first [lra | nra | assumption])
    | rewrite log_Fin by (first [lra | nra | assumption])
    | rewrite pow_Fin by (first [lra | nra | assumption]) ];
    dfold).

(** The Roche-lobe radius of positive finite masses lies strictly between 0
    and [0.49 / 0.6] of the semi-major axis. *)
Lemma RocheLobe_bounds (a b : R) :
  0 < a -> 0 < b ->
  exists rl : R,
    CalculateRocheLobeRadius_Static (Fin a) (Fin b) = Fin rl
    /\ 0 < rl < 0.49 / 0.6.
Proof.
  intros Ha Hb. rewrite RocheLobe_Fin by assumption.
  eexists. split; [reflexivity|].
  assert (Hq : 0 < a / b) by (apply Rdiv_lt_0_compat; assumption).
  pose proof (Rpower_pos (a / b) (1 / 3)) as Hc.
  set (qc := Rpower (a / b) (1 / 3)) in *.
  assert (Hl : 0 < ln (1 + qc)).
  { rewrite <- ln_1. apply ln_increasing; lra. }
  assert (Hd : 0 < ln (1 + qc) / qc / qc).
  { apply Rdiv_lt_0_compat; [apply Rdiv_lt_0_compat|]; assumption. }
  set (d := ln (1 + qc) / qc / qc) in *.
  split.
  - apply Rdiv_lt_0_compat; lra.
  - unfold Rdiv. apply Rmult_lt_compat_l; [lra|].
    apply Rinv_lt_contravar; nra.
Qed.

Section BirthFacts.
Context {cfg : CompareConfig} {K : Constants} {Opt : Options}
        {SI : StarInterface} {RI : RandomInterface}.

(** What the rejection loop does for an overflow at birth.  A binary
    accepted by the loop: when [AllowRLOFAtBirth] is false, neither star of
    the configuration drawn overflows its Roche lobe; when it is true and
    the configuration drawn overflows, both stars are built from the mean of
    the two masses drawn and the eccentricity is 0.  The semi-major axis
    drawn is multiplied by [16 (m1 m2)^2 / (m1 + m2)^4 * (1 - e0^2)], but
    with [m1 = m2] the masses already equilibrated: the masses are
    overwritten before the factor is formed, so that it is 1 for a mean
    mass that is a non-zero number and the axis is [a0 * (1 - e0^2)]. *)
Lemma accepted_birth_overflow (fuel : nat) (seed : N) (lbv wr : double)
    (rs rs' : RandState) (b : Birth) :
  SampleUntilAccepted fuel seed lbv wr rs = Some (b, rs') ->
  (AllowRLOFAtBirth = false -> overflows_at_formation seed lbv wr b = false)
  /\ (AllowRLOFAtBirth = true ->
      overflows_at_formation seed lbv wr b = true ->
      let mean := ((mass1_0 b + mass2_0 b) / Fin 2)%D in
      mass1 b = mean /\ mass2 b = mean
      /\ b_Star1 b
         = SetCompanion Star2
             (NewBinaryConstituentStar seed mean (metallicity1 b)
                NoKickParameters lbv wr)
      /\ b_Star2 b
         = SetCompanion Star1
             (NewBinaryConstituentStar seed mean (metallicity2 b)
                NoKickParameters lbv wr)
      /\ b_Eccentricity b = Fin 0
      /\ b_SemiMajorAxis b
         = (semiMajorAxis_0 b
            * (Fin 16 * (mean * mean) * (mean * mean)
               / ((mean + mean) * (mean + mean) * (mean + mean) * (mean + mean))
               * (Fin 1 - eccentricity_0 b * eccentricity_0 b)))%D
      /\ forall a0 e0 m : R,
           semiMajorAxis_0 b = Fin a0 -> eccentricity_0 b = Fin e0 ->
           mean = Fin m -> m <> 0 ->
           b_SemiMajorAxis b = Fin (a0 * (1 - e0 * e0))).
Proof.
  intros Hacc.
  destruct (SampleUntilAccepted_inv _ _ _ _ _ _ _ Hacc) as (rs0 & Hb & Hrej).
  pose proof (SampleBirth_fields seed lbv wr rs0) as Hf.
  rewrite Hb in Hf. cbn [fst] in Hf.
  destruct Hf as (Hrlof & _ & Hs1 & Hs2 & _ & Heq & _).
  split.
  - intros Hno. unfold rejected in Hrej. rewrite Hno in Hrej.
    rewrite <- Hrlof. cbn [negb andb] in Hrej.
    destruct (rlof b); [discriminate | reflexivity].
  - intros Hyes Hover. cbv zeta.
    rewrite <- Hrlof in Hover.
    destruct Heq as (Hm1 & Hm2 & He & Ha); [now rewrite Hover, Hyes|].
    rewrite Hm2 in *. rewrite Hm1 in *.
    repeat split; try assumption.
    intros a0 e0 m Ha0 He0 Hm Hm0.
    rewrite Ha, Ha0, He0, Hm. dfold.
    rewrite div_Fin.
    + dfold. f_equal. field. lra.
    + assert (Hmm : m + m <> 0) by lra.
      repeat apply Rmult_integral_contrapositive_currified; assumption.
Qed.

End BirthFacts.

(** ** The scenario of the specification, run *)

Lemma Example_compare_exact : exact_compare Example.compare.
Proof. left. reflexivity. Qed.

Section ExampleBirth.

Let overflowing :=
  @SampleBirth Example.compare Example.constants (Example.options true true true)
    (Example.stars (fun _ => 2000)) Example.random 0%N (Fin 1) (Fin 1)
    Example.script_10_8.

Lemma overflowing_drawn :
  mass1_0 (fst overflowing) = Fin 10
  /\ mass2_0 (fst overflowing) = Fin (0.8 * 10)
  /\ semiMajorAxis_0 (fst overflowing) = Fin 10
  /\ eccentricity_0 (fst overflowing) = Fin 0
  /\ merger (fst overflowing) = merger (fst overflowing)
  /\ initialParametersOutsideParameterSpace (fst overflowing) = false.
Proof.
  unfold overflowing, SampleBirth.
  cbn [AIS_RefinementPhase Example.options SampleInitialMassDistribution
       SampleQDistribution SampleMetallicityDistribution
       SampleSemiMajorAxisDistribution SampleEccentricityDistribution
       Example.random Example.next_double Example.next Example.script_10_8
       AllowRLOFAtBirth].
  match goal with
  | |- context [if ?c && true then _ else _] => destruct (c && true)
  end; repeat split; reflexivity.
Qed.

Lemma overflowing_fields :
  let b := fst overflowing in
  @overflows_at_formation Example.compare Example.constants
    (Example.stars (fun _ => 2000)) 0%N (Fin 1) (Fin 1) b = true
  /\ mass1 b = Fin 9 /\ mass2 b = Fin 9
  /\ b_Eccentricity b = Fin 0
  /\ b_SemiMajorAxis b = Fin 10
  /\ @rejected Example.constants (Example.options true true true)
       (Example.stars (fun _ => 2000)) b = false.
Proof.
  pose proof (@SampleBirth_fields Example.compare Example.constants
                (Example.options true true true)
                (Example.stars (fun _ => 2000)) Example.random
                0%N (Fin 1) (Fin 1) Example.script_10_8) as Hf.
  cbv zeta in Hf. fold overflowing in Hf.
  destruct Hf as (Hrlof & Hsmall & _ & _ & _ & Heq & _).
  cbv zeta.
  destruct overflowing_drawn as (Hm1 & Hm2 & Ha0 & He0 & _ & Hout).
  assert (Hover :
    @overflows_at_formation Example.compare Example.constants
      (Example.stars (fun _ => 2000)) 0%N (Fin 1) (Fin 1) (fst overflowing)
    = true).
  { unfold overflows_at_formation. rewrite Hm1, Hm2, Ha0, He0.
    apply orb_true_iff. left.
    destruct (RocheLobe_bounds 10 (0.8 * 10)) as (rl & -> & Hrl); try lra.
    change (Radius _) with (Fin 2000).
    change RSOL_TO_AU with 0.00465.
    dcalc.
    apply (Compare_exact_gt _ _ Example_compare_exact).
    assert (Hrl' : rl < 0.9) by (unfold Rdiv in Hrl; lra).
    apply (Rmult_lt_reg_r (10 * (1 - 0) * rl)); [nra|].
    replace (2000 * 0.00465 / (10 * (1 - 0) * rl) * (10 * (1 - 0) * rl))
      with (2000 * 0.00465) by (field; lra).
    lra. }
  rewrite <- Hrlof in Hover.
  destruct Heq as (Hmass1 & Hmass2 & He & Ha); [now rewrite Hover|].
  rewrite Hmass2, Hmass1 in *. rewrite Hm1, Hm2, Ha0, He0 in *.
  assert (Hmean : ((Fin 10 + Fin (0.8 * 10)) / Fin 2)%D = Fin 9).
  { dcalc. f_equal. lra. }
  rewrite Hmean in *.
  split; [now rewrite <- Hrlof|].
  repeat split; try assumption.
  - rewrite Ha. dcalc. f_equal. lra.
  - unfold rejected. rewrite Hsmall, Hout.
    cbn [AllowRLOFAtBirth AllowTouchingAtBirth Example.options negb andb orb].
    rewrite orb_false_r.
    apply Z.ltb_ge.
    destruct (Z.lt_ge_cases
                (@utils.Compare Example.compare (Fin 9)
                   (Fin (@MinimumMassSecondary (Example.options true true true))))
                0) as [Hlt|Hge]; [|lia].
    apply Z.ltb_lt in Hlt.
    apply (Compare_exact_lt _ _ Example_compare_exact) in Hlt.
    cbn [MinimumMassSecondary Example.options] in Hlt. lra.
Qed.

(** C4.  The scenario of the specification (10 and 8 solar masses, 10 AU, a
    circular orbit) with radii forced to overflow and [AllowRLOFAtBirth]
    set.  The first pass is accepted; the stars overflow, both masses are
    equilibrated to 9 solar masses and the orbit is circular, as the claim
    has it.  But the accepted binary keeps a semi-major axis of 10 AU: the
    factor is formed on the masses already equilibrated, whereas on the
    masses drawn, as the claim has it,
    [a0 * 16 m1 m2 / (m1 + m2)^4 * (1 - e0^2)] is [10 * 1280 / 104976].
    Angular momentum is not conserved either: for stars that do not spin,
    [CalculateAngularMomentum] of the accepted binary exceeds that of the
    binary drawn. *)
Theorem equilibration_keeps_SemiMajorAxis :
  match Example.overflowing_birth with
  | Some (b, _) =>
      @overflows_at_formation Example.compare Example.constants
        (Example.stars (fun _ => 2000)) 0%N (Fin 1) (Fin 1) b = true
      /\ mass1_0 b = Fin 10 /\ mass2_0 b = Fin (0.8 * 10)
      /\ semiMajorAxis_0 b = Fin 10 /\ eccentricity_0 b = Fin 0
      /\ mass1 b = Fin 9 /\ mass2 b = Fin 9
      /\ b_Eccentricity b = Fin 0
      /\ b_SemiMajorAxis b = Fin 10
      /\ spec_equilibrated_SemiMajorAxis b = Fin (10 * 1280 / 104976)
      /\ b_SemiMajorAxis b <> spec_equilibrated_SemiMajorAxis b
      /\ exists J0 J : R,
           @CalculateAngularMomentum Example.constants
             (semiMajorAxis_0 b) (eccentricity_0 b) (mass1_0 b) (mass2_0 b)
             (Fin 2000) (Fin 2000) (Fin 0) (Fin 0) (Fin 0) (Fin 0) = Fin J0
           /\ @CalculateAngularMomentum Example.constants
                (b_SemiMajorAxis b) (b_Eccentricity b) (mass1 b) (mass2 b)
                (Fin 2000) (Fin 2000) (Fin 0) (Fin 0) (Fin 0) (Fin 0) = Fin J
           /\ J0 < J
  | None => False
  end.
Proof.
  unfold Example.overflowing_birth, SampleUntilAccepted.
  fold overflowing.
  destruct overflowing_fields as (Hover & Hm1 & Hm2 & He & Ha & Hrej).
  destruct overflowing_drawn as (Hd1 & Hd2 & Hd3 & Hd4 & _).
  destruct overflowing as [b rs']. cbn [fst] in *.
  rewrite Hrej.
  assert (Hspec : spec_equilibrated_SemiMajorAxis b = Fin (10 * 1280 / 104976)).
  { unfold spec_equilibrated_SemiMajorAxis. rewrite Hd1, Hd2, Hd3, Hd4.
    dcalc. f_equal. lra. }
  repeat (split; [assumption|]).
  split; [rewrite Ha, Hspec; intros [= Heq]; lra|].
  rewrite Hd1, Hd2, Hd3, Hd4, Hm1, Hm2, He, Ha.
  unfold CalculateAngularMomentum. cbv zeta.
  assert (Hg : 0 < @G1 Example.constants).
  { cbn [G1 Example.constants]. pose proof PI_RGT_0. nra. }
  set (g := @G1 Example.constants) in *.
  dfold.
  replace (g * (10 + 0.8 * 10) * 10 * (1 - 0 * 0)) with (g * 180) by lra.
  replace (g * (9 + 9) * 10 * (1 - 0 * 0)) with (g * 180) by lra.
  rewrite !sqrt_Fin by lra. rewrite !div_Fin by lra. dfold.
  eexists. eexists. split; [reflexivity|]. split; [reflexivity|].
  assert (Hs : 0 < sqrt (g * 180)) by (apply sqrt_lt_R0; lra).
  nra.
Qed.

(** The first pass of the overflowing scenario is accepted. *)
Lemma overflowing_accepted :
  Example.overflowing_birth = Some (fst overflowing, snd overflowing).
Proof.
  unfold Example.overflowing_birth, SampleUntilAccepted.
  fold overflowing.
  destruct overflowing_fields as (_ & _ & _ & _ & _ & Hrej).
  destruct overflowing as [b rs']. cbn [fst snd] in *.
  rewrite Hrej. reflexivity.
Qed.

(** The overflowing scenario as an accepted birth: the stars overflow, both
    get 9 solar masses, and the orbit is circular at 10 AU. *)
Lemma accepted_birth_overflow_witness :
  let b := fst overflowing in
  Example.overflowing_birth = Some (b, snd overflowing)
  /\ @AllowRLOFAtBirth (Example.options true true true) = true
  /\ @overflows_at_formation Example.compare Example.constants
       (Example.stars (fun _ => 2000)) 0%N (Fin 1) (Fin 1) b = true
  /\ mass1 b = ((mass1_0 b + mass2_0 b) / Fin 2)%D
  /\ mass2 b = ((mass1_0 b + mass2_0 b) / Fin 2)%D
  /\ b_Eccentricity b = Fin 0
  /\ b_SemiMajorAxis b = Fin (10 * (1 - 0 * 0)).
Proof.
  cbv zeta.
  destruct overflowing_fields as (Hover & _).
  destruct overflowing_drawn as (Hd1 & Hd2 & Hd3 & Hd4 & _).
  destruct (@accepted_birth_overflow Example.compare Example.constants
              (Example.options true true true)
              (Example.stars (fun _ => 2000)) Example.random
              1 0%N (Fin 1) (Fin 1) Example.script_10_8 (snd overflowing)
              (fst overflowing) overflowing_accepted) as [_ H].
  specialize (H eq_refl Hover). cbv zeta in H.
  destruct H as (H1 & H2 & _ & _ & He & _ & Hreal).
  split; [exact overflowing_accepted|].
  split; [reflexivity|].
  split; [exact Hover|].
  split; [exact H1|].
  split; [exact H2|].
  split; [exact He|].
  apply (Hreal 10 0 9); [exact Hd3 | exact Hd4 | | lra].
  rewrite Hd1, Hd2. dcalc. f_equal. lra.
Defined.

(** The overflowing scenario as an accepted birth: the secondary of 9 solar
    masses is not below the minimum of 0.1. *)
Lemma accepted_secondary_at_least_minimum_witness :
  let b := fst overflowing in
  Example.overflowing_birth = Some (b, snd overflowing)
  /\ (@utils.Compare Example.compare (mass2 b)
        (Fin (@MinimumMassSecondary (Example.options true true true))) <? 0)%Z
     = false
  /\ @MinimumMassSecondary (Example.options true true true) <= 9.
Proof.
  cbv zeta.
  destruct overflowing_fields as (_ & _ & Hm2 & _).
  destruct (@accepted_secondary_at_least_minimum Example.compare
              Example.constants (Example.options true true true)
              (Example.stars (fun _ => 2000)) Example.random
              1 0%N (Fin 1) (Fin 1) Example.script_10_8 (snd overflowing)
              (fst overflowing) overflowing_accepted) as (Hcmp & Hmin & _).
  split; [exact overflowing_accepted|].
  split; [exact Hcmp|].
  apply (Hmin 9 Example_compare_exact Hm2).
Defined.

End ExampleBirth.

(** ** Substeps of the mass-transfer orbit *)

Section MassTransferOrbitFacts.
Context {cfg : CompareConfig} {K : Constants} {Opt : Options}
        {SI : StarInterface} {RI : RandomInterface}.

(** The number of substeps is [max (floor (|dm| / (f m))) 1], with [f] the
    maximum mass-transfer fraction per step: it grows with [|dm| / m]. *)
Lemma numberIterations_Fin (m dm : R) :
  0 < m -> 0 < MAXIMUM_MASS_TRANSFER_FRACTION_PER_STEP ->
  numberIterations (Fin m) (Fin dm)
  = Z.max (Zfloor (Rabs dm / (MAXIMUM_MASS_TRANSFER_FRACTION_PER_STEP * m))) 1.
Proof.
  intros Hm Hf. unfold numberIterations.
  set (f := MAXIMUM_MASS_TRANSFER_FRACTION_PER_STEP) in *.
  assert (Hfm : 0 < f * m) by nra.
  dcalc. cbn [Double.fmax Double.to_int].
  assert (Habs : Rabs (dm / (f * m)) = Rabs dm / (f * m)).
  { unfold Rdiv. rewrite Rabs_mult, (Rabs_right (/ (f * m))); [reflexivity|].
    left. apply Rinv_0_lt_compat. assumption. }
  rewrite Habs. set (x := Rabs dm / (f * m)).
  assert (Hx : 0 <= x).
  { unfold x. apply Rmult_le_pos; [apply Rabs_pos|].
    left. apply Rinv_0_lt_compat. assumption. }
  assert (Hfl : (0 <= Zfloor x)%Z) by (apply Zfloor_lub; simpl; lra).
  destruct (Rle_dec 0 (Rmax (IZR (Zfloor x)) 1)) as [_|Hn].
  - unfold Rmax. destruct (Rle_dec (IZR (Zfloor x)) 1) as [Hle|Hgt].
    + apply le_IZR in Hle. rewrite (ZfloorZ 1). lia.
    + rewrite ZfloorZ.
      assert (1 < Zfloor x)%Z by (apply lt_IZR; lra). lia.
  - exfalso. apply Hn. pose proof (Rmax_r (IZR (Zfloor x)) 1). lra.
Qed.

(** What the substeps do satisfy: each changes the donor mass by less than
    twice the maximum fraction of the donor mass. *)
Lemma substep_below_twice_maximum (m dm : R) :
  0 < m -> 0 < MAXIMUM_MASS_TRANSFER_FRACTION_PER_STEP ->
  exists d : R,
    dM (Fin m) (Fin dm) = Fin d
    /\ Rabs d < 2 * MAXIMUM_MASS_TRANSFER_FRACTION_PER_STEP * m.
Proof.
  intros Hm Hf. unfold dM. rewrite numberIterations_Fin by assumption.
  set (f := MAXIMUM_MASS_TRANSFER_FRACTION_PER_STEP) in *.
  assert (Hfm : 0 < f * m) by nra.
  set (x := Rabs dm / (f * m)).
  assert (Hx : 0 <= x).
  { unfold x. apply Rmult_le_pos; [apply Rabs_pos|].
    left. apply Rinv_0_lt_compat. assumption. }
  assert (Hdm : Rabs dm = x * (f * m)) by (unfold x; field; lra).
  pose proof (Zfloor_bound x) as [Hlo Hhi].
  set (n := Z.max (Zfloor x) 1).
  assert (Hn1 : 1 <= IZR n) by (apply IZR_le; lia).
  assert (Hnx : x < 2 * IZR n).
  { destruct (Z.max_spec (Zfloor x) 1) as [[Hlt Hmax]|[Hge Hmax]];
      fold n in Hmax; rewrite Hmax.
    - assert (IZR (Zfloor x) <= 0) by (apply IZR_le; lia). lra.
    - assert (2 <= Zfloor x \/ Zfloor x = 1)%Z as [H2|H1] by lia.
      + apply IZR_le in H2. lra.
      + rewrite H1 in *. lra. }
  unfold Double.of_int. rewrite div_Fin by lra.
  eexists. split; [reflexivity|].
  unfold Rdiv. rewrite Rabs_mult, (Rabs_right (/ IZR n)), Hdm.
  - apply (Rmult_lt_reg_r (IZR n)); [lra|].
    rewrite Rmult_assoc, Rinv_l by lra. nra.
  - left. apply Rinv_0_lt_compat. lra.
Qed.

End MassTransferOrbitFacts.

(** C6, on the code: a donor of 1 solar mass that is to lose 0.0019 solar
    masses, with a maximum mass-transfer fraction per step of 0.001.  The
    orbit is integrated in a single substep (the floor of 1.9), which changes
    the donor mass by 0.0019, more than the maximum fraction 0.001 of the
    donor mass. *)
Theorem substep_exceeds_maximum_fraction :
  @numberIterations Example.constants (Fin 1) (Fin (-0.0019)) = 1%Z
  /\ @dM Example.constants (Fin 1) (Fin (-0.0019)) = Fin (-0.0019)
  /\ Rabs (-0.0019) > @MAXIMUM_MASS_TRANSFER_FRACTION_PER_STEP Example.constants * 1.
Proof.
  assert (Hn : @numberIterations Example.constants (Fin 1) (Fin (-0.0019)) = 1%Z).
  { rewrite (@numberIterations_Fin Example.constants); cbn; try lra.
    rewrite Rabs_left by lra.
    rewrite (Zfloor_eq 1); [reflexivity|]. simpl. lra. }
  split; [exact Hn|]. split.
  - unfold dM. rewrite Hn. unfold Double.of_int.
    rewrite div_Fin by lra. f_equal. lra.
  - cbn. rewrite Rabs_left by lra. lra.
Qed.

(** ** Supernova resolution called for a star that is not exploding *)

Section SupernovaMisuse.
Context {cfg : CompareConfig} {K : Constants} {Opt : Options}
        {SI : StarInterface} {RI : RandomInterface} {Hd : Header}.

(** C8.  When the star designated by [m_Supernova] is not flagged as
    undergoing a supernova event, [ResolveSupernova] returns false, leaves
    the binary and its two stars as they are, draws nothing from the random
    stream, and appends the warning [RESOLVE_SUPERNOVA_IMPROPERLY_CALLED] to
    the log. *)
Theorem ResolveSupernova_improperly_called (s : BaseBinaryStar) (w : World) :
  IsSNevent (star (m_Supernova s) s) = false ->
  ResolveSupernova s w
  = (false, s,
     mkWorld _ (rand w)
       (log w ++ [SHOW_WARN ERROR.RESOLVE_SUPERNOVA_IMPROPERLY_CALLED])).
Proof.
  intros Hsn. unfold ResolveSupernova. rewrite Hsn. reflexivity.
Qed.

End SupernovaMisuse.

(** ** Common envelope *)

Section CommonEnvelopeFacts.
Context {cfg : CompareConfig} {K : Constants} {Opt : Options}
        {SI : StarInterface} {RI : RandomInterface} {Hd : Header}.

Lemma doubles_set_CEEcount (n : Z) (s : BaseBinaryStar) :
  doubles (set_CEEcount n s) = doubles s.
Proof. reflexivity. Qed.

Lemma doubles_set_MassTransferTrackerHistory (t : MT_TRACKING.t)
    (s : BaseBinaryStar) :
  doubles (set_MassTransferTrackerHistory t s) = doubles s.
Proof. reflexivity. Qed.

Lemma bools_set_MassTransferTrackerHistory (t : MT_TRACKING.t)
    (s : BaseBinaryStar) :
  bools (set_MassTransferTrackerHistory t s) = bools s.
Proof. reflexivity. Qed.

(** [CE_switch] assigns no member of type double. *)
Lemma doubles_CE_switch (l : CE_locals) (s : BaseBinaryStar) :
  doubles (CE_switch l s) = doubles s.
Proof.
  unfold CE_switch.
  repeat match goal with
  | |- context [if ?c then _ else _] => destruct c
  end;
  repeat first
    [ rewrite doubles_set_bool
    | rewrite doubles_set_MassTransferTrackerHistory
    | rewrite doubles_call ];
  reflexivity.
Qed.

(** Nor does the tail of [ResolveCommonEnvelopeEvent] assign
    [m_SemiMajorAxis], [m_Eccentricity] or the final and envelope masses. *)
Lemma doubles_SetPostCEEValues (a e r1 r2 : double) (s : BaseBinaryStar)
    (f : DoubleMember) :
  (SetPostCEEValues a e r1 r2 s).[f]
  = match f with
    | m_CEDetails_postCEE_semiMajorAxis => a
    | m_CEDetails_postCEE_eccentricity => e
    | m_CEDetails_postCEE_rocheLobe1to2 => r1
    | m_CEDetails_postCEE_rocheLobe2to1 => r2
    | _ => s.[f]
    end.
Proof.
  unfold SetPostCEEValues.
  match goal with
  | |- context [if ?c then _ else _] => destruct c
  end; destruct f; reflexivity.
Qed.

(** The members of type double after the event, but for the four post-event
    values: those of the state in which the separation is computed, with the
    new semi-major axis and a zero eccentricity. *)
Lemma CE_result_doubles (s : BaseBinaryStar) (w : World) (f : DoubleMember) :
  let l := fst (CE_prepare s) in
  let s0 := snd (CE_prepare s) in
  let aFinalRsol := CE_aFinalRsol l s0 in
  (fst (ResolveCommonEnvelopeEvent s w)).[f]
  = match f with
    | m_CEDetails_postCEE_semiMajorAxis => aFinalRsol
    | m_CEDetails_postCEE_eccentricity => Fin 0
    | m_CEDetails_postCEE_rocheLobe1to2 =>
        (aFinalRsol * Fin RSOL_TO_AU
         * CalculateRocheLobeRadius_Static s0.[m_Mass1Final] s0.[m_Mass2Final]
         * Fin AU_TO_RSOL)%D
    | m_CEDetails_postCEE_rocheLobe2to1 =>
        (aFinalRsol * Fin RSOL_TO_AU
         * CalculateRocheLobeRadius_Static s0.[m_Mass2Final] s0.[m_Mass1Final]
         * Fin AU_TO_RSOL)%D
    | m_SemiMajorAxis => (aFinalRsol * Fin RSOL_TO_AU)%D
    | m_Eccentricity => Fin 0
    | _ => s0.[f]
    end.
Proof.
  cbv zeta. unfold ResolveCommonEnvelopeEvent, CE_contract.
  destruct (CE_prepare s) as [l s0]. cbn [fst snd].
  rewrite doubles_SetPostCEEValues.
  repeat match goal with
  | |- context [match CHE_Option with _ => _ end] => destruct CHE_Option
  | |- context [if ?c then _ else _] => destruct c
  end;
  repeat first
    [ rewrite doubles_call
    | rewrite doubles_set_bool
    | rewrite doubles_CE_switch ];
  destruct f; reflexivity.
Qed.

(** The state in which the separation is computed holds the final and
    envelope masses that [CE_masses] sets, and the locals are read off the
    state before the event. *)
Lemma CE_prepare_locals (s : BaseBinaryStar) :
  let l := fst (CE_prepare s) in
  let s0 := snd (CE_prepare s) in
  alphaCE l = s.[m_CEDetails_alpha]
  /\ periastronRsol l = PeriastronRsol s
  /\ donorMS l = fst (CE_masses s)
  /\ s0.[m_Mass1Final] = (snd (CE_masses s)).[m_Mass1Final]
  /\ s0.[m_Mass2Final] = (snd (CE_masses s)).[m_Mass2Final]
  /\ s0.[m_MassEnv1] = (snd (CE_masses s)).[m_MassEnv1]
  /\ s0.[m_MassEnv2] = (snd (CE_masses s)).[m_MassEnv2]
  /\ envelopeFlag1 l
     = (utils.Compare s0.[m_MassEnv1] (Fin 0) >? 0)%Z
       && (utils.Compare s0.[m_Mass1Final] (Fin 0) >? 0)%Z
  /\ envelopeFlag2 l
     = (utils.Compare s0.[m_MassEnv2] (Fin 0) >? 0)%Z
       && (utils.Compare s0.[m_Mass2Final] (Fin 0) >? 0)%Z
  /\ bools s0 m_StellarMerger = bools s m_StellarMerger.
Proof.
  cbv zeta.
  assert (Hm : bools (snd (CE_masses s)) = bools s).
  { unfold CE_masses.
    repeat match goal with
    | |- context [if ?c then _ else _] => destruct c
    end; reflexivity. }
  rewrite <- Hm. clear Hm.
  remember (CE_prepare s) as p eqn:Hp. revert Hp. unfold CE_prepare.
  destruct (CE_masses s) as [d s1]. cbn [fst snd].
  destruct (HasOneOf _ ALL_HERTZSPRUNG_GAP); intros ->;
    cbn [fst snd alphaCE periastronRsol donorMS envelopeFlag1 envelopeFlag2];
    repeat split; reflexivity.
Qed.

(** C2.  After a common envelope event the semi-major axis is
    [m1_final m2_final / (k1 + k2 + k3)] in solar radii (the post-event value
    recorded), that is, this value times [RSOL_TO_AU] in [m_SemiMajorAxis],
    where [k1] and [k2] are the envelope-binding terms
    [2 / (lambda alpha) * m * m_env / radius] of the two stars, zero for a
    compact object, and [k3 = m1 m2 / periastron]; the eccentricity is set to
    zero. *)
Theorem CE_final_separation (s : BaseBinaryStar) (w : World) :
  let l := fst (CE_prepare s) in
  let s0 := snd (CE_prepare s) in
  let s' := fst (ResolveCommonEnvelopeEvent s w) in
  let alpha := s.[m_CEDetails_alpha] in
  let k1 :=
    if IsOneOf (m_Star1 s0) COMPACT_OBJECTS then Fin 0
    else ((Fin 2 / (lambda1 l * alpha)) * Mass (m_Star1 s0) * s'.[m_MassEnv1]
          / Radius (m_Star1 s0))%D in
  let k2 :=
    if IsOneOf (m_Star2 s0) COMPACT_OBJECTS then Fin 0
    else ((Fin 2 / (lambda2 l * alpha)) * Mass (m_Star2 s0) * s'.[m_MassEnv2]
          / Radius (m_Star2 s0))%D in
  let k3 := (Mass (m_Star1 s0) * Mass (m_Star2 s0) / PeriastronRsol s)%D in
  let aFinalRsol := (s'.[m_Mass1Final] * s'.[m_Mass2Final] / (k1 + k2 + k3))%D in
  s'.[m_CEDetails_postCEE_semiMajorAxis] = aFinalRsol
  /\ s'.[m_SemiMajorAxis] = (aFinalRsol * Fin RSOL_TO_AU)%D
  /\ s'.[m_Eccentricity] = Fin 0
  /\ s'.[m_CEDetails_postCEE_eccentricity] = Fin 0.
Proof.
  cbv zeta.
  rewrite !(CE_result_doubles s w). cbv zeta.
  destruct (CE_prepare_locals s) as (Halpha & Hperi & _).
  unfold CE_aFinalRsol, CE_k1, CE_k2, CE_k3, CE_k4.
  rewrite Halpha, Hperi. repeat split; reflexivity.
Qed.









End CommonEnvelopeFacts.

(** ** Vectors with finite components *)

Lemma Vec_of_reals_finite (x y z : R) : Vec.is_finite (Vec.of_reals x y z).
Proof. repeat split; eexists; reflexivity. Qed.

Lemma Vec_add_reals (x y z x' y' z' : R) :
  (Vec.of_reals x y z + Vec.of_reals x' y' z')%V
  = Vec.of_reals (x + x') (y + y') (z + z').
Proof. reflexivity. Qed.

Lemma Vec_sub_reals (x y z x' y' z' : R) :
  (Vec.of_reals x y z - Vec.of_reals x' y' z')%V
  = Vec.of_reals (x - x') (y - y') (z - z').
Proof. reflexivity. Qed.

Lemma Vec_scale_reals (k x y z : R) :
  Fin k *v Vec.of_reals x y z = Vec.of_reals (k * x) (k * y) (k * z).
Proof. reflexivity. Qed.

Lemma Vec_divide_reals (k x y z : R) :
  k <> 0 ->
  Vec.of_reals x y z /v Fin k = Vec.of_reals (x / k) (y / k) (z / k).
Proof.
  intros Hk. unfold Vec.divide, Vec.of_reals. cbn [xValue yValue zValue].
  rewrite !div_Fin by assumption. reflexivity.
Qed.

Lemma Vec_cross_reals (x y z x' y' z' : R) :
  linalg.cross (Vec.of_reals x y z) (Vec.of_reals x' y' z')
  = Vec.of_reals (y * z' - z * y') (z * x' - x * z') (x * y' - y * x').
Proof. reflexivity. Qed.

Lemma Vec_dot_reals (x y z x' y' z' : R) :
  linalg.dot (Vec.of_reals x y z) (Vec.of_reals x' y' z')
  = Fin (0 + x * x' + y * y' + z * z').
Proof. reflexivity. Qed.

Lemma sum_squares_nonneg (x y z : R) : 0 <= x * x + y * y + z * z.
Proof. nra. Qed.

Lemma Vec_Magnitude_reals (x y z : R) :
  Vec.Magnitude (Vec.of_reals x y z) = Fin (sqrt (x * x + y * y + z * z)).
Proof.
  unfold Vec.Magnitude, Vec.of_reals. cbn [xValue yValue zValue]. dfold.
  apply sqrt_Fin. apply sum_squares_nonneg.
Qed.

(** The magnitude vanishes only for the zero vector. *)
Lemma norm_zero (x y z : R) :
  sqrt (x * x + y * y + z * z) = 0 -> x = 0 /\ y = 0 /\ z = 0.
Proof.
  intros H. apply sqrt_eq_0 in H; [|apply sum_squares_nonneg].
  repeat split; nra.
Qed.

Lemma norm_pos (x y z : R) :
  x <> 0 \/ y <> 0 \/ z <> 0 -> 0 < sqrt (x * x + y * y + z * z).
Proof.
  intros H. apply sqrt_lt_R0.
  destruct H as [H | [H | H]];
    [ pose proof (Rsqr_pos_lt x H) | pose proof (Rsqr_pos_lt y H)
    | pose proof (Rsqr_pos_lt z H) ]; unfold Rsqr in *; nra.
Qed.

Lemma norm_square (x y z : R) :
  sqrt (x * x + y * y + z * z) * sqrt (x * x + y * y + z * z)
  = x * x + y * y + z * z.
Proof. apply sqrt_sqrt. apply sum_squares_nonneg. Qed.

(** Cauchy-Schwarz in three dimensions. *)
Lemma cauchy_schwarz (x y z x' y' z' : R) :
  Rabs (x * x' + y * y' + z * z')
  <= sqrt (x * x + y * y + z * z) * sqrt (x' * x' + y' * y' + z' * z').
Proof.
  rewrite <- sqrt_mult by apply sum_squares_nonneg.
  rewrite <- sqrt_Rsqr_abs.
  apply sqrt_le_1.
  - apply Rle_0_sqr.
  - apply Rmult_le_pos; apply sum_squares_nonneg.
  - unfold Rsqr.
    pose proof (Rle_0_sqr (x * y' - y * x')) as H1.
    pose proof (Rle_0_sqr (y * z' - z * y')) as H2.
    pose proof (Rle_0_sqr (z * x' - x * z')) as H3.
    unfold Rsqr in H1, H2, H3.
    replace ((x * x + y * y + z * z) * (x' * x' + y' * y' + z' * z'))
      with ((x * x' + y * y' + z * z') * (x * x' + y * y' + z * z')
            + (x * y' - y * x') * (x * y' - y * x')
            + (y * z' - z * y') * (y * z' - z * y')
            + (z * x' - x * z') * (z * x' - x * z')) by ring.
    lra.
Qed.

(** The angle between two non-zero vectors with finite components is a
    number of [0, pi]. *)
Lemma angleBetween_reals (x y z x' y' z' : R) :
  0 < sqrt (x * x + y * y + z * z) ->
  0 < sqrt (x' * x' + y' * y' + z' * z') ->
  linalg.angleBetween (Vec.of_reals x y z) (Vec.of_reals x' y' z')
  = Fin (acos ((0 + x * x' + y * y' + z * z')
               / (sqrt (x * x + y * y + z * z)
                  * sqrt (x' * x' + y' * y' + z' * z'))))
  /\ 0 <= acos ((0 + x * x' + y * y' + z * z')
               / (sqrt (x * x + y * y + z * z)
                  * sqrt (x' * x' + y' * y' + z' * z'))) <= PI.
Proof.
  intros Hn Hn'. split; [|apply acos_bound].
  unfold linalg.angleBetween.
  rewrite Vec_dot_reals, !Vec_Magnitude_reals. dfold.
  set (n := sqrt (x * x + y * y + z * z)) in *.
  set (n' := sqrt (x' * x' + y' * y' + z' * z')) in *.
  assert (Hp : 0 < n * n') by (apply Rmult_lt_0_compat; assumption).
  rewrite div_Fin by lra.
  apply acos_Fin.
  pose proof (cauchy_schwarz x y z x' y' z') as Hcs. fold n n' in Hcs.
  replace (0 + x * x' + y * y' + z * z') with (x * x' + y * y' + z * z') by ring.
  set (d := x * x' + y * y' + z * z') in *.
  pose proof (Rle_abs d) as Hhi. pose proof (Rle_abs (- d)) as Hlo.
  rewrite Rabs_Ropp in Hlo.
  split.
  - apply (Rmult_le_reg_r (n * n')); [assumption|].
    unfold Rdiv. rewrite Rmult_assoc, Rinv_l by lra. lra.
  - apply (Rmult_le_reg_r (n * n')); [assumption|].
    unfold Rdiv. rewrite Rmult_assoc, Rinv_l by lra. lra.
Qed.

(** ** The orbit before the supernova, over the reals *)

Ltac nonzero :=
  repeat match goal with
  | |- ?x * ?y <> 0 => apply Rmult_integral_contrapositive_currified
  end;
  first [assumption | lra].

Section RealOrbitFacts.
Import RealOrbit.
Variable i : input.
Hypothesis Hbound : bound_orbit i.

Let c := cos (EA i).
Let sn := sin (EA i).
Let k := sqrt (1 - e i * e i).

Lemma trig_one : sn * sn + c * c = 1.
Proof. pose proof (sin2_cos2 (EA i)) as H. unfold Rsqr in H. exact H. Qed.

Lemma cos_range : -1 <= c <= 1.
Proof. apply COS_bound. Qed.

Lemma k_pos : 0 < k.
Proof.
  destruct Hbound as (_ & _ & He & _).
  apply sqrt_lt_R0. nra.
Qed.

Lemma k_square : k * k = 1 - e i * e i.
Proof.
  destruct Hbound as (_ & _ & He & _).
  apply sqrt_sqrt. nra.
Qed.

Lemma omega_pos : 0 < omega i.
Proof.
  destruct Hbound as (HG & Ha & _ & H1 & H2 & _).
  apply sqrt_lt_R0. apply Rdiv_lt_0_compat.
  - apply Rmult_lt_0_compat; lra.
  - repeat apply Rmult_lt_0_compat; assumption.
Qed.

Lemma r_pos : 0 < r i.
Proof.
  destruct Hbound as (_ & Ha & He & _).
  pose proof k_pos. pose proof trig_one. pose proof k_square.
  unfold r, R_, norm. fold c sn k.
  apply norm_pos.
  destruct (Req_dec_T c (e i)) as [Hc | Hc].
  - right. left.
    assert (sn <> 0) by (intros Hs; rewrite Hs, Hc in *; nra).
    nonzero.
  - left. nonzero.
Qed.

Lemma r_square :
  r i * r i
  = a i * (c - e i) * (a i * (c - e i)) + a i * k * sn * (a i * k * sn).
Proof.
  unfold r, R_, norm. fold c sn k. rewrite norm_square. ring.
Qed.

(** The speed [omega a a / r] that scales the velocity. *)
Lemma speed_scale_pos : 0 < omega i * a i * a i / r i.
Proof.
  destruct Hbound as (_ & Ha & _).
  pose proof omega_pos. pose proof r_pos.
  apply Rdiv_lt_0_compat; [|assumption].
  repeat apply Rmult_lt_0_compat; assumption.
Qed.

Lemma v_pos : 0 < v i.
Proof.
  pose proof speed_scale_pos as Hq. pose proof k_pos. pose proof trig_one.
  unfold v, V, norm. fold c sn k.
  set (q := omega i * a i * a i / r i) in *.
  replace (- omega i * a i * a i / r i) with (- q) by (unfold q; field; pose proof r_pos; lra).
  apply norm_pos.
  destruct (Req_dec_T sn 0) as [Hs | Hs].
  - right. left.
    assert (c <> 0) by (intros Hc; rewrite Hs, Hc in *; lra).
    nonzero.
  - left. nonzero.
Qed.

(** The specific angular momentum before the supernova is along z and does
    not vanish. *)
Lemma h_pos : 0 < h i.
Proof.
  destruct Hbound as (_ & Ha & He & _).
  pose proof speed_scale_pos as Hq. pose proof k_pos. pose proof trig_one.
  pose proof cos_range.
  unfold h, H, V, R_, cross, norm. fold c sn k.
  set (q := omega i * a i * a i / r i) in *.
  replace (- omega i * a i * a i / r i) with (- q) by (unfold q; field; pose proof r_pos; lra).
  apply norm_pos. right. right.
  replace (a i * (c - e i) * (q * k * c) - a i * k * sn * (- q * sn))
    with (a i * q * k * (sn * sn + c * c - e i * c)) by ring.
  assert (0 < sn * sn + c * c - e i * c) by nra.
  nonzero.
Qed.

Lemma masses_nonzero :
  G i * (m1 i + m2 i) <> 0 /\ G i * mb_ i <> 0 /\ (m1 i + m2 i) * mb_ i <> 0
  /\ mb_ i <> 0.
Proof.
  destruct Hbound as (HG & _ & _ & H1 & H2 & Hmb). unfold mb_.
  repeat split; try lra;
    apply Rmult_integral_contrapositive_currified; lra.
Qed.

(** A post-supernova orbit without angular momentum has eccentricity 1. *)
Lemma radial_orbit_eccentricity : h_ i = 0 -> e_ i = 1.
Proof.
  intros Hh. pose proof r_pos as Hr. pose proof r_square as Hrr.
  unfold h_ in Hh. unfold e_, E_.
  destruct (H_ i) as [[hx hy] hz] eqn:EH. cbn [norm] in Hh.
  apply norm_zero in Hh. destruct Hh as (-> & -> & ->).
  destruct (V_ i) as [[ux uy] uz]. unfold R_. fold c sn k.
  cbn [cross divide sub norm].
  replace (uy * 0 - uz * 0) with 0 by ring.
  replace (uz * 0 - ux * 0) with 0 by ring.
  replace (ux * 0 - uy * 0) with 0 by ring.
  set (g := G i * mb_ i).
  match goal with
  | |- sqrt ?t = 1 => replace t with 1; [apply sqrt_1|]
  end.
  unfold Rdiv. rewrite !Rmult_0_l.
  assert (Hi : r i * / r i = 1) by (apply Rinv_r; lra).
  transitivity
    ((r i * / r i) * (r i * / r i)
     + (a i * (c - e i) * (a i * (c - e i)) + a i * k * sn * (a i * k * sn)
        - r i * r i) * (/ r i * / r i)).
  - rewrite Hrr, Hi. ring.
  - ring.
Qed.

End RealOrbitFacts.

Section InjFacts.
Context {K : Constants}.
Import RealOrbit.

Lemma inj_cross (u w : vec) : linalg.cross (inj u) (inj w) = inj (cross u w).
Proof. destruct u as [[x y] z], w as [[x' y'] z']. reflexivity. Qed.

Lemma inj_add (u w : vec) : (inj u + inj w)%V = inj (add u w).
Proof. destruct u as [[x y] z], w as [[x' y'] z']. reflexivity. Qed.

Lemma inj_sub (u w : vec) : (inj u - inj w)%V = inj (sub u w).
Proof. destruct u as [[x y] z], w as [[x' y'] z']. reflexivity. Qed.

Lemma inj_scale (k : R) (u : vec) : Fin k *v inj u = inj (scale k u).
Proof. destruct u as [[x y] z]. reflexivity. Qed.

Lemma inj_divide (k : R) (u : vec) :
  k <> 0 -> inj u /v Fin k = inj (divide u k).
Proof. destruct u as [[x y] z]. apply Vec_divide_reals. Qed.

Lemma inj_Magnitude (u : vec) : Vec.Magnitude (inj u) = Fin (norm u).
Proof. destruct u as [[x y] z]. apply Vec_Magnitude_reals. Qed.

Lemma inj_angleBetween (u w : vec) :
  0 < norm u -> 0 < norm w ->
  linalg.angleBetween (inj u) (inj w) = Fin (angle u w).
Proof.
  destruct u as [[x y] z], w as [[x' y'] z']. intros Hu Hw.
  apply (angleBetween_reals x y z x' y' z' Hu Hw).
Qed.

Lemma inj_finite (u : vec) : Vec.is_finite (inj u).
Proof. destruct u as [[x y] z]. apply Vec_of_reals_finite. Qed.

End InjFacts.

Ltac step_let name :=
  lazymatch goal with
  | |- (let x := ?v in @?b x) = ?rhs =>
      pose (name := v); change (b name = rhs); cbv beta
  end.

Tactic Notation "step_as" ident(name) constr(rhs) "by" tactic(tac) :=
  step_let name;
  let E := fresh "E" in
  assert (E : name = rhs) by (unfold name; tac);
  rewrite E; clear E name.

Section KinematicsReals.
Context {K : Constants}.
Import RealOrbit.

(** On a bound orbit every local of the supernova arithmetic up to the
    post-supernova eccentricity is the finite number that real arithmetic
    gives; only the post-supernova semi-major axis divides by a quantity
    that may vanish. *)
Lemma SN_kinematics_reals (i : input) :
  bound_orbit i -> G i = G_SN ->
  SN_kinematics_at i =
  SN.mkLocals (Fin (e i)) (inj (R_ i)) (Fin (r i)) (inj (V i)) (Fin (v i))
    (inj (H i)) (Fin (h i)) (inj (E i)) (inj (natalKickVector i))
    (Fin (m1_ i)) (Fin (m2_ i)) (Fin (mb_ i)) (inj (Vcm_ i)) (inj (V_ i))
    (inj (H_ i)) (Fin (h_ i)) (inj (E_ i)) (Fin (e_ i))
    (Fin (h_ i * h_ i) / Fin (G i * mb_ i * (1 - e_ i * e_ i)))%D.
Proof.
  intros Hb HG. unfold SN_kinematics_at. cbv beta delta [SN_kinematics]. rewrite <- HG.
  pose proof (r_pos i Hb) as Hr. pose proof (v_pos i Hb) as Hv.
  pose proof (h_pos i Hb) as Hh. pose proof (k_pos i Hb) as Hk.
  pose proof (omega_pos i Hb) as Hom.
  destruct (masses_nonzero i Hb) as (Hg1 & Hg2 & Hg3 & Hg4).
  destruct Hb as (HGpos & Ha & He & H1 & H2 & Hmb).
  assert (Hsq : Double.sqrt (Fin 1 - Fin (e i) * Fin (e i))
                = Fin (sqrt (1 - e i * e i))).
  { dfold. apply sqrt_Fin. nra. }
  step_as G0 (Fin (G i)) by reflexivity.
  step_as mb (Fin (m1 i + m2 i)) by reflexivity.
  step_as cosEA (Fin (cos (EA i))) by reflexivity.
  step_as sinEA (Fin (sin (EA i))) by reflexivity.
  step_as om (Fin (omega i)) by
    (dfold; rewrite div_Fin by nonzero; apply sqrt_Fin; unfold omega in Hom;
     left; apply Rdiv_lt_0_compat; [nra | repeat apply Rmult_lt_0_compat; lra]).
  step_as R0 (inj (R_ i)) by (rewrite Hsq; reflexivity).
  step_as r0 (Fin (r i)) by (apply inj_Magnitude).
  step_as V0 (inj (V i)) by
    (rewrite Hsq; dfold; rewrite !div_Fin by lra; reflexivity).
  step_as v0 (Fin (v i)) by (apply inj_Magnitude).
  step_as H0 (inj (H i)) by (apply inj_cross).
  step_as h0 (Fin (h i)) by (apply inj_Magnitude).
  step_as E0 (inj (E i)) by
    (rewrite inj_cross; dfold; rewrite !inj_divide by (assumption || lra);
     apply inj_sub).
  step_as beta (Fin (PI - angle (R_ i) (V i))) by
    (rewrite inj_angleBetween by assumption; reflexivity).
  step_as newPhi0 (Fin (newPhi i)) by reflexivity.
  step_as nk (inj (natalKickVector i)) by reflexivity.
  step_as dV1 (inj (natalKickVector i)) by reflexivity.
  step_as dV2 (inj (0, 0, 0)) by reflexivity.
  step_as mb_0 (Fin (mb_ i)) by reflexivity.
  step_as dm1 (Fin (m1 i - m1_ i)) by reflexivity.
  step_as dm2 (Fin (m2 i - m2_ i)) by reflexivity.
  step_as Vcm_0 (inj (Vcm_ i)) by
    (dfold; rewrite !div_Fin by assumption; dfold;
     rewrite !inj_scale, !inj_add; reflexivity).
  step_as V_0 (inj (V_ i)) by (rewrite inj_sub, inj_add; reflexivity).
  step_as H_0 (inj (H_ i)) by (apply inj_cross).
  step_as h_0 (Fin (h_ i)) by (apply inj_Magnitude).
  step_as E_0 (inj (E_ i)) by
    (rewrite inj_cross; dfold; rewrite !inj_divide by (assumption || lra);
     apply inj_sub).
  step_as e_0 (Fin (e_ i)) by (apply inj_Magnitude).
  reflexivity.
Qed.
End KinematicsReals.

(** ** Supernova: the state *)

Section SupernovaState.
Context {cfg : CompareConfig} {K : Constants} {Opt : Options}
        {SI : StarInterface} {RI : RandomInterface} {Hd : Header}.

Lemma bools_UpdateSystemicVelocity (u : Vector3d) (s : BaseBinaryStar) :
  bools (UpdateSystemicVelocity u s) = bools s.
Proof. reflexivity. Qed.

Lemma bools_SN_preamble (s : BaseBinaryStar) : bools (SN_preamble s) = bools s.
Proof. unfold SN_preamble. cbv zeta. rewrite bools_call. reflexivity. Qed.

Lemma bools_SN_orbit (theta : double) (s : BaseBinaryStar) :
  bools (snd (SN_orbit theta s)) = bools s.
Proof.
  unfold SN_orbit. cbv zeta. cbn [snd].
  rewrite !bools_set_double, bools_call. reflexivity.
Qed.

Ltac bools_simpl :=
  repeat first
    [ rewrite bools_call | rewrite bools_set_double
    | rewrite bools_UpdateSystemicVelocity ].

Ltac split_branches :=
  repeat match goal with
  | |- context [let '(_, _) := draw ?w in _] => destruct (draw w)
  | |- context [if ?c then _ else _] => destruct c
  end.

(** The branch for a binary that has become unbound sets the flag. *)
Lemma SN_unbound_flag (l : SN.locals) (s : BaseBinaryStar) (w : World) :
  bools (fst (SN_unbound l s w)) m_Unbound = true.
Proof.
  unfold SN_unbound. cbv zeta. split_branches. cbn [fst].
  rewrite !bools_set_double, !bools_call. reflexivity.
Qed.

(** The branch for a binary that is still bound leaves every flag alone and
    sets [m_ThetaE] to the angle between the two angular momenta. *)
Lemma SN_bound_flags (l : SN.locals) (s : BaseBinaryStar) (w : World) :
  bools (fst (SN_bound l s w)) = bools s.
Proof.
  unfold SN_bound. cbv zeta. split_branches; cbn [fst];
    rewrite !bools_set_double, !bools_call; reflexivity.
Qed.

Lemma SN_bound_ThetaE (l : SN.locals) (s : BaseBinaryStar) (w : World) :
  (fst (SN_bound l s w)).[m_ThetaE]
  = linalg.angleBetween (SN.H l /v SN.h l) (SN.H_ l /v SN.h_ l).
Proof.
  unfold SN_bound. cbv zeta. split_branches; cbn [fst]; reflexivity.
Qed.

(** [ResolveSupernova] for a supernova in a binary that is intact: the
    post-supernova eccentricity [e_] is recorded, and the comparison of [e_]
    with 1 decides the branch. *)
Lemma ResolveSupernova_intact (s : BaseBinaryStar) (w : World) :
  IsSNevent (star (m_Supernova s) s) = true ->
  IsUnbound (SN_preamble s) = false ->
  let s1 := SN_preamble s in
  let l := fst (SN_orbit (SN_Theta (star (m_Supernova s1) s1)) s1) in
  let s' := snd (fst (ResolveSupernova s w)) in
  fst (fst (ResolveSupernova s w)) = true
  /\ s'.[m_Eccentricity] = SN.e_ l
  /\ ((utils.Compare (SN.e_ l) (Fin 1) >=? 0)%Z = true ->
      bools s' m_Unbound = true)
  /\ ((utils.Compare (SN.e_ l) (Fin 1) >=? 0)%Z = false ->
      bools s' m_Unbound = bools s m_Unbound
      /\ s'.[m_ThetaE]
         = linalg.angleBetween (SN.H l /v SN.h l) (SN.H_ l /v SN.h_ l)).
Proof.
  intros Hsn Hunb. cbv zeta.
  remember (ResolveSupernova s w) as res eqn:Hres. revert Hres.
  unfold ResolveSupernova. rewrite Hsn. cbn [negb]. cbv zeta. rewrite Hunb.
  pose proof (bools_SN_orbit
                (SN_Theta (star (m_Supernova (SN_preamble s)) (SN_preamble s)))
                (SN_preamble s)) as Hb.
  rewrite bools_SN_preamble in Hb.
  destruct (SN_orbit _ (SN_preamble s)) as [l s2]. cbn [fst snd] in *.
  destruct (utils.Compare (SN.e_ l) (Fin 1) >=? 0)%Z.
  - pose proof (SN_unbound_flag l
       (UpdateSystemicVelocity
          (Vec.RotateVector (SN.Vcm_ l) s2.[m_ThetaE] s2.[m_PhiE] s2.[m_PsiE]) s2)
       w) as Hf.
    destruct (SN_unbound l _ w) as [s3 w3]. cbn [fst] in Hf.
    intros ->. cbn [fst snd].
    split; [reflexivity|]. split; [|split; [|discriminate]].
    + repeat first [rewrite doubles_call | progress cbn]. reflexivity.
    + intros _. bools_simpl. exact Hf.
  - pose proof (SN_bound_flags l
       (UpdateSystemicVelocity
          (Vec.RotateVector (SN.Vcm_ l) s2.[m_ThetaE] s2.[m_PhiE] s2.[m_PsiE]) s2)
       w) as Hf.
    pose proof (SN_bound_ThetaE l
       (UpdateSystemicVelocity
          (Vec.RotateVector (SN.Vcm_ l) s2.[m_ThetaE] s2.[m_PhiE] s2.[m_PsiE]) s2)
       w) as Ht.
    destruct (SN_bound l _ w) as [s3 w3]. cbn [fst] in Hf, Ht.
    intros ->. cbn [fst snd].
    split; [reflexivity|]. split; [|split; [discriminate|intros _; split]].
    + repeat first [rewrite doubles_call | progress cbn]. reflexivity.
    + bools_simpl. rewrite Hf. bools_simpl. rewrite Hb. reflexivity.
    + repeat first [rewrite doubles_call | progress cbn]. exact Ht.
Qed.

End SupernovaState.

(** ** Supernova: the outcome of the arithmetic *)

Section KinematicsOutcome.
Context {K : Constants}.
Import RealOrbit.

Lemma norm_nonneg (u : vec) : 0 <= norm u.
Proof. destruct u as [[x y] z]. apply sqrt_pos. Qed.

Lemma norm_divide_pos (u : vec) (k : R) :
  k <> 0 -> 0 < norm u -> 0 < norm (divide u k).
Proof.
  destruct u as [[x y] z]. cbn [norm divide]. intros Hk Hu.
  assert (Hs : 0 < x * x + y * y + z * z).
  { destruct (Rlt_le_dec 0 (x * x + y * y + z * z)) as [Hlt | Hle];
      [assumption|].
    rewrite sqrt_neg_0 in Hu by assumption. lra. }
  apply sqrt_lt_R0.
  replace (x / k * (x / k) + y / k * (y / k) + z / k * (z / k))
    with ((x * x + y * y + z * z) * (/ k * / k)) by (field; assumption).
  apply Rmult_lt_0_compat; [assumption|].
  pose proof (Rinv_neq_0_compat k Hk) as Hik.
  pose proof (Rsqr_pos_lt (/ k) Hik) as Hsq. unfold Rsqr in Hsq. exact Hsq.
Qed.

Lemma angle_range (u w : vec) : 0 <= angle u w <= PI.
Proof. apply acos_bound. Qed.

Variable i : input.
Hypothesis Hbound : bound_orbit i.
Hypothesis HG : G i = G_SN.

(** An orbit that is still an ellipse after the supernova has angular
    momentum. *)
Lemma bound_angular_momentum : e_ i < 1 -> 0 < h_ i.
Proof.
  intros He. destruct (norm_nonneg (H_ i)) as [Hlt | Heq]; [exact Hlt|].
  pose proof (radial_orbit_eccentricity i Hbound (eq_sym Heq)). lra.
Qed.

(** The Euler angle [ThetaE] of an orbit that stays bound is a finite
    number between 0 and pi. *)
Lemma SN_ThetaE_range :
  e_ i < 1 ->
  let l := SN_kinematics_at i in
  exists t : R,
    linalg.angleBetween (SN.H l /v SN.h l) (SN.H_ l /v SN.h_ l) = Fin t
    /\ 0 <= t <= PI.
Proof.
  intros He. cbv zeta. rewrite (SN_kinematics_reals i Hbound HG).
  cbn [SN.H SN.h SN.H_ SN.h_].
  pose proof (h_pos i Hbound) as Hh. pose proof (bound_angular_momentum He) as Hh_.
  rewrite !inj_divide by lra.
  exists (angle (divide (H i) (h i)) (divide (H_ i) (h_ i))).
  split; [|apply angle_range].
  apply inj_angleBetween; apply norm_divide_pos; try lra; assumption.
Qed.

(** The asymptotic velocities of an orbit that has become unbound are
    finite when the post-supernova orbit has angular momentum. *)
Lemma SN_unbound_velocities :
  1 <= e_ i -> h_ i <> 0 ->
  let l := SN_kinematics_at i in
  Vec.is_finite (SN.Vcm_ l) /\ Vec.is_finite (SN_Vinf l)
  /\ Vec.is_finite (SN_V1inf l) /\ Vec.is_finite (SN_V2inf l).
Proof.
  intros He Hh. cbv zeta.
  destruct (masses_nonzero i Hbound) as (_ & _ & _ & Hmb).
  assert (Hinf : exists u : vec, SN_Vinf (SN_kinematics_at i) = inj u).
  { unfold SN_Vinf, SN_vinf. rewrite (SN_kinematics_reals i Hbound HG).
    cbn [SN.mb_ SN.h_ SN.e_ SN.E_ SN.H_]. rewrite <- HG.
    rewrite !inj_Magnitude.
    change (norm (E_ i)) with (e_ i). change (norm (H_ i)) with (h_ i).
    rewrite !inj_divide by lra. rewrite inj_cross. dfold.
    assert (Hee : e_ i * e_ i <> 0) by nra.
    rewrite !div_Fin by (assumption || lra). dfold.
    rewrite !sqrt_Fin.
    - dfold. rewrite !inj_scale, inj_add, inj_scale. eexists. reflexivity.
    - assert (Hinv : 1 / (e_ i * e_ i) <= 1).
      { unfold Rdiv. rewrite Rmult_1_l.
        pose proof (Rinv_le_contravar 1 (e_ i * e_ i) Rlt_0_1) as Hc.
        rewrite Rinv_1 in Hc. apply Hc. nra. }
      lra.
    - nra. }
  destruct Hinf as [u Hu].
  unfold SN_V1inf, SN_V2inf. rewrite Hu.
  rewrite (SN_kinematics_reals i Hbound HG). cbn [SN.Vcm_ SN.m1_ SN.m2_ SN.mb_].
  rewrite !div_Fin by assumption. dfold.
  rewrite !inj_scale, !inj_add.
  repeat split; apply inj_finite.
Qed.

(** A post-supernova orbit without angular momentum: the eccentricity is 1,
    the speed at infinity divides by zero, and neither the relative nor the
    component velocities at infinity are numbers. *)
Lemma SN_radial_velocities :
  h_ i = 0 ->
  let l := SN_kinematics_at i in
  SN.e_ l = Fin 1
  /\ SN_Vinf l = mkVector3d NaN NaN NaN
  /\ SN_V1inf l = mkVector3d NaN NaN NaN
  /\ SN_V2inf l = mkVector3d NaN NaN NaN.
Proof.
  intros Hh. cbv zeta.
  destruct (masses_nonzero i Hbound) as (_ & _ & _ & Hmb).
  assert (Hinf : SN_Vinf (SN_kinematics_at i) = mkVector3d NaN NaN NaN).
  { unfold SN_Vinf, SN_vinf. rewrite (SN_kinematics_reals i Hbound HG).
    cbn [SN.mb_ SN.h_ SN.e_ SN.E_ SN.H_]. rewrite Hh.
    rewrite div_by_zero. reflexivity. }
  unfold SN_V1inf, SN_V2inf. rewrite Hinf.
  rewrite (SN_kinematics_reals i Hbound HG). cbn [SN.Vcm_ SN.m1_ SN.m2_ SN.mb_ SN.e_].
  rewrite (radial_orbit_eccentricity i Hbound Hh).
  rewrite !div_Fin by assumption. dfold.
  destruct (Vcm_ i) as [[x y] z].
  repeat split; reflexivity.
Qed.

End KinematicsOutcome.

Lemma triple_eq (x y z x' y' z' : R) :
  x = x' -> y = y' -> z = z' -> (x, y, z) = (x', y', z').
Proof. intros -> -> ->. reflexivity. Qed.

Section RadialKick.
Import RealOrbit.
Variable i : input.
Hypothesis Hbound : bound_orbit i.
Hypothesis He : e i = 0.
Hypothesis HEA : EA i = 0.
Hypothesis Hpsi : psi i = 0.
Hypothesis Htheta : theta i = 0.
Hypothesis Hphi : phi i = PI.
Hypothesis Hvk : vk i = omega i * a i.

Lemma circular_position : R_ i = (a i, 0, 0) /\ r i = a i.
Proof.
  destruct Hbound as (_ & Ha & _).
  assert (HR : R_ i = (a i, 0, 0)).
  { unfold R_. rewrite He, HEA, cos_0, sin_0. apply triple_eq; ring. }
  split; [exact HR|].
  unfold r. rewrite HR. cbn [norm].
  replace (a i * a i + 0 * 0 + 0 * 0) with (Rsqr (a i)) by (unfold Rsqr; ring).
  apply sqrt_Rsqr. lra.
Qed.

Lemma circular_velocity : V i = (0, omega i * a i, 0).
Proof.
  destruct Hbound as (_ & Ha & _).
  destruct circular_position as [_ Hr].
  unfold V. rewrite Hr, He, HEA, cos_0, sin_0.
  replace (1 - 0 * 0) with 1 by ring. rewrite sqrt_1.
  apply triple_eq; [ring | field; lra | reflexivity].
Qed.

Lemma radial_kick_direction : newPhi i = 3 * (PI / 2).
Proof.
  destruct circular_position as [HR _].
  unfold newPhi, angle. rewrite HR, circular_velocity. cbn [dot].
  replace (0 + a i * 0 + 0 * (omega i * a i) + 0 * 0) with 0 by ring.
  unfold Rdiv at 1. rewrite Rmult_0_l, acos_0, Hphi, Hpsi. field.
Qed.

(** A kick that cancels the orbital velocity leaves the stars without
    relative velocity and the orbit without angular momentum. *)
Lemma radial_kick_angular_momentum : h_ i = 0.
Proof.
  destruct circular_position as [HR _].
  assert (HV_ : V_ i = (0, 0, 0)).
  { unfold V_, natalKickVector. rewrite circular_velocity.
    rewrite radial_kick_direction, cos_3PI2, sin_3PI2, Htheta, cos_0, sin_0, Hvk.
    cbn [scale sub add]. apply triple_eq; ring. }
  unfold h_, H_. rewrite HR, HV_. cbn [cross norm].
  match goal with
  | |- sqrt ?t = 0 => replace t with 0 by ring
  end.
  apply sqrt_0.
Qed.

End RadialKick.

Section SupernovaStar.
Context {cfg : CompareConfig} {K : Constants} {Opt : Options}
        {SI : StarInterface} {RI : RandomInterface} {Hd : Header}.

Lemma m_Supernova_call (p : StarRef)
    (f : BinaryConstituentStar -> BinaryConstituentStar) (s : BaseBinaryStar) :
  m_Supernova (call p f s) = m_Supernova s.
Proof. destruct p; reflexivity. Qed.

Lemma m_Companion_call (p : StarRef)
    (f : BinaryConstituentStar -> BinaryConstituentStar) (s : BaseBinaryStar) :
  m_Companion (call p f s) = m_Companion s.
Proof. destruct p; reflexivity. Qed.

Lemma m_Star1_call_Star1
    (f : BinaryConstituentStar -> BinaryConstituentStar) (s : BaseBinaryStar) :
  m_Star1 (call Star1 f s) = f (m_Star1 s).
Proof. reflexivity. Qed.

Lemma m_Star1_call_Star2
    (f : BinaryConstituentStar -> BinaryConstituentStar) (s : BaseBinaryStar) :
  m_Star1 (call Star2 f s) = m_Star1 s.
Proof. reflexivity. Qed.

Ltac pointers :=
  repeat first
    [ rewrite m_Supernova_call | rewrite m_Companion_call
    | rewrite m_Star1_call_Star1 | rewrite m_Star1_call_Star2
    | rewrite doubles_call
    | progress cbn [m_Supernova m_Companion m_Star1 set_double set_bool
                    UpdateSystemicVelocity set_SystemicVelocity doubles] ].

Ltac pointers_with H1 H2 :=
  repeat first
    [ rewrite H1 | rewrite H2
    | rewrite m_Supernova_call | rewrite m_Companion_call
    | rewrite m_Star1_call_Star1 | rewrite m_Star1_call_Star2
    | rewrite doubles_call
    | progress cbn [m_Supernova m_Companion m_Star1 set_double set_bool
                    UpdateSystemicVelocity set_SystemicVelocity doubles star] ].

(** The branch for a binary that has become unbound, when the exploding star
    is star 1 and the companion star 2: star 1 receives the rotated velocity
    at infinity, and the pointers are left alone. *)
Lemma SN_unbound_star (l : SN.locals) (s : BaseBinaryStar) (w : World) :
  m_Supernova s = Star1 -> m_Companion s = Star2 ->
  m_Star1 (fst (SN_unbound l s w))
  = UpdateComponentVelocity
      (Vec.RotateVector (SN_V1inf l) s.[m_ThetaE] s.[m_PhiE] s.[m_PsiE])
      (m_Star1 s)
  /\ m_Supernova (fst (SN_unbound l s w)) = Star1
  /\ m_Companion (fst (SN_unbound l s w)) = Star2.
Proof.
  intros H1 H2. unfold SN_unbound. cbv zeta.
  destruct (draw w) as [u1 w1]. destruct (draw w1) as [u2 w2]. cbn [fst].
  pointers_with H1 H2. repeat split; reflexivity.
Qed.

(** The exploding star after a supernova that unbinds the binary, when the
    exploding star is star 1 and the companion star 2: its component
    velocity has been updated with the rotated velocity at infinity, its
    post-supernova orbital energy set and its supernova event cleared. *)
Lemma ResolveSupernova_unbound_star (s : BaseBinaryStar) (w : World) :
  IsSNevent (star (m_Supernova s) s) = true ->
  IsUnbound (SN_preamble s) = false ->
  m_Supernova s = Star1 -> m_Companion s = Star2 ->
  let s1 := SN_preamble s in
  let l := fst (SN_orbit (SN_Theta (star (m_Supernova s1) s1)) s1) in
  let s2 := snd (SN_orbit (SN_Theta (star (m_Supernova s1) s1)) s1) in
  let s' := snd (fst (ResolveSupernova s w)) in
  (utils.Compare (SN.e_ l) (Fin 1) >=? 0)%Z = true ->
  exists E : double,
    m_Star1 s'
    = ClearCurrentSNEvent
        (SetOrbitalEnergyPostSN E
           (UpdateComponentVelocity
              (Vec.RotateVector (SN_V1inf l)
                 s2.[m_ThetaE] s2.[m_PhiE] s2.[m_PsiE])
              (m_Star1 s2))).
Proof.
  intros Hsn Hunb H1 H2. cbv zeta.
  remember (ResolveSupernova s w) as res eqn:Hres. revert Hres.
  unfold ResolveSupernova. rewrite Hsn. cbn [negb]. cbv zeta. rewrite Hunb.
  assert (Hp1 : m_Supernova (SN_preamble s) = Star1).
  { unfold SN_preamble. cbv zeta. pointers. exact H1. }
  assert (Hp2 : m_Companion (SN_preamble s) = Star2).
  { unfold SN_preamble. cbv zeta. pointers. exact H2. }
  set (s1 := SN_preamble s) in *.
  assert (Ho1 : m_Supernova (snd (SN_orbit (SN_Theta (star (m_Supernova s1) s1)) s1))
                = Star1).
  { unfold SN_orbit. cbv zeta. cbn [snd]. pointers. exact Hp1. }
  assert (Ho2 : m_Companion (snd (SN_orbit (SN_Theta (star (m_Supernova s1) s1)) s1))
                = Star2).
  { unfold SN_orbit. cbv zeta. cbn [snd]. pointers. exact Hp2. }
  destruct (SN_orbit _ s1) as [l s2]. cbn [fst snd] in *.
  intros Hres Hcmp. rewrite Hcmp in Hres.
  destruct (SN_unbound_star l
              (UpdateSystemicVelocity
                 (Vec.RotateVector (SN.Vcm_ l)
                    s2.[m_ThetaE] s2.[m_PhiE] s2.[m_PsiE]) s2) w Ho1 Ho2)
    as (Hst & Hu1 & Hu2).
  destruct (SN_unbound l _ w) as [s4 w4]. cbn [fst] in Hst, Hu1, Hu2.
  rewrite Hres. cbn [fst snd].
  pointers_with Hu1 Hu2. rewrite Hst.
  eexists. reflexivity.
Qed.

End SupernovaStar.

(** ** A supernova whose kick cancels the orbital velocity *)

Section RadialSupernova.

Lemma radial_input_bound : RealOrbit.bound_orbit Example.radial_input.
Proof.
  unfold RealOrbit.bound_orbit, Example.radial_input.
  cbn [RealOrbit.G RealOrbit.a RealOrbit.e RealOrbit.m1 RealOrbit.m2
       RealOrbit.m1_ RealOrbit.m2_].
  repeat split; lra.
Qed.

Lemma radial_input_angular_momentum : RealOrbit.h_ Example.radial_input = 0.
Proof.
  apply radial_kick_angular_momentum;
    [apply radial_input_bound | reflexivity ..].
Qed.

Lemma radial_binary_intact :
  @IsUnbound Example.constants Example.unit_stars
    Example.unit_header
    (@SN_preamble Example.constants Example.unit_stars
       Example.unit_header Example.radial_binary)
  = false.
Proof.
  change ((@utils.Compare Example.compare (Fin 1) (Fin 0) <=? 0)%Z
          || (@utils.Compare Example.compare (Fin 0) (Fin 1) >? 0)%Z = false).
  rewrite !(Compare_exact _ _ Example_compare_exact).
  destruct (Req_dec_T 1 0); [lra|]. destruct (Rlt_dec 1 0); [lra|].
  destruct (Req_dec_T 0 1); [lra|]. destruct (Rlt_dec 0 1); [|lra].
  reflexivity.
Qed.

(** C1.  A circular binary of 1 AU whose exploding star receives, in the
    orbital plane and against its orbital motion, a kick of exactly the
    orbital speed: the binary is intact on entry, the post-supernova
    eccentricity is 1 and the binary is flagged unbound, but the speed at
    infinity divides by the vanishing angular momentum, and the component
    velocity the exploding star is left with is not a number. *)
Theorem ResolveSupernova_radial_kick :
  let s := Example.radial_binary in
  let s' :=
    snd (fst (@ResolveSupernova Example.compare Example.constants
                Example.unit_stars Example.random
                Example.unit_header s (Example.world []))) in
  IsSNevent (star (m_Supernova s) s) = true
  /\ bools s m_Unbound = false
  /\ s'.[m_Eccentricity] = Fin 1
  /\ bools s' m_Unbound = true
  /\ Example.x_ComponentVelocity (m_Star1 s') = mkVector3d NaN NaN NaN
  /\ ~ Vec.is_finite (Example.x_ComponentVelocity (m_Star1 s')).
Proof.
  cbv zeta.
  assert (Hsn : IsSNevent (star (m_Supernova Example.radial_binary)
                             Example.radial_binary) = true) by reflexivity.
  pose proof (@SN_radial_velocities Example.constants
                Example.radial_input radial_input_bound
                eq_refl radial_input_angular_momentum) as Hrad.
  cbv zeta in Hrad. destruct Hrad as (He & _ & HV1 & _).
  pose proof (@ResolveSupernova_intact Example.compare Example.constants
                Example.unit_stars Example.random
                Example.unit_header Example.radial_binary
                (Example.world []) Hsn radial_binary_intact) as Hint.
  pose proof (@ResolveSupernova_unbound_star Example.compare Example.constants
                Example.unit_stars Example.random
                Example.unit_header Example.radial_binary
                (Example.world []) Hsn radial_binary_intact eq_refl eq_refl)
    as Hstar.
  cbv zeta in Hint, Hstar.
  change (fst (SN_orbit _ _))
    with (@SN_kinematics_at Example.constants Example.radial_input)
    in Hint, Hstar.
  rewrite He in Hint, Hstar.
  assert (Hcmp : (@utils.Compare Example.compare (Fin 1) (Fin 1) >=? 0)%Z = true).
  { apply (Compare_exact_ge _ _ Example_compare_exact). lra. }
  destruct Hint as (_ & Hecc & Hunb & _).
  destruct (Hstar Hcmp) as [E HE]. rewrite HV1 in HE.
  assert (Hvel : Example.x_ComponentVelocity
                   (m_Star1
                      (snd (fst (@ResolveSupernova Example.compare
                                   Example.constants
                                   Example.unit_stars Example.random
                                   Example.unit_header
                                   Example.radial_binary (Example.world [])))))
                 = mkVector3d NaN NaN NaN).
  { rewrite HE. reflexivity. }
  repeat split; try assumption; try reflexivity.
  - apply Hunb. exact Hcmp.
  - rewrite Hvel. intros (Hx & _). destruct Hx as [x Hx]. discriminate.
Qed.

End RadialSupernova.

(** ** Supernova: intact binaries away from the radial case *)

Section SupernovaOutcome.
Context {cfg : CompareConfig} {K : Constants}
        {SI : StarInterface} {RI : RandomInterface} {Hd : Header}.
Import RealOrbit.

(** A supernova in an intact binary whose arithmetic starts from the finite
    numbers [i] of a bound orbit, under an exact comparison.  The
    eccentricity recorded is the real number [e_ i].  If it is at least 1 the
    binary is flagged unbound, the centre-of-mass velocity is finite, and the
    velocities at infinity are finite provided the post-supernova angular
    momentum does not vanish.  If it is below 1 the flag is left as it was
    and [m_ThetaE] is a number between 0 and pi. *)
Lemma ResolveSupernova_outcome (s : BaseBinaryStar) (w : World) (i : input) :
  exact_compare cfg ->
  IsSNevent (star (m_Supernova s) s) = true ->
  IsUnbound (SN_preamble s) = false ->
  bound_orbit i -> G i = G_SN ->
  fst (SN_orbit (SN_Theta (star (m_Supernova (SN_preamble s)) (SN_preamble s)))
         (SN_preamble s))
  = SN_kinematics_at i ->
  let l := SN_kinematics_at i in
  let s' := snd (fst (ResolveSupernova s w)) in
  s'.[m_Eccentricity] = Fin (e_ i)
  /\ (1 <= e_ i ->
      bools s' m_Unbound = true
      /\ Vec.is_finite (SN.Vcm_ l)
      /\ (h_ i <> 0 ->
          Vec.is_finite (SN_Vinf l) /\ Vec.is_finite (SN_V1inf l)
          /\ Vec.is_finite (SN_V2inf l)))
  /\ (e_ i < 1 ->
      bools s' m_Unbound = bools s m_Unbound
      /\ exists t : R, s'.[m_ThetaE] = Fin t /\ 0 <= t <= PI).
Proof.
  intros Hx Hsn Hunb Hb HG Hl. cbv zeta.
  pose proof (ResolveSupernova_intact s w Hsn Hunb) as Hint.
  cbv zeta in Hint. rewrite Hl in Hint.
  assert (He : SN.e_ (SN_kinematics_at i) = Fin (e_ i)).
  { rewrite (SN_kinematics_reals i Hb HG). reflexivity. }
  rewrite He in Hint. destruct Hint as (_ & Hecc & Hge & Hlt).
  split; [exact Hecc|]. split.
  - intros H1. split; [|split].
    + apply Hge. apply (Compare_exact_ge _ _ Hx). exact H1.
    + rewrite (SN_kinematics_reals i Hb HG). apply inj_finite.
    + intros Hh. apply (SN_unbound_velocities i Hb HG H1 Hh).
  - intros H1.
    assert (Hc : (utils.Compare (Fin (e_ i)) (Fin 1) >=? 0)%Z = false).
    { destruct (utils.Compare (Fin (e_ i)) (Fin 1) >=? 0)%Z eqn:Hc;
        [|reflexivity].
      apply (Compare_exact_ge _ _ Hx) in Hc. lra. }
    destruct (Hlt Hc) as [Hflag Ht]. split; [exact Hflag|].
    rewrite Ht. apply (SN_ThetaE_range i Hb HG H1).
Qed.

End SupernovaOutcome.

(** ** Scenarios *)

Section Scenarios.

(** Masses 1 and 2 scaled by 3. *)
Lemma RocheLobe_mass_ratio_only_witness :
  0 < 1 /\ 0 < 2 /\ 0 < 3
  /\ CalculateRocheLobeRadius_Static (Fin 3 * Fin 1)%D (Fin 3 * Fin 2)%D
     = CalculateRocheLobeRadius_Static (Fin 1) (Fin 2)
  /\ Double.is_finite (CalculateRocheLobeRadius_Static (Fin 1) (Fin 2)).
Proof.
  split; [lra|]. split; [lra|]. split; [lra|].
  destruct (RocheLobe_mass_ratio_only 1 2 3) as (H1 & H2 & _); try lra.
  split; assumption.
Defined.

(** Two stars of one kilogram, one metre apart on a circular orbit. *)
Lemma TimeToCoalescence_circular_witness :
  @C Example.constants <> 0
  /\ @G Example.constants * 1 * 1 * (1 + 1) <> 0
  /\ @CalculateTimeToCoalescence Example.compare Example.constants
       (Fin 1) (Fin 0) (Fin 1) (Fin 1)
     = Fin (1 ^ 4
            / (4 * (64 / 5 * @G Example.constants ^ 3 * 1 * 1 * (1 + 1)
                    / @C Example.constants ^ 5))).
Proof.
  assert (HC : @C Example.constants <> 0).
  { cbn [C Example.constants]. lra. }
  assert (HGm : @G Example.constants * 1 * 1 * (1 + 1) <> 0).
  { cbn [G Example.constants]. lra. }
  split; [exact HC|]. split; [exact HGm|].
  destruct (@TimeToCoalescence_circular Example.compare Example.constants
              (Fin 1) (Fin 1) (Fin 1)) as (_ & _ & H).
  apply (H 1 1 1 eq_refl eq_refl eq_refl HC HGm).
Defined.

(** The giant and its companion: no star is exploding. *)
Lemma ResolveSupernova_improperly_called_witness :
  IsSNevent (star (m_Supernova Example.envelope_binary) Example.envelope_binary)
  = false
  /\ @ResolveSupernova Example.compare Example.constants Example.unit_stars
       Example.random Example.unit_header Example.envelope_binary (Example.world [])
     = (false, Example.envelope_binary,
        mkWorld Example.random []
          [SHOW_WARN ERROR.RESOLVE_SUPERNOVA_IMPROPERLY_CALLED]).
Proof.
  split; [reflexivity|].
  apply (@ResolveSupernova_improperly_called Example.compare Example.constants
           Example.unit_stars Example.random Example.unit_header). reflexivity.
Defined.

(** The giant and its companion after [ResolveCoalescence]. *)
Lemma ResolveCoalescence_flags_agree_witness :
  let s' :=
    fst (@ResolveCoalescence Example.compare Example.constants
           Example.unit_stars Example.random Example.envelope_binary
           (Example.world [])) in
  bools s' m_Merged = bools s' m_MergesInHubbleTime.
Proof.
  pose proof (@ResolveCoalescence_flags_agree Example.compare
                Example.constants Example.unit_stars Example.random
                Example.envelope_binary (Example.world [])) as H.
  cbv zeta in H. exact (proj1 H).
Defined.



End Scenarios.

(** * Further properties of the code *)
(** ** [utils::Compare] *)

Section CompareMore.
Context {cfg : CompareConfig}.

Lemma Rmax_nonneg_l (a b : R) : 0 <= a -> 0 <= Rmax a b.
Proof. intros H. pose proof (Rmax_l a b). lra. Qed.

Lemma Double_max_Fin (a b : R) : Double.max (Fin a) (Fin b) = Fin (Rmax a b).
Proof.
  unfold Double.max, Double.lt, Rmax.
  destruct (Rlt_dec a b), (Rle_dec a b); try reflexivity; try lra.
  f_equal. lra.
Qed.

(** The test of the tolerant comparison on two numbers. *)
Lemma Compare_tolerant (a b : R) :
  COMPARE_WITH_TOLERANCE = true ->
  utils.Compare (Fin a) (Fin b)
  = if Rle_dec (Rabs (a - b))
         (Rmax FLOAT_TOLERANCE_ABSOLUTE
            (FLOAT_TOLERANCE_RELATIVE * Rmax (Rabs a) (Rabs b)))
    then 0%Z else if Rlt_dec a b then (-1)%Z else 1%Z.
Proof.
  intros Ht. unfold utils.Compare. rewrite Ht.
  cbn [Double.fabs Double.lift1 Double.sub Double.lift2].
  rewrite Double_max_Fin. cbn [Double.mul Double.lift2].
  rewrite Double_max_Fin. unfold Double.le, Double.lt.
  destruct (Rle_dec _ _), (Rlt_dec a b); reflexivity.
Qed.

(** X1.  On numbers the comparison is reflexive and antisymmetric:
    [Compare(x, x) = 0] and [Compare(y, x) = - Compare(x, y)], provided the
    absolute tolerance is not negative when tolerances are compiled in.
    Not so with a NaN: a comparison with a NaN on either side returns 1,
    with or without tolerance, so that both [Compare(NaN, y)] and
    [Compare(x, NaN)] read "greater". *)
Theorem Compare_antisymmetric (a b : R) :
  (COMPARE_WITH_TOLERANCE = true -> 0 <= FLOAT_TOLERANCE_ABSOLUTE) ->
  utils.Compare (Fin a) (Fin a) = 0%Z
  /\ utils.Compare (Fin b) (Fin a) = (- utils.Compare (Fin a) (Fin b))%Z
  /\ (forall x : double,
        utils.Compare NaN x = 1%Z /\ utils.Compare x NaN = 1%Z).
Proof.
  intros Htol.
  assert (Hnan : forall x : double,
             utils.Compare NaN x = 1%Z /\ utils.Compare x NaN = 1%Z)
    by (intros x; split; [apply Compare_NaN_l | apply Compare_NaN_r]).
  cut (utils.Compare (Fin a) (Fin a) = 0%Z
       /\ utils.Compare (Fin b) (Fin a) = (- utils.Compare (Fin a) (Fin b))%Z).
  { intros [H1 H2]. repeat split; try assumption; apply Hnan. }
  clear Hnan.
  destruct COMPARE_WITH_TOLERANCE eqn:Hc.
  - specialize (Htol eq_refl).
    rewrite !(Compare_tolerant _ _ Hc).
    rewrite (Rabs_minus_sym b a), (Rmax_comm (Rabs b) (Rabs a)).
    rewrite Rminus_diag, Rabs_R0.
    set (t := Rmax _ (_ * Rmax (Rabs a) (Rabs b))).
    destruct (Rle_dec 0 (Rmax FLOAT_TOLERANCE_ABSOLUTE
                           (FLOAT_TOLERANCE_RELATIVE * Rmax (Rabs a) (Rabs a))))
      as [_ | Hn]; [|exfalso; apply Hn; apply Rmax_nonneg_l; exact Htol].
    split; [reflexivity|].
    destruct (Rle_dec (Rabs (a - b)) t) as [_ | Hn]; [reflexivity|].
    assert (Hne : a <> b).
    { intros ->. apply Hn. rewrite Rminus_diag, Rabs_R0.
      apply Rmax_nonneg_l. exact Htol. }
    destruct (Rlt_dec b a), (Rlt_dec a b); try reflexivity; lra.
  - assert (Hx : exact_compare cfg) by (left; exact Hc).
    rewrite !(Compare_exact _ _ Hx).
    destruct (Req_dec_T a a); [|lra]. split; [reflexivity|].
    destruct (Req_dec_T b a), (Req_dec_T a b), (Rlt_dec b a), (Rlt_dec a b);
      try reflexivity; lra.
Qed.

End CompareMore.

(** ** [utils::intPow] *)

Lemma intPow_loop_Fin (k : nat) (b r : R) :
  utils.intPow_loop k (Fin b) (Fin r) = Fin (r * b ^ k).
Proof.
  revert r. induction k as [|k IH]; intros r; simpl.
  - f_equal. ring.
  - change (Fin r * Fin b)%D with (Fin (r * b)). rewrite IH. f_equal. ring.
Qed.

(** X3.  [intPow] computes the integral power: for an exponent above the
    least [int] (where [abs] is defined) and a base that is a number, the
    exponent being not negative or the base other than zero, the result is
    [base ^ exponent] ([powerRZ]).  The exponent 0 gives 1 for every base,
    NaN included. *)
Theorem intPow_powerRZ (b : R) (n : Z) :
  (- 2 ^ 31 < n < 2 ^ 31)%Z ->
  b <> 0 \/ (0 <= n)%Z ->
  utils.intPow (Fin b) n = Fin (powerRZ b n)
  /\ (forall x : double, utils.intPow x 0 = Fin 1).
Proof.
  intros _ Hdom. split.
  - unfold utils.intPow. destruct n as [|p|p].
    + reflexivity.
    + cbn [Z.eqb Z.ltb Z.compare Z.abs]. rewrite intPow_loop_Fin.
      rewrite Z2Nat.inj_pos. simpl powerRZ. f_equal. ring.
    + destruct Hdom as [Hb | Hn]; [|lia].
      cbn [Z.eqb Z.ltb Z.compare Z.abs]. rewrite intPow_loop_Fin.
      rewrite Z2Nat.inj_pos. simpl powerRZ.
      rewrite div_Fin.
      * f_equal. rewrite Rmult_1_l. unfold Rdiv. ring.
      * rewrite Rmult_1_l. apply pow_nonzero. exact Hb.
  - intros x. reflexivity.
Qed.

Lemma intPow_powerRZ_witness :
  (- 2 ^ 31 < -3 < 2 ^ 31)%Z
  /\ (2 <> 0 \/ (0 <= -3)%Z)
  /\ utils.intPow (Fin 2) (-3) = Fin (powerRZ 2 (-3)).
Proof.
  assert (Hr : (- 2 ^ 31 < -3 < 2 ^ 31)%Z) by lia.
  assert (H : 2 <> 0 \/ (0 <= -3)%Z) by (left; lra).
  split; [exact Hr|]. split; [exact H|].
  exact (proj1 (intPow_powerRZ 2 (-3) Hr H)).
Defined.

(** ** [utils::SolveQuadratic] *)

Lemma quadratic_roots (a b c s x : R) :
  a <> 0 -> s * s = b * b - 4 * a * c ->
  a * x * x + b * x + c = 0 ->
  x = (- b + s) / (a + a) \/ x = (- b - s) / (a + a).
Proof.
  intros Ha Hs Hx.
  assert (H2 : a + a <> 0) by lra.
  assert (Hp : (2 * a * x + b - s) * (2 * a * x + b + s) = 0) by nra.
  apply Rmult_integral in Hp. destruct Hp as [Hp | Hp]; [left | right];
    apply (Rmult_eq_reg_r (a + a)); try assumption;
    unfold Rdiv; rewrite Rmult_assoc, Rinv_l by assumption; lra.
Qed.

Lemma quadratic_root_ok (a b c s : R) :
  a <> 0 -> s * s = b * b - 4 * a * c ->
  let r := (- b + s) / (a + a) in a * r * r + b * r + c = 0.
Proof.
  intros Ha Hs r.
  assert (H2 : a + a <> 0) by lra.
  assert (Hr : (a + a) * r = - b + s).
  { unfold r, Rdiv. rewrite (Rmult_comm (- b + s)), <- Rmult_assoc.
    rewrite Rinv_r by assumption. ring. }
  apply (Rmult_eq_reg_l (4 * a)); [|lra].
  replace (4 * a * (a * r * r + b * r + c))
    with (((a + a) * r) * ((a + a) * r) + 2 * b * ((a + a) * r) + 4 * a * c)
    by ring.
  rewrite Hr. nra.
Qed.

(** X4.  For a quadratic with a leading coefficient other than zero and a
    discriminant that is not negative, [SolveQuadratic] returns a root, and
    it is the largest one: every real root is at most the value returned.
    Nothing is written to the error stream. *)
Theorem SolveQuadratic_largest_root (a b c : R) :
  a <> 0 -> 0 <= b * b - 4 * a * c ->
  exists r : R,
    utils.SolveQuadratic (Fin a) (Fin b) (Fin c) = (Fin r, false)
    /\ a * r * r + b * r + c = 0
    /\ forall x : R, a * x * x + b * x + c = 0 -> x <= r.
Proof.
  intros Ha Hd.
  assert (H2 : a + a <> 0) by lra.
  unfold utils.SolveQuadratic.
  cbn [Double.mul Double.sub Double.add Double.neg Double.lift1 Double.lift2].
  set (d := b * b - 4 * a * c) in *.
  unfold Double.lt at 1. destruct (Rlt_dec d 0) as [Hneg | _]; [lra|].
  unfold Double.lt at 1. destruct (Rlt_dec 0 d) as [Hpos | Hzero].
  - unfold Double.sqrt. destruct (Rlt_dec d 0) as [Hneg | _]; [lra|].
    cbn [Double.add Double.sub Double.lift2].
    rewrite !div_Fin by assumption.
    set (s := sqrt d).
    assert (Hs : s * s = b * b - 4 * a * c) by (apply sqrt_sqrt; exact Hd).
    assert (Hs' : (- s) * (- s) = b * b - 4 * a * c)
      by (rewrite <- Hs; ring).
    pose proof (quadratic_root_ok a b c s Ha Hs) as Hr1.
    pose proof (quadratic_root_ok a b c (- s) Ha Hs') as Hr2.
    cbv zeta in Hr1, Hr2.
    replace (- b + - s) with (- b - s) in Hr2 by ring.
    rewrite Double_max_Fin.
    exists (Rmax ((- b + s) / (a + a)) ((- b - s) / (a + a))).
    split; [reflexivity|]. split.
    + unfold Rmax. destruct (Rle_dec _ _); assumption.
    + intros x Hx.
      destruct (quadratic_roots a b c s x Ha Hs Hx) as [-> | ->];
        [apply Rmax_l | apply Rmax_r].
  - assert (Hd0 : d = 0) by lra.
    rewrite div_Fin by assumption.
    exists (- b / (a + a)). split; [reflexivity|].
    assert (Hs : 0 * 0 = b * b - 4 * a * c) by (fold d; lra).
    pose proof (quadratic_root_ok a b c 0 Ha Hs) as Hr1. cbv zeta in Hr1.
    replace (- b + 0) with (- b) in Hr1 by ring.
    split; [exact Hr1|].
    intros x Hx.
    destruct (quadratic_roots a b c 0 x Ha Hs Hx) as [-> | ->]; right;
      f_equal; ring.
Qed.

Lemma SolveQuadratic_largest_root_witness :
  1 <> 0 /\ 0 <= (-3) * (-3) - 4 * 1 * 2
  /\ exists r : R,
       utils.SolveQuadratic (Fin 1) (Fin (-3)) (Fin 2) = (Fin r, false)
       /\ 1 * r * r + (-3) * r + 2 = 0
       /\ forall x : R, 1 * x * x + (-3) * x + 2 = 0 -> x <= r.
Proof.
  assert (H1 : 1 <> 0) by lra.
  assert (H2 : 0 <= (-3) * (-3) - 4 * 1 * 2) by lra.
  split; [exact H1|]. split; [exact H2|].
  exact (SolveQuadratic_largest_root 1 (-3) 2 H1 H2).
Defined.

(** X5.  The degenerate cases of [SolveQuadratic].  With a negative
    discriminant it returns 0 and writes the error line.  With both the
    leading and the linear coefficient zero the discriminant is zero, and
    the single root [-B / 2A] is [0 / 0]: NaN is returned without any error,
    whatever the constant term.  A constant term that is NaN makes both tests
    on the discriminant fail, and for a leading coefficient other than zero
    the value [-B / 2A] is returned without any error. *)
Theorem SolveQuadratic_degenerate (a b c : R) :
  (b * b - 4 * a * c < 0 ->
   utils.SolveQuadratic (Fin a) (Fin b) (Fin c) = (Fin 0, true))
  /\ utils.SolveQuadratic (Fin 0) (Fin 0) (Fin c) = (NaN, false)
  /\ (a <> 0 ->
      utils.SolveQuadratic (Fin a) (Fin b) NaN = (Fin (- b / (a + a)), false)).
Proof.
  split; [|split].
  - intros Hd. unfold utils.SolveQuadratic.
    cbn [Double.mul Double.sub Double.lift2].
    unfold Double.lt at 1. destruct (Rlt_dec _ 0); [reflexivity | lra].
  - unfold utils.SolveQuadratic.
    cbn [Double.mul Double.sub Double.add Double.neg Double.lift1 Double.lift2].
    assert (Hz : 0 * 0 - 4 * 0 * c = 0) by ring.
    unfold Double.lt at 1. destruct (Rlt_dec _ 0); [lra|].
    unfold Double.lt at 1. destruct (Rlt_dec 0 _); [lra|].
    replace (0 + 0) with 0 by ring. rewrite div_by_zero. reflexivity.
  - intros Ha. unfold utils.SolveQuadratic.
    cbn [Double.mul Double.sub Double.add Double.neg Double.lift1 Double.lift2
         Double.lt].
    rewrite div_Fin by lra. reflexivity.
Qed.

(** ** Strings of utils.cpp *)

Ltac each_char c :=
  destruct c as [[] [] [] [] [] [] [] []].

Lemma toupper_idempotent (c : Ascii.ascii) :
  utils.toupper (utils.toupper c) = utils.toupper c.
Proof. each_char c; reflexivity. Qed.

Lemma tolower_idempotent (c : Ascii.ascii) :
  utils.tolower (utils.tolower c) = utils.tolower c.
Proof. each_char c; reflexivity. Qed.

Lemma toupper_tolower (c : Ascii.ascii) :
  utils.toupper (utils.tolower c) = utils.toupper c.
Proof. each_char c; reflexivity. Qed.

Lemma tolower_toupper (c : Ascii.ascii) :
  utils.tolower (utils.toupper c) = utils.tolower c.
Proof. each_char c; reflexivity. Qed.

Lemma ToLower_absorbs (s : utils.std_string) :
  utils.ToLower (utils.ToUpper s) = utils.ToLower s
  /\ utils.ToLower (utils.ToLower s) = utils.ToLower s.
Proof.
  unfold utils.ToUpper, utils.ToLower. rewrite !map_map.
  split; apply map_ext; intros c;
    [apply tolower_toupper | apply tolower_idempotent].
Qed.

(** X6.  [ToUpper] and [ToLower] keep the length of the string, applying one
    of them twice changes nothing more, and each erases the effect of the
    other: [ToUpper (ToLower s) = ToUpper s] and
    [ToLower (ToUpper s) = ToLower s]. *)
Theorem ToUpper_ToLower (s : utils.std_string) :
  length (utils.ToUpper s) = length s
  /\ length (utils.ToLower s) = length s
  /\ utils.ToUpper (utils.ToUpper s) = utils.ToUpper s
  /\ utils.ToLower (utils.ToLower s) = utils.ToLower s
  /\ utils.ToUpper (utils.ToLower s) = utils.ToUpper s
  /\ utils.ToLower (utils.ToUpper s) = utils.ToLower s.
Proof.
  unfold utils.ToUpper, utils.ToLower.
  rewrite !length_map, !map_map.
  repeat split; apply map_ext; intros c;
    [ apply toupper_idempotent | apply tolower_idempotent
    | apply toupper_tolower | apply tolower_toupper ].
Qed.

Lemma N_of_ascii_inj (c1 c2 : Ascii.ascii) :
  Ascii.N_of_ascii c1 = Ascii.N_of_ascii c2 -> c1 = c2.
Proof.
  intros H. rewrite <- (Ascii.ascii_N_embedding c1), H.
  apply Ascii.ascii_N_embedding.
Qed.

Lemma strcmp_eq (s1 s2 : utils.std_string) :
  utils.strcmp s1 s2 = 0%Z <-> s1 = s2.
Proof.
  revert s2. induction s1 as [|c1 r1 IH]; intros [|c2 r2]; simpl;
    try (split; [discriminate | discriminate]); [tauto|].
  destruct (N.compare_spec (Ascii.N_of_ascii c1) (Ascii.N_of_ascii c2))
    as [He | Hl | Hg].
  - apply N_of_ascii_inj in He. subst c2. rewrite IH.
    split; [intros ->; reflexivity | intros [= ->]; reflexivity].
  - split; [discriminate | intros [= -> _]; lia].
  - split; [discriminate | intros [= -> _]; lia].
Qed.

Lemma Equals_iff (s t : utils.std_string) :
  utils.Equals s t = true
  <-> utils.c_str (utils.ToLower s) = utils.c_str (utils.ToLower t).
Proof.
  unfold utils.Equals. cbv zeta. rewrite Z.eqb_eq. apply strcmp_eq.
Qed.

(** X7.  [Equals] is an equivalence relation that ignores the case of
    letters: it is reflexive, symmetric and transitive, and a string equals
    its upshifted and its downshifted form. *)
Theorem Equals_equivalence (s t u : utils.std_string) :
  utils.Equals s s = true
  /\ utils.Equals s t = utils.Equals t s
  /\ (utils.Equals s t = true -> utils.Equals t u = true ->
      utils.Equals s u = true)
  /\ utils.Equals (utils.ToUpper s) s = true
  /\ utils.Equals (utils.ToLower s) s = true.
Proof.
  split; [apply Equals_iff; reflexivity|]. split.
  - destruct (utils.Equals s t) eqn:Hst, (utils.Equals t s) eqn:Hts;
      try reflexivity.
    + apply Equals_iff in Hst. symmetry in Hst. apply Equals_iff in Hst.
      congruence.
    + apply Equals_iff in Hts. symmetry in Hts. apply Equals_iff in Hts.
      congruence.
  - split; [|split].
    + intros Hst Htu. apply Equals_iff in Hst, Htu. apply Equals_iff.
      congruence.
    + apply Equals_iff.
      destruct (ToLower_absorbs s) as (-> & _). reflexivity.
    + apply Equals_iff.
      destruct (ToLower_absorbs s) as (_ & ->). reflexivity.
Qed.

Lemma c_str_app_NUL (s x : utils.std_string) :
  utils.c_str (s ++ Ascii.zero :: x) = utils.c_str s.
Proof.
  induction s as [|c r IH]; simpl.
  - reflexivity.
  - destruct (Ascii.eqb c Ascii.zero); [reflexivity | now rewrite IH].
Qed.

Lemma tolower_zero : utils.tolower Ascii.zero = Ascii.zero.
Proof. reflexivity. Qed.

(** X8.  [Equals] compares C strings: whatever follows the first NUL
    character of either string is ignored, so that two strings that differ
    only after a NUL are reported equal. *)
Theorem Equals_stops_at_NUL (s x y : utils.std_string) :
  utils.Equals (s ++ Ascii.zero :: x) (s ++ Ascii.zero :: y) = true
  /\ utils.Equals (s ++ Ascii.zero :: x) s = true.
Proof.
  split; apply Equals_iff; unfold utils.ToLower;
    rewrite !map_app; cbn [map]; rewrite tolower_zero, !c_str_app_NUL;
    reflexivity.
Qed.

Lemma length_repeat_app (c : Ascii.ascii) (k : nat) (s : utils.std_string) :
  length (repeat c k ++ s) = (k + length s)%nat.
Proof. rewrite length_app, repeat_length. reflexivity. Qed.

(** X9.  [PadLeadingZeros] returns a string of length
    [max (length, p_MaxLength)] that consists of zeros followed by the
    string handed in, which is never truncated; padding a padded string
    again changes nothing. *)
Theorem PadLeadingZeros_length (s : utils.std_string) (n : nat) :
  length (utils.PadLeadingZeros s n) = Nat.max (length s) n
  /\ utils.PadLeadingZeros s n
     = repeat utils.char_0 (n - length s) ++ s
  /\ utils.PadLeadingZeros (utils.PadLeadingZeros s n) n
     = utils.PadLeadingZeros s n.
Proof.
  assert (H1 : length (utils.PadLeadingZeros s n) = Nat.max (length s) n).
  { unfold utils.PadLeadingZeros.
    destruct (Nat.ltb_spec (length s) n) as [Hlt | Hge].
    - rewrite length_repeat_app. lia.
    - lia. }
  split; [exact H1|]. split.
  - unfold utils.PadLeadingZeros.
    destruct (Nat.ltb_spec (length s) n) as [Hlt | Hge]; [reflexivity|].
    replace (n - length s)%nat with 0%nat by lia. reflexivity.
  - unfold utils.PadLeadingZeros at 1. rewrite H1.
    destruct (Nat.ltb_spec (Nat.max (length s) n) n) as [Hlt | Hge];
      [lia | reflexivity].
Qed.

Lemma to_int32_small (n : Z) :
  (0 <= n < 2 ^ 31)%Z -> utils.to_int32 n = n.
Proof.
  intros H. unfold utils.to_int32.
  rewrite Z.mod_small; lia.
Qed.

(** X10.  For a width that fits an [int], [CentreJustify] returns a string
    of length [max (length, p_Width)]: the string handed in between a run of
    leading and a run of trailing spaces, the trailing run being as long as
    the leading one or one space longer; a string that already fills the
    width is returned as it is. *)
Theorem CentreJustify_centred (s : utils.std_string) (w : nat) :
  (Z.of_nat w < 2 ^ 31)%Z ->
  exists lead trail : nat,
    utils.CentreJustify s w
    = Some (repeat utils.char_space lead ++ s ++ repeat utils.char_space trail)
    /\ length (repeat utils.char_space lead ++ s
               ++ repeat utils.char_space trail)
       = Nat.max (length s) w
    /\ (lead <= trail <= lead + 1)%nat
    /\ ((w <= length s)%nat -> utils.CentreJustify s w = Some s).
Proof.
  intros Hw. unfold utils.CentreJustify.
  destruct (Nat.ltb_spec (length s) w) as [Hlt | Hge].
  - cbv zeta.
    set (d := (Z.of_nat w - Z.of_nat (length s))%Z).
    assert (Hd : (0 < d < 2 ^ 31)%Z) by (unfold d; lia).
    assert (Hhalf : (0 <= d / 2 < 2 ^ 31)%Z).
    { split; [apply Z.div_pos; lia|].
      apply Z.div_lt_upper_bound; lia. }
    rewrite (to_int32_small (d / 2)) by exact Hhalf.
    assert (Hrest : (d / 2 <= d - d / 2 <= d / 2 + 1)%Z).
    { pose proof (Z.div_mod d 2 ltac:(lia)) as Hdm.
      pose proof (Z.mod_pos_bound d 2 ltac:(lia)) as Hm. lia. }
    unfold utils.to_size_t.
    rewrite (Z.mod_small (d - d / 2)) by lia.
    rewrite (to_int32_small (d - d / 2)) by lia.
    destruct (Z.ltb_spec (d / 2) 0) as [Hn | _]; [lia|].
    destruct (Z.ltb_spec (d - d / 2) 0) as [Hn | _]; [lia|].
    cbn [orb].
    exists (Z.to_nat (d / 2)), (Z.to_nat (d - d / 2)).
    split; [reflexivity|]. split; [|split].
    + rewrite !length_app, !repeat_length. unfold d in *. lia.
    + lia.
    + intros Hle. lia.
  - exists 0%nat, 0%nat. cbn [repeat app]. rewrite app_nil_r.
    split; [reflexivity|]. split; [lia|]. split; [lia|]. reflexivity.
Qed.

Lemma CentreJustify_centred_witness :
  (Z.of_nat 5 < 2 ^ 31)%Z
  /\ exists lead trail : nat,
       utils.CentreJustify [utils.char_0; utils.char_0] 5
       = Some (repeat utils.char_space lead ++ [utils.char_0; utils.char_0]
               ++ repeat utils.char_space trail)
       /\ length (repeat utils.char_space lead ++ [utils.char_0; utils.char_0]
                  ++ repeat utils.char_space trail)
          = Nat.max (length [utils.char_0; utils.char_0]) 5
       /\ (lead <= trail <= lead + 1)%nat
       /\ ((5 <= length [utils.char_0; utils.char_0])%nat ->
           utils.CentreJustify [utils.char_0; utils.char_0] 5
           = Some [utils.char_0; utils.char_0]).
Proof.
  assert (H : (Z.of_nat 5 < 2 ^ 31)%Z) by (simpl; lia).
  split; [exact H|].
  exact (CentreJustify_centred [utils.char_0; utils.char_0] 5 H).
Defined.
Lemma Compare_antisymmetric_witness :
  (@COMPARE_WITH_TOLERANCE Example.tolerant_compare = true ->
   0 <= @FLOAT_TOLERANCE_ABSOLUTE Example.tolerant_compare)
  /\ @utils.Compare Example.tolerant_compare (Fin 2) (Fin 1)
     = (- @utils.Compare Example.tolerant_compare (Fin 1) (Fin 2))%Z.
Proof.
  assert (H : @COMPARE_WITH_TOLERANCE Example.tolerant_compare = true ->
              0 <= @FLOAT_TOLERANCE_ABSOLUTE Example.tolerant_compare).
  { intros _. cbn [FLOAT_TOLERANCE_ABSOLUTE Example.tolerant_compare]. lra. }
  split; [exact H|].
  exact (proj1 (proj2 (@Compare_antisymmetric Example.tolerant_compare 1 2 H))).
Defined.

(** ** Tabulated distributions *)

Lemma increasing_from_In (f : R * R -> R) (below p : R * R)
    (rest : utils.Table) :
  utils.increasing_from f below rest -> In p rest -> f below < f p.
Proof.
  revert below. induction rest as [|q rest IH]; intros below Hinc Hin.
  - destruct Hin.
  - destruct Hinc as [Hlt Hinc]. destruct Hin as [-> | Hin]; [exact Hlt|].
    specialize (IH q Hinc Hin). lra.
Qed.

Lemma last_cons (q d : R * R) (rest : utils.Table) :
  last (q :: rest) d = last rest q.
Proof.
  revert q d. induction rest as [|r rest IH]; intros q d; [reflexivity|].
  change (last (r :: rest) d = last (r :: rest) q). rewrite !IH. reflexivity.
Qed.

Lemma increasing_from_last (f : R * R -> R) (below : R * R)
    (rest : utils.Table) :
  utils.increasing_from f below rest -> f below <= f (last rest below).
Proof.
  revert below. induction rest as [|q rest IH]; intros below Hinc.
  - simpl. lra.
  - destruct Hinc as [Hlt Hinc]. rewrite last_cons.
    specialize (IH q Hinc). lra.
Qed.

Lemma increasing_from_le_last (f : R * R -> R) (below p : R * R)
    (rest : utils.Table) :
  utils.increasing_from f below rest -> In p rest ->
  f p <= f (last rest below).
Proof.
  revert below. induction rest as [|q rest IH]; intros below Hinc Hin.
  - destruct Hin.
  - destruct Hinc as [Hlt Hinc]. rewrite last_cons.
    destruct Hin as [-> | Hin].
    + apply increasing_from_last. exact Hinc.
    + apply IH; assumption.
Qed.

Lemma interpolate_node (xB yB xA yA : R) :
  xB < xA ->
  (Fin yB + (Fin xA - Fin xB) * ((Fin yA - Fin yB) / (Fin xA - Fin xB)))%D
  = Fin yA.
Proof.
  intros H. dfold. rewrite div_Fin by lra. dfold. f_equal. field. lra.
Qed.

Lemma SampleFromTabulatedCDF_from_node (below p : R * R)
    (rest : utils.Table) :
  utils.increasing_from fst below rest -> In p rest ->
  utils.SampleFromTabulatedCDF_from below rest (Fin (fst p)) = Fin (snd p).
Proof.
  revert below. induction rest as [|q rest IH]; intros below Hinc Hin.
  - destruct Hin.
  - destruct Hinc as [Hlt Hinc]. simpl.
    destruct Hin as [-> | Hin].
    + destruct (Rlt_dec (fst p) (fst p)); [lra|].
      apply interpolate_node. exact Hlt.
    + pose proof (increasing_from_In fst q p rest Hinc Hin) as Hqp.
      destruct (Rlt_dec (fst q) (fst p)); [|lra].
      apply IH; assumption.
Qed.

(** X11.  [SampleFromTabulatedCDF] on a table that is not empty: at every
    key of the table the value tabulated for it is returned; an argument
    below the first key, above the last key, or NaN gives 0. *)
Theorem SampleFromTabulatedCDF_nodes (first : R * R) (rest : utils.Table) :
  utils.increasing_from fst first rest ->
  (forall p : R * R, In p (first :: rest) ->
     utils.SampleFromTabulatedCDF (Fin (fst p)) (first :: rest)
     = Some (Fin (snd p)))
  /\ (forall x : R, x < fst first \/ fst (last rest first) < x ->
        utils.SampleFromTabulatedCDF (Fin x) (first :: rest) = Some (Fin 0))
  /\ utils.SampleFromTabulatedCDF NaN (first :: rest) = Some (Fin 0).
Proof.
  intros Hinc. pose proof (increasing_from_last fst first rest Hinc) as Hlast.
  split; [|split].
  - intros p Hin. unfold utils.SampleFromTabulatedCDF. f_equal.
    unfold Double.le, Double.lt.
    destruct Hin as [<- | Hin].
    + destruct (Rle_dec (fst first) (fst first)); [|lra].
      destruct (Rle_dec (fst first) (fst (last rest first))); [|lra].
      destruct (Rlt_dec (fst first) (fst first)); [lra|]. reflexivity.
    + pose proof (increasing_from_In fst first p rest Hinc Hin) as Hfp.
      pose proof (increasing_from_le_last fst first p rest Hinc Hin) as Hpl.
      destruct (Rle_dec (fst first) (fst p)); [|lra].
      destruct (Rle_dec (fst p) (fst (last rest first))); [|lra].
      destruct (Rlt_dec (fst first) (fst p)); [|lra].
      cbn [andb]. apply SampleFromTabulatedCDF_from_node; assumption.
  - intros x Hx. unfold utils.SampleFromTabulatedCDF. f_equal.
    unfold Double.le.
    destruct (Rle_dec (fst first) x), (Rle_dec x (fst (last rest first)));
      try reflexivity.
    lra.
  - reflexivity.
Qed.
Lemma SampleFromTabulatedCDF_nodes_witness :
  utils.increasing_from fst (0, 0) [(1, 0.5); (2, 1)]
  /\ utils.SampleFromTabulatedCDF (Fin 1) [(0, 0); (1, 0.5); (2, 1)]
     = Some (Fin 0.5).
Proof.
  assert (H : utils.increasing_from fst (0, 0) [(1, 0.5); (2, 1)]).
  { simpl. repeat split; lra. }
  split; [exact H|].
  apply (proj1 (SampleFromTabulatedCDF_nodes (0, 0) [(1, 0.5); (2, 1)] H)
           (1, 0.5)).
  right. left. reflexivity.
Defined.

(** Interpolation between two pairs, and back. *)
Lemma interpolate_there_and_back (xB yB xA yA x : R) :
  xB < xA -> yB < yA -> xB < x <= xA ->
  let y := yB + (x - xB) * ((yA - yB) / (xA - xB)) in
  (Fin yB + (Fin x - Fin xB) * ((Fin yA - Fin yB) / (Fin xA - Fin xB)))%D
  = Fin y
  /\ yB < y <= yA
  /\ (x < xA -> y < yA)
  /\ (Fin xB + (Fin y - Fin yB) / ((Fin yA - Fin yB) / (Fin xA - Fin xB)))%D
     = Fin x.
Proof.
  intros Hx Hy Hin y.
  assert (Hg : 0 < (yA - yB) / (xA - xB)).
  { apply Rdiv_lt_0_compat; lra. }
  set (g := (yA - yB) / (xA - xB)) in *.
  assert (Hgx : g * (xA - xB) = yA - yB).
  { unfold g. field. lra. }
  split; [|split; [|split]].
  - dfold. rewrite div_Fin by lra. dfold. reflexivity.
  - unfold y. split; [nra|]. 
    assert ((x - xB) * g <= (xA - xB) * g) by (apply Rmult_le_compat_r; lra).
    lra.
  - intros Hlt. unfold y.
    assert ((x - xB) * g < (xA - xB) * g) by (apply Rmult_lt_compat_r; lra).
    lra.
  - dfold. rewrite (div_Fin (yA - yB)) by lra. fold g.
    rewrite div_Fin by lra. dfold. f_equal. unfold y. field. lra.
Qed.

Lemma tabulated_round_trip_from (below : R * R) (rest : utils.Table) (x : R) :
  utils.increasing_from fst below rest ->
  utils.increasing_from snd below rest ->
  fst below < x <= fst (last rest below) ->
  exists y : R,
    utils.SampleFromTabulatedCDF_from below rest (Fin x) = Fin y
    /\ snd below < y <= snd (last rest below)
    /\ (x < fst (last rest below) -> y < snd (last rest below))
    /\ utils.InverseSampleFromTabulatedCDF_from below rest (Fin y)
       = Some (Fin x).
Proof.
  revert below. induction rest as [|above rest IH]; intros below Hk Hv Hx.
  - simpl in Hx. lra.
  - destruct Hk as [Hkb Hk]. destruct Hv as [Hvb Hv].
    rewrite last_cons in *.
    pose proof (increasing_from_last snd above rest Hv) as Hvl.
    cbn [utils.SampleFromTabulatedCDF_from
         utils.InverseSampleFromTabulatedCDF_from].
    unfold Double.lt at 1.
    destruct (Rlt_dec (fst above) x) as [Hax | Hax].
    + destruct (IH above Hk Hv (conj Hax (proj2 Hx)))
        as (y & Hs & Hy & Hyl & Hinv).
      exists y. rewrite Hs. split; [reflexivity|].
      split; [lra|]. split; [exact Hyl|].
      unfold Double.lt. destruct (Rlt_dec (snd above) y); [exact Hinv | lra].
    + assert (Hin : fst below < x <= fst above) by lra.
      destruct (interpolate_there_and_back (fst below) (snd below)
                  (fst above) (snd above) x Hkb Hvb Hin)
        as (Hs & Hy & Hyl & Hinv).
      cbv zeta in Hs, Hy, Hyl, Hinv. cbv zeta.
      set (y := snd below + (x - fst below)
                * ((snd above - snd below) / (fst above - fst below))) in *.
      clearbody y.
      exists y. rewrite Hs. split; [reflexivity|].
      split; [lra|]. split.
      * intros Hlt. destruct rest as [|r rest].
        -- simpl in *. apply Hyl. exact Hlt.
        -- destruct Hv as [Hvr Hv'].
           pose proof (increasing_from_last snd r rest Hv') as Hrl.
           rewrite last_cons in *. lra.
      * unfold Double.lt. destruct (Rlt_dec (snd above) y); [lra|].
        f_equal. exact Hinv.
Qed.

(** X12.  A round trip through a tabulated distribution.  For a table whose
    keys and values both grow strictly, from the value 0 at the first key to
    the value 1 at the last key, and an argument [x] from the first key up
    to, but not including, the last key: [SampleFromTabulatedCDF] gives a
    number [y] in [0, 1), and [InverseSampleFromTabulatedCDF] gives [x] back
    for it. *)
Theorem tabulated_round_trip (first : R * R) (rest : utils.Table) (x : R) :
  utils.increasing_from fst first rest ->
  utils.increasing_from snd first rest ->
  snd first = 0 -> snd (last rest first) = 1 ->
  fst first <= x < fst (last rest first) ->
  exists y : R,
    utils.SampleFromTabulatedCDF (Fin x) (first :: rest) = Some (Fin y)
    /\ 0 <= y < 1
    /\ utils.InverseSampleFromTabulatedCDF (Fin y) (first :: rest)
       = Some (Fin x).
Proof.
  intros Hk Hv H0 H1 Hx.
  unfold utils.SampleFromTabulatedCDF, utils.InverseSampleFromTabulatedCDF.
  rewrite H0, H1.
  assert (Hnorm : forall y : R,
            (Fin 0 + Fin y * (Double.max (Fin 0) (Fin 1)
                              - Double.min (Fin 1) (Fin 0)))%D = Fin y).
  { intros y. unfold Double.max, Double.min, Double.lt.
    destruct (Rlt_dec 0 1); [|lra]. dfold. f_equal. ring. }
  unfold Double.le at 1 2.
  destruct (Rle_dec (fst first) x); [|lra].
  destruct (Rle_dec x (fst (last rest first))); [|lra]. cbn [andb].
  unfold Double.lt at 1.
  destruct (Rlt_dec (fst first) x) as [Hfx | Hfx].
  - destruct (tabulated_round_trip_from first rest x Hk Hv
                (conj Hfx (Rlt_le _ _ (proj2 Hx))))
      as (y & Hs & Hy & Hyl & Hinv).
    rewrite H0, H1 in *. specialize (Hyl (proj2 Hx)).
    exists y. rewrite Hs. split; [reflexivity|]. split; [lra|].
    rewrite Hnorm. unfold Double.le, Double.lt.
    destruct (Rle_dec 0 y); [|lra]. destruct (Rlt_dec y 1); [|lra].
    destruct (Rlt_dec 0 y); [|lra]. cbn [andb]. exact Hinv.
  - exists 0. split; [reflexivity|]. split; [lra|].
    rewrite Hnorm. unfold Double.le, Double.lt.
    destruct (Rle_dec 0 0); [|lra]. destruct (Rlt_dec 0 1); [|lra].
    destruct (Rlt_dec 0 0); [lra|]. cbn [andb].
    do 2 f_equal. lra.
Qed.

Lemma tabulated_round_trip_witness :
  utils.increasing_from fst (0, 0) [(1, 0.5); (2, 1)]
  /\ utils.increasing_from snd (0, 0) [(1, 0.5); (2, 1)]
  /\ snd (0, 0) = 0 /\ snd (last [(1, 0.5); (2, 1)] (0, 0)) = 1
  /\ fst (0, 0) <= 0.5 < fst (last [(1, 0.5); (2, 1)] (0, 0))
  /\ exists y : R,
       utils.SampleFromTabulatedCDF (Fin 0.5) [(0, 0); (1, 0.5); (2, 1)]
       = Some (Fin y)
       /\ 0 <= y < 1
       /\ utils.InverseSampleFromTabulatedCDF (Fin y)
            [(0, 0); (1, 0.5); (2, 1)]
          = Some (Fin 0.5).
Proof.
  assert (Hk : utils.increasing_from fst (0, 0) [(1, 0.5); (2, 1)]).
  { simpl. repeat split; lra. }
  assert (Hv : utils.increasing_from snd (0, 0) [(1, 0.5); (2, 1)]).
  { simpl. repeat split; lra. }
  assert (Hx : fst (0, 0) <= 0.5 < fst (last [(1, 0.5); (2, 1)] (0, 0))).
  { simpl. lra. }
  split; [exact Hk|]. split; [exact Hv|]. split; [reflexivity|].
  split; [reflexivity|]. split; [exact Hx|].
  exact (tabulated_round_trip (0, 0) [(1, 0.5); (2, 1)] 0.5 Hk Hv
           eq_refl eq_refl Hx).
Defined.
(** ** [utils::InverseSampleFromPowerLaw] *)

Lemma ln_monotone (x y : R) : 0 < x -> x <= y -> ln x <= ln y.
Proof.
  intros Hx [Hlt | ->]; [left; apply ln_increasing; assumption | right; reflexivity].
Qed.

Lemma exp_monotone (x y : R) : x <= y -> exp x <= exp y.
Proof.
  intros [Hlt | ->]; [left; apply exp_increasing; assumption | right; reflexivity].
Qed.

(** A number between two positive numbers has its logarithm between
    theirs. *)
Lemma ln_between (u A B : R) :
  0 < A -> 0 < B -> 0 <= u <= 1 ->
  let t := u * (B - A) + A in
  0 < t
  /\ (A <= B -> ln A <= ln t <= ln B)
  /\ (B <= A -> ln B <= ln t <= ln A).
Proof.
  intros HA HB Hu t.
  assert (Hpos : 0 < t) by (unfold t; nra).
  split; [exact Hpos|]. split; intros Hab.
  - split; apply ln_monotone; unfold t; try assumption; nra.
  - split; apply ln_monotone; unfold t; try assumption; nra.
Qed.

(** X13.  A sample of [InverseSampleFromPowerLaw] lies in the interval it is
    asked for: for bounds [0 < p_Xmin <= p_Xmax], any power, and a random
    number in [0, 1], the value returned is a number between [p_Xmin] and
    [p_Xmax]; exactly one random number is drawn. *)
Theorem InverseSampleFromPowerLaw_range (RandState : Type)
    (Random : RandState -> R * RandState) (p xmin xmax : R) (rs : RandState) :
  0 < xmin <= xmax -> 0 <= fst (Random rs) <= 1 ->
  exists r : R,
    utils.InverseSampleFromPowerLaw RandState Random
      (Fin p) (Fin xmax) (Fin xmin) rs
    = (Fin r, snd (Random rs))
    /\ xmin <= r <= xmax.
Proof.
  intros Hx Hu. unfold utils.InverseSampleFromPowerLaw.
  destruct (Random rs) as [u rs']. cbn [fst snd] in *.
  assert (Hmax : 0 < xmax) by lra.
  pose proof (ln_monotone xmin xmax (proj1 Hx) (proj2 Hx)) as Hln.
  unfold Double.eq. destruct (Req_dec_T p (-1)) as [Hp | Hp].
  - rewrite div_Fin by lra.
    assert (Hq : 0 < xmax / xmin) by (apply Rdiv_lt_0_compat; lra).
    rewrite log_Fin by exact Hq.
    cbn [Double.mul Double.lift2 Double.exp Double.lift1].
    eexists. split; [reflexivity|].
    assert (Hlq : ln (xmax / xmin) = ln xmax - ln xmin).
    { unfold Rdiv. rewrite ln_mult by (try apply Rinv_0_lt_compat; lra).
      rewrite ln_Rinv by lra. ring. }
    rewrite Hlq.
    assert (H0 : 0 <= u * (ln xmax - ln xmin) <= ln xmax - ln xmin) by nra.
    pose proof (exp_monotone 0 _ (proj1 H0)) as He1.
    pose proof (exp_monotone _ _ (proj2 H0)) as He2.
    rewrite exp_0 in He1.
    assert (Hexp : exp (ln xmax - ln xmin) * xmin = xmax).
    { unfold Rminus. rewrite exp_plus, exp_Ropp, !exp_ln by lra.
      field. lra. }
    split; [nra|].
    rewrite <- Hexp at 2. apply Rmult_le_compat_r; lra.
  - cbn [Double.add Double.lift2].
    assert (Hq : p + 1 <> 0) by lra.
    rewrite !pow_Fin by lra.
    cbn [Double.sub Double.mul Double.add Double.lift2].
    rewrite div_Fin by exact Hq.
    set (A := Rpower xmin (p + 1)). set (B := Rpower xmax (p + 1)).
    assert (HA : 0 < A) by apply exp_pos.
    assert (HB : 0 < B) by apply exp_pos.
    destruct (ln_between u A B HA HB Hu) as (Ht & Hinc & Hdec).
    cbv zeta in Ht, Hinc, Hdec.
    rewrite pow_Fin by exact Ht.
    eexists. split; [reflexivity|].
    assert (HlA : ln A = (p + 1) * ln xmin) by apply ln_Rpower.
    assert (HlB : ln B = (p + 1) * ln xmax) by apply ln_Rpower.
    set (t := u * (B - A) + A) in *.
    assert (Hbounds : ln xmin <= 1 / (p + 1) * ln t <= ln xmax).
    { destruct (Rlt_le_dec 0 (p + 1)) as [Hpos | Hneg].
      - assert (Hi : 0 < 1 / (p + 1)) by (apply Rdiv_lt_0_compat; lra).
        assert (HAB : A <= B).
        { unfold A, B, Rpower. apply exp_monotone.
          apply Rmult_le_compat_l; lra. }
        specialize (Hinc HAB). rewrite HlA, HlB in Hinc.
        replace (ln xmin) with (1 / (p + 1) * ((p + 1) * ln xmin))
          by (field; lra).
        replace (ln xmax) with (1 / (p + 1) * ((p + 1) * ln xmax))
          by (field; lra).
        split; apply Rmult_le_compat_l; lra.
      - assert (Hneg' : p + 1 < 0) by lra.
        assert (Hi : 1 / (p + 1) <= 0).
        { left. unfold Rdiv. rewrite Rmult_1_l. apply Rinv_lt_0_compat. lra. }
        assert (HBA : B <= A).
        { unfold A, B, Rpower. apply exp_monotone. nra. }
        specialize (Hdec HBA). rewrite HlA, HlB in Hdec.
        replace (ln xmin) with (1 / (p + 1) * ((p + 1) * ln xmin))
          by (field; lra).
        replace (ln xmax) with (1 / (p + 1) * ((p + 1) * ln xmax))
          by (field; lra).
        split; apply Rmult_le_compat_neg_l; lra. }
    unfold Rpower.
    pose proof (exp_monotone _ _ (proj1 Hbounds)) as Hlo.
    pose proof (exp_monotone _ _ (proj2 Hbounds)) as Hhi.
    rewrite exp_ln in Hlo, Hhi by lra. split; assumption.
Qed.

Lemma InverseSampleFromPowerLaw_range_witness :
  0 < 1 <= 100 /\ 0 <= fst (Example.next [0.25]) <= 1
  /\ exists r : R,
       utils.InverseSampleFromPowerLaw (list R) Example.next
         (Fin (-2.3)) (Fin 100) (Fin 1) [0.25]
       = (Fin r, snd (Example.next [0.25]))
       /\ 1 <= r <= 100.
Proof.
  assert (Hx : 0 < 1 <= 100) by lra.
  assert (Hu : 0 <= fst (Example.next [0.25]) <= 1) by (simpl; lra).
  split; [exact Hx|]. split; [exact Hu|].
  exact (InverseSampleFromPowerLaw_range (list R) Example.next (-2.3) 1 100
           [0.25] Hx Hu).
Defined.
(** ** [utils::ConvertPeriodInDaysToSemiMajorAxisInAU] *)

Lemma Rpower_cube_root (x : R) : 0 < x -> Rpower x (1 / 3) ^ 3 = x.
Proof.
  intros Hx.
  rewrite <- (Rpower_pow 3) by apply exp_pos.
  rewrite Rpower_mult.
  replace (1 / 3 * INR 3) with 1 by (simpl; field).
  apply Rpower_1. exact Hx.
Qed.

(** X14.  Kepler's third law in [ConvertPeriodInDaysToSemiMajorAxisInAU]:
    for positive constants, a positive total mass and a positive period the
    result is a positive number [a] with
    [(a AU)^3 = G (m1 + m2) MSOL P^2 SECONDS_IN_DAY^2 / (4 pi^2)], and
    multiplying the period by [k] multiplies the semi-major axis by
    [k^(2/3)]. *)
Theorem ConvertPeriod_Kepler (G MSOL SECONDS_IN_DAY AU m1 m2 P : R) :
  0 < G -> 0 < MSOL -> 0 < SECONDS_IN_DAY -> 0 < AU ->
  0 < m1 + m2 -> 0 < P ->
  exists a : R,
    utils.ConvertPeriodInDaysToSemiMajorAxisInAU G MSOL SECONDS_IN_DAY AU
      (Fin m1) (Fin m2) (Fin P) = Fin a
    /\ 0 < a
    /\ (a * AU) ^ 3
       = G * (m1 + m2) * MSOL * (P * SECONDS_IN_DAY) ^ 2 / (4 * PI ^ 2)
    /\ forall k : R, 0 < k ->
         utils.ConvertPeriodInDaysToSemiMajorAxisInAU G MSOL SECONDS_IN_DAY AU
           (Fin m1) (Fin m2) (Fin (k * P))
         = Fin (Rpower k (2 / 3) * a).
Proof.
  intros HG HM HS HAU Hm HP.
  pose proof PI_RGT_0 as Hpi.
  assert (Hbot : 0 < 4 * PI * PI) by nra.
  assert (Htop : forall p : R, 0 < p ->
            0 < G * (m1 * MSOL + m2 * MSOL) * p * p
                * SECONDS_IN_DAY * SECONDS_IN_DAY).
  { intros p Hp. repeat apply Rmult_lt_0_compat; try assumption. nra. }
  assert (Hval : forall p : R, 0 < p ->
            utils.ConvertPeriodInDaysToSemiMajorAxisInAU G MSOL SECONDS_IN_DAY
              AU (Fin m1) (Fin m2) (Fin p)
            = Fin (Rpower (G * (m1 * MSOL + m2 * MSOL) * p * p
                           * SECONDS_IN_DAY * SECONDS_IN_DAY / (4 * PI * PI))
                     (1 / 3) / AU)).
  { intros p Hp. unfold utils.ConvertPeriodInDaysToSemiMajorAxisInAU.
    cbn [Double.mul Double.add Double.lift2].
    rewrite (div_Fin _ (4 * PI * PI)) by lra.
    rewrite (div_Fin 1 3) by lra.
    rewrite pow_Fin by (apply Rdiv_lt_0_compat; [apply Htop; exact Hp | lra]).
    rewrite div_Fin by lra. reflexivity. }
  set (X := G * (m1 * MSOL + m2 * MSOL) * P * P
            * SECONDS_IN_DAY * SECONDS_IN_DAY / (4 * PI * PI)).
  assert (HX : 0 < X) by (apply Rdiv_lt_0_compat; [apply Htop; exact HP | lra]).
  exists (Rpower X (1 / 3) / AU).
  split; [apply Hval; exact HP|]. split; [|split].
  - apply Rdiv_lt_0_compat; [apply exp_pos | exact HAU].
  - replace (Rpower X (1 / 3) / AU * AU) with (Rpower X (1 / 3))
      by (field; lra).
    rewrite Rpower_cube_root by exact HX. unfold X. field. lra.
  - intros k Hk. rewrite Hval by nra. f_equal.
    replace (G * (m1 * MSOL + m2 * MSOL) * (k * P) * (k * P)
             * SECONDS_IN_DAY * SECONDS_IN_DAY / (4 * PI * PI))
      with (Rpower k 2 * X).
    + rewrite <- Rpower_mult_distr by (try apply exp_pos; exact HX).
      rewrite Rpower_mult.
      replace (2 * (1 / 3)) with (2 / 3) by field.
      unfold Rdiv. ring.
    + replace 2 with (INR 2) by (simpl; ring).
      rewrite Rpower_pow by exact Hk. unfold X. simpl. field. lra.
Qed.

Lemma ConvertPeriod_Kepler_witness :
  0 < 1 /\ 0 < 2 /\ 0 < 3 /\ 0 < 4 /\ 0 < 1 + 1 /\ 0 < 5
  /\ exists a : R,
       utils.ConvertPeriodInDaysToSemiMajorAxisInAU 1 2 3 4
         (Fin 1) (Fin 1) (Fin 5) = Fin a
       /\ 0 < a.
Proof.
  assert (H1 : 0 < 1) by lra. assert (H2 : 0 < 2) by lra.
  assert (H3 : 0 < 3) by lra. assert (H4 : 0 < 4) by lra.
  assert (H5 : 0 < 1 + 1) by lra. assert (H6 : 0 < 5) by lra.
  repeat (split; [assumption|]).
  destruct (ConvertPeriod_Kepler 1 2 3 4 1 1 5 H1 H2 H3 H4 H5 H6)
    as (a & Ha & Hpos & _).
  exists a. split; assumption.
Defined.

(** ** [utils::SNEventType] *)

Lemma land_bit (x k : Z) :
  (0 <= k)%Z -> (Z.land x (2 ^ k) =? 2 ^ k)%Z = Z.testbit x k.
Proof.
  intros Hk. destruct (Z.testbit x k) eqn:Hb.
  - apply Z.eqb_eq. apply Z.bits_inj'. intros n Hn.
    rewrite Z.land_spec, Z.pow2_bits_eqb by assumption.
    destruct (Z.eqb_spec k n) as [<- | Hne].
    + rewrite Hb. reflexivity.
    + apply andb_false_r.
  - apply Z.eqb_neq. intros Heq.
    apply (f_equal (fun z => Z.testbit z k)) in Heq.
    rewrite Z.land_spec, Z.pow2_bits_eqb, Z.eqb_refl, Hb in Heq by assumption.
    discriminate.
Qed.

Lemma land_two_bits (x c u : Z) :
  (0 <= c)%Z -> (0 <= u)%Z -> c <> u ->
  (Z.land x (Z.lor (2 ^ c) (2 ^ u)) =? 2 ^ c)%Z
  = Z.testbit x c && negb (Z.testbit x u).
Proof.
  intros Hc Hu Hne.
  destruct (Z.testbit x c) eqn:Hbc, (Z.testbit x u) eqn:Hbu; cbn [andb negb].
  - apply Z.eqb_neq. intros Heq.
    apply (f_equal (fun z => Z.testbit z u)) in Heq.
    rewrite Z.land_spec, Z.lor_spec, !Z.pow2_bits_eqb, Hbu, Z.eqb_refl in Heq
      by assumption.
    destruct (Z.eqb_spec c u); [contradiction|].
    discriminate.
  - apply Z.eqb_eq. apply Z.bits_inj'. intros n Hn.
    rewrite Z.land_spec, Z.lor_spec, !Z.pow2_bits_eqb by assumption.
    destruct (Z.eqb_spec c n) as [<- | Hcn].
    + rewrite Hbc. reflexivity.
    + destruct (Z.eqb_spec u n) as [<- | Hun].
      * rewrite Hbu. reflexivity.
      * apply andb_false_r.
  - apply Z.eqb_neq. intros Heq.
    apply (f_equal (fun z => Z.testbit z c)) in Heq.
    rewrite Z.land_spec, Z.lor_spec, !Z.pow2_bits_eqb, Hbc, Z.eqb_refl in Heq
      by assumption.
    discriminate.
  - apply Z.eqb_neq. intros Heq.
    apply (f_equal (fun z => Z.testbit z c)) in Heq.
    rewrite Z.land_spec, Z.lor_spec, !Z.pow2_bits_eqb, Hbc, Z.eqb_refl in Heq
      by assumption.
    discriminate.
Qed.

(** The tests of [SNEventType] on single bits read the bits of the
    argument. *)
Lemma SNEventType_bits (NONE c e p q u x : Z) :
  (0 <= c)%Z -> (0 <= e)%Z -> (0 <= p)%Z -> (0 <= q)%Z -> (0 <= u)%Z ->
  c <> u ->
  utils.SNEventType NONE (2 ^ c) (2 ^ e) (2 ^ p) (2 ^ q) (2 ^ u) x
  = if Z.testbit x c && negb (Z.testbit x u) then (2 ^ c)%Z
    else if Z.testbit x e then (2 ^ e)%Z
    else if Z.testbit x p then (2 ^ p)%Z
    else if Z.testbit x q then (2 ^ q)%Z
    else if Z.testbit x u then (2 ^ u)%Z
    else NONE.
Proof.
  intros Hc He Hp Hq Hu Hne. unfold utils.SNEventType.
  rewrite land_two_bits, !land_bit by assumption. reflexivity.
Qed.

(** X15.  [SNEventType] when the five event types are single bits, the bits
    of [CCSN] and [USSN] being different: the result is [CCSN] when the CCSN
    bit is set and the USSN bit is not; otherwise [ECSN], [PISN], [PPISN],
    [USSN] for the first of these bits that is set, in this order; otherwise
    [NONE].  An ECSN, PISN or PPISN bit is therefore not reported when the
    CCSN bit is set without the USSN bit. *)
Theorem SNEventType_priority (NONE c e p q u x : Z) :
  (0 <= c)%Z -> (0 <= e)%Z -> (0 <= p)%Z -> (0 <= q)%Z -> (0 <= u)%Z ->
  c <> u ->
  utils.SNEventType NONE (2 ^ c) (2 ^ e) (2 ^ p) (2 ^ q) (2 ^ u) x
  = if Z.testbit x c && negb (Z.testbit x u) then (2 ^ c)%Z
    else if Z.testbit x e then (2 ^ e)%Z
    else if Z.testbit x p then (2 ^ p)%Z
    else if Z.testbit x q then (2 ^ q)%Z
    else if Z.testbit x u then (2 ^ u)%Z
    else NONE.
Proof.
  intros Hc He Hp Hq Hu Hne. unfold utils.SNEventType.
  rewrite land_two_bits, !land_bit by assumption. reflexivity.
Qed.

Lemma SNEventType_priority_witness :
  (0 <= 0)%Z /\ (0 <= 1)%Z /\ (0 <= 2)%Z /\ (0 <= 3)%Z /\ (0 <= 4)%Z
  /\ 0%Z <> 4%Z
  /\ utils.SNEventType 0 (2 ^ 0) (2 ^ 1) (2 ^ 2) (2 ^ 3) (2 ^ 4) 3 = (2 ^ 0)%Z.
Proof.
  assert (H0 : (0 <= 0)%Z) by lia. assert (H1 : (0 <= 1)%Z) by lia.
  assert (H2 : (0 <= 2)%Z) by lia. assert (H3 : (0 <= 3)%Z) by lia.
  assert (H4 : (0 <= 4)%Z) by lia. assert (Hne : 0%Z <> 4%Z) by lia.
  repeat (split; [assumption|]).
  rewrite (SNEventType_priority 0 0 1 2 3 4 3 H0 H1 H2 H3 H4 Hne).
  reflexivity.
Defined.

(** X16.  [SNEventType] classifies once and for all: with the five types on
    five different bits and [NONE = 0], the type of a result is that
    result. *)
Theorem SNEventType_idempotent (c e p q u x : Z) :
  (0 <= c)%Z -> (0 <= e)%Z -> (0 <= p)%Z -> (0 <= q)%Z -> (0 <= u)%Z ->
  c <> e -> c <> p -> c <> q -> c <> u -> e <> p -> e <> q -> e <> u ->
  p <> q -> p <> u -> q <> u ->
  let type := utils.SNEventType 0 (2 ^ c) (2 ^ e) (2 ^ p) (2 ^ q) (2 ^ u) in
  type (type x) = type x.
Proof.
  intros Hc He Hp Hq Hu Hce Hcp Hcq Hcu Hep Heq Heu Hpq Hpu Hqu type.
  unfold type.
  rewrite (SNEventType_bits 0 c e p q u x) by assumption.
  assert (Hbit : forall k n : Z, (0 <= k)%Z -> (0 <= n)%Z ->
                   Z.testbit (2 ^ k) n = (k =? n)%Z).
  { intros k n Hk Hn. apply Z.pow2_bits_eqb. exact Hk. }
  assert (Hneq : forall k n : Z, k <> n -> (k =? n)%Z = false).
  { intros k n H. apply Z.eqb_neq. exact H. }
  repeat match goal with
  | |- context [if ?b then _ else _] =>
      lazymatch b with
      | context [Z.testbit x _] => destruct b
      end
  end;
  rewrite (SNEventType_bits 0 c e p q u) by assumption;
  rewrite ?Hbit, ?Z.testbit_0_l, ?Z.eqb_refl by assumption;
  rewrite ?(Hneq c e), ?(Hneq c p), ?(Hneq c q), ?(Hneq c u),
          ?(Hneq e c), ?(Hneq e p), ?(Hneq e q), ?(Hneq e u),
          ?(Hneq p c), ?(Hneq p e), ?(Hneq p q), ?(Hneq p u),
          ?(Hneq q c), ?(Hneq q e), ?(Hneq q p), ?(Hneq q u),
          ?(Hneq u c), ?(Hneq u e), ?(Hneq u p), ?(Hneq u q)
    by (assumption || (apply not_eq_sym; assumption));
  reflexivity.
Qed.

Lemma SNEventType_idempotent_witness :
  utils.SNEventType 0 (2 ^ 0) (2 ^ 1) (2 ^ 2) (2 ^ 3) (2 ^ 4)
    (utils.SNEventType 0 (2 ^ 0) (2 ^ 1) (2 ^ 2) (2 ^ 3) (2 ^ 4) 22)
  = utils.SNEventType 0 (2 ^ 0) (2 ^ 1) (2 ^ 2) (2 ^ 3) (2 ^ 4) 22.
Proof.
  apply (SNEventType_idempotent 0 1 2 3 4 22); lia.
Defined.

(** ** Linear algebra of utils.cpp *)

Lemma rotation_z_dot (c s x y z x' y' z' : R) :
  c * c + s * s = 1 ->
  (c * x - s * y) * (c * x' - s * y') + (s * x + c * y) * (s * x' + c * y')
  + z * z'
  = x * x' + y * y' + z * z'.
Proof.
  intros H.
  replace ((c * x - s * y) * (c * x' - s * y')
           + (s * x + c * y) * (s * x' + c * y') + z * z')
    with ((c * c + s * s) * (x * x' + y * y') + z * z') by ring.
  rewrite H. ring.
Qed.

Lemma rotation_x_dot (c s x y z x' y' z' : R) :
  c * c + s * s = 1 ->
  x * x'
  + (c * y - s * z) * (c * y' - s * z') + (s * y + c * z) * (s * y' + c * z')
  = x * x' + y * y' + z * z'.
Proof.
  intros H.
  replace (x * x' + (c * y - s * z) * (c * y' - s * z')
           + (s * y + c * z) * (s * y' + c * z'))
    with (x * x' + (c * c + s * s) * (y * y' + z * z')) by ring.
  rewrite H. ring.
Qed.

Lemma cos_sin_one (t : R) : cos t * cos t + sin t * sin t = 1.
Proof. pose proof (sin2_cos2 t) as H. unfold Rsqr in H. lra. Qed.

(** The rotation matrix of [RotateVector], as rows applied to a vector. *)
Lemma euler_rotation_dot (ct st cp sp cs ss a0 a1 a2 b0 b1 b2 : R) :
  ct * ct + st * st = 1 -> cp * cp + sp * sp = 1 -> cs * cs + ss * ss = 1 ->
  (0 + (cp * cs - sp * ct * ss) * a0 + (- cp * ss - sp * ct * cs) * a1
     + st * sp * a2)
  * (0 + (cp * cs - sp * ct * ss) * b0 + (- cp * ss - sp * ct * cs) * b1
       + st * sp * b2)
  + (0 + (sp * cs + cp * ct * ss) * a0 + (- sp * ss + cp * ct * cs) * a1
       + - st * cp * a2)
    * (0 + (sp * cs + cp * ct * ss) * b0 + (- sp * ss + cp * ct * cs) * b1
         + - st * cp * b2)
  + (0 + st * ss * a0 + st * cs * a1 + ct * a2)
    * (0 + st * ss * b0 + st * cs * b1 + ct * b2)
  = a0 * b0 + a1 * b1 + a2 * b2.
Proof.
  intros Ht Hp Hs.
  (* the rotation about z by psi, then about x by theta, then about z by phi *)
  set (x1 := cs * a0 - ss * a1). set (y1 := ss * a0 + cs * a1).
  set (x1' := cs * b0 - ss * b1). set (y1' := ss * b0 + cs * b1).
  set (y2 := ct * y1 - st * a2). set (z2 := st * y1 + ct * a2).
  set (y2' := ct * y1' - st * b2). set (z2' := st * y1' + ct * b2).
  transitivity
    ((cp * x1 - sp * y2) * (cp * x1' - sp * y2')
     + (sp * x1 + cp * y2) * (sp * x1' + cp * y2') + z2 * z2').
  { unfold z2, z2', y2, y2', y1, y1', x1, x1'. ring. }
  rewrite (rotation_z_dot cp sp) by exact Hp.
  unfold y2, z2, y2', z2'.
  rewrite (rotation_x_dot ct st) by exact Ht.
  unfold x1, y1, x1', y1'.
  apply (rotation_z_dot cs ss). exact Hs.
Qed.

Lemma RotateVector_Fin (v0 v1 v2 t p s : R) :
  utils.RotateVector [Fin v0; Fin v1; Fin v2] (Fin t) (Fin p) (Fin s)
  = [ Fin (0 + (cos p * cos s - sin p * cos t * sin s) * v0
             + (- cos p * sin s - sin p * cos t * cos s) * v1
             + sin t * sin p * v2);
      Fin (0 + (sin p * cos s + cos p * cos t * sin s) * v0
             + (- sin p * sin s + cos p * cos t * cos s) * v1
             + - sin t * cos p * v2);
      Fin (0 + sin t * sin s * v0 + sin t * cos s * v1 + cos t * v2) ].
Proof. reflexivity. Qed.

(** X17.  [RotateVector] is an isometry: rotating two vectors of numbers by
    the same Euler angles leaves their dot product unchanged, hence the
    speed [CalculateSpeedFromVelocity] of a velocity as well; and the
    rotation by the angles (0, 0, 0) is the identity. *)
Theorem RotateVector_isometry (a0 a1 a2 b0 b1 b2 t p s : R) :
  let a := [Fin a0; Fin a1; Fin a2] in
  let b := [Fin b0; Fin b1; Fin b2] in
  utils.DotProduct (utils.RotateVector a (Fin t) (Fin p) (Fin s))
                   (utils.RotateVector b (Fin t) (Fin p) (Fin s))
  = utils.DotProduct a b
  /\ utils.CalculateSpeedFromVelocity
       (utils.RotateVector a (Fin t) (Fin p) (Fin s))
     = utils.CalculateSpeedFromVelocity a
  /\ utils.RotateVector a (Fin 0) (Fin 0) (Fin 0) = a.
Proof.
  cbv zeta. rewrite !RotateVector_Fin.
  pose proof (cos_sin_one t) as Ht. pose proof (cos_sin_one p) as Hp.
  pose proof (cos_sin_one s) as Hs.
  split; [|split].
  - unfold utils.DotProduct.
    cbn [fold_left utils.at_index nth Double.add Double.mul Double.lift2].
    f_equal.
    pose proof (euler_rotation_dot (cos t) (sin t) (cos p) (sin p)
                  (cos s) (sin s) a0 a1 a2 b0 b1 b2 Ht Hp Hs) as H.
    lra.
  - unfold utils.CalculateSpeedFromVelocity.
    cbn [utils.at_index nth Double.add Double.mul Double.lift2].
    do 2 f_equal.
    exact (euler_rotation_dot (cos t) (sin t) (cos p) (sin p)
             (cos s) (sin s) a0 a1 a2 a0 a1 a2 Ht Hp Hs).
  - rewrite cos_0, sin_0. repeat f_equal; ring.
Qed.

(** X18.  The cross product of two vectors of numbers is orthogonal to both
    of them, changes sign when the vectors are exchanged, and vanishes for a
    vector with itself. *)
Theorem CrossProduct_orthogonal (a0 a1 a2 b0 b1 b2 : R) :
  let a := [Fin a0; Fin a1; Fin a2] in
  let b := [Fin b0; Fin b1; Fin b2] in
  utils.DotProduct (utils.CrossProduct a b) a = Fin 0
  /\ utils.DotProduct (utils.CrossProduct a b) b = Fin 0
  /\ utils.CrossProduct b a = map Double.neg (utils.CrossProduct a b)
  /\ utils.CrossProduct a a = [Fin 0; Fin 0; Fin 0].
Proof.
  cbv zeta. unfold utils.DotProduct, utils.CrossProduct.
  cbn [fold_left map utils.at_index nth Double.add Double.sub Double.mul
       Double.neg Double.lift1 Double.lift2].
  repeat split; repeat f_equal; ring.
Qed.
Section KeplerOrbit.
Import RealOrbit.
Variable i : input.
Hypothesis Hbound : bound_orbit i.

Let c := cos (EA i).
Let sn := sin (EA i).
Let k := sqrt (1 - e i * e i).

Lemma omega_square : omega i * omega i * (a i * a i * a i) = G i * (m1 i + m2 i).
Proof.
  destruct Hbound as (HG & Ha & _ & H1 & H2 & _).
  unfold omega. rewrite sqrt_sqrt.
  - field. lra.
  - left. apply Rdiv_lt_0_compat; [nra | repeat apply Rmult_lt_0_compat; lra].
Qed.

Lemma kepler_radius : r i = a i * (1 - e i * c).
Proof.
  pose proof (r_pos i Hbound) as Hr. pose proof (r_square i) as Hrr.
  pose proof (k_square i Hbound) as Hk. pose proof (trig_one i) as Ht.
  pose proof (cos_range i) as Hc.
  fold c sn k in Hrr, Hk, Ht, Hc.
  destruct Hbound as (_ & Ha & He & _).
  assert (Hp : 0 < a i * (1 - e i * c)) by (apply Rmult_lt_0_compat; nra).
  assert (Hsq : r i * r i = a i * (1 - e i * c) * (a i * (1 - e i * c))).
  { rewrite Hrr.
    replace (a i * (c - e i) * (a i * (c - e i)) + a i * k * sn * (a i * k * sn))
      with (a i * a i * ((c - e i) * (c - e i) + (k * k) * (sn * sn))) by ring.
    rewrite Hk. replace (sn * sn) with (1 - c * c) by lra. ring. }
  apply Rsqr_inj; [lra | lra | exact Hsq].
Qed.

Lemma kepler_H : H i = (0, 0, omega i * a i * a i * k).
Proof.
  pose proof (r_pos i Hbound) as Hr. pose proof (trig_one i) as Ht.
  pose proof kepler_radius as Hrad. fold c sn in Ht.
  unfold H, V, R_, cross. fold c sn k.
  apply triple_eq; [ring | ring |].
  replace (a i * (c - e i) * (omega i * a i * a i / r i * k * c)
           - a i * k * sn * (- omega i * a i * a i / r i * sn))
    with (omega i * a i * a i * k * (a i * ((sn * sn + c * c) - e i * c)) / r i)
    by (field; lra).
  rewrite Ht, <- Hrad. field. lra.
Qed.

Lemma kepler_E : E i = (e i, 0, 0).
Proof.
  pose proof (r_pos i Hbound) as Hr. pose proof (trig_one i) as Ht.
  pose proof kepler_radius as Hrad. pose proof omega_square as Hom.
  pose proof (k_square i Hbound) as Hk. pose proof (cos_range i) as Hc.
  destruct (masses_nonzero i Hbound) as (Hg1 & _).
  fold c sn k in Ht, Hk, Hc.
  unfold E. rewrite kepler_H. unfold V, R_. fold c sn k.
  cbn [cross divide sub].
  destruct Hbound as (HG & Ha & He & H1 & H2 & _).
  assert (Hw : omega i * omega i = G i * (m1 i + m2 i) / (a i * a i * a i)).
  { rewrite <- Hom. field. lra. }
  assert (Hden : 1 - e i * c <> 0) by nra.
  apply triple_eq.
  - replace ((omega i * a i * a i / r i * k * c * (omega i * a i * a i * k) - 0 * 0)
             / (G i * (m1 i + m2 i)) - a i * (c - e i) / r i)
      with (((omega i * omega i) * (a i * a i * a i * a i) * (k * k) * c
             / (G i * (m1 i + m2 i)) - a i * (c - e i)) / r i)
      by (field; repeat split; lra).
    rewrite Hw, Hk, Hrad. field. repeat split; try lra. 
  - replace ((0 * 0 - - omega i * a i * a i / r i * sn * (omega i * a i * a i * k))
             / (G i * (m1 i + m2 i)) - a i * k * sn / r i)
      with (((omega i * omega i) * (a i * a i * a i * a i) * k * sn
             / (G i * (m1 i + m2 i)) - a i * k * sn) / r i)
      by (field; repeat split; lra).
    rewrite Hw, Hrad. field. repeat split; try lra.
  - field. repeat split; lra.
Qed.

End KeplerOrbit.
Section KeplerState.
Import RealOrbit.
Context {K : Constants}.

(** X19. For a bound orbit, the state vectors that [ResolveSupernova] builds
    from the orbital elements are those of the Kepler orbit: the separation
    is [a (1 - e cos EA)], the specific angular momentum is along z with
    square [G (m1 + m2) a (1 - e^2)], the Laplace-Runge-Lenz vector is
    [(e, 0, 0)], and the relative speed obeys the vis-viva equation
    [v^2 = G (m1 + m2) (2 / r - 1 / a)]. *)
Theorem SN_state_vectors_Kepler (i : input) :
  bound_orbit i -> G i = G_SN ->
  let l := SN_kinematics_at i in
  SN.r l = Fin (a i * (1 - e i * cos (EA i)))
  /\ (exists hz, SN.H l = inj (0, 0, hz) /\ 0 < hz
        /\ hz * hz = G i * (m1 i + m2 i) * a i * (1 - e i * e i))
  /\ SN.E l = inj (e i, 0, 0)
  /\ (exists v0, SN.v l = Fin v0 /\ 0 < v0
        /\ v0 * v0
           = G i * (m1 i + m2 i)
             * (2 / (a i * (1 - e i * cos (EA i))) - 1 / a i)).
Proof.
  intros Hb HG l. subst l. rewrite (SN_kinematics_reals i Hb HG).
  cbn [SN.r SN.H SN.E SN.v].
  pose proof (kepler_radius i Hb) as Hrad.
  pose proof (omega_square i Hb) as Hom.
  pose proof (k_square i Hb) as Hk. pose proof (k_pos i Hb) as Hkp.
  pose proof (omega_pos i Hb) as Hop. pose proof (r_pos i Hb) as Hr.
  pose proof (cos_range i) as Hc. pose proof (trig_one i) as Ht.
  pose proof (v_pos i Hb) as Hv.
  destruct (Hb) as (HGp & Ha & He & H1 & H2 & _).
  assert (Hw : omega i * omega i = G i * (m1 i + m2 i) / (a i * a i * a i)).
  { rewrite <- Hom. field. lra. }
  assert (Hden : 1 - e i * cos (EA i) <> 0) by nra.
  split; [rewrite Hrad; reflexivity|].
  split.
  { exists (omega i * a i * a i * sqrt (1 - e i * e i)).
    split; [rewrite (kepler_H i Hb); reflexivity|].
    split; [repeat apply Rmult_lt_0_compat; assumption|].
    replace (omega i * a i * a i * sqrt (1 - e i * e i)
             * (omega i * a i * a i * sqrt (1 - e i * e i)))
      with ((omega i * omega i) * (a i * a i * a i * a i)
            * (sqrt (1 - e i * e i) * sqrt (1 - e i * e i))) by ring.
    rewrite Hw, Hk. field. lra. }
  split; [rewrite (kepler_E i Hb); reflexivity|].
  exists (v i). split; [reflexivity|]. split; [exact Hv|].
  unfold v, V, norm. rewrite norm_square.
  replace (- omega i * a i * a i / r i * sin (EA i)
           * (- omega i * a i * a i / r i * sin (EA i))
           + omega i * a i * a i / r i * sqrt (1 - e i * e i) * cos (EA i)
             * (omega i * a i * a i / r i * sqrt (1 - e i * e i) * cos (EA i))
           + 0 * 0)
    with ((omega i * omega i) * (a i * a i * a i * a i)
          * (sin (EA i) * sin (EA i)
             + (sqrt (1 - e i * e i) * sqrt (1 - e i * e i))
               * (cos (EA i) * cos (EA i))) / (r i * r i))
    by (field; lra).
  rewrite Hw, Hk, Hrad.
  replace (sin (EA i) * sin (EA i)) with (1 - cos (EA i) * cos (EA i)) by lra.
  field. repeat split; lra.
Qed.

End KeplerState.

Lemma SN_state_vectors_Kepler_witness :
  let i := Example.radial_input in
  let l := @SN_kinematics_at Example.constants i in
  SN.r l = Fin (RealOrbit.a i * (1 - RealOrbit.e i * cos (RealOrbit.EA i)))
  /\ (exists hz, SN.H l = RealOrbit.inj (0, 0, hz) /\ 0 < hz
        /\ hz * hz = RealOrbit.G i * (RealOrbit.m1 i + RealOrbit.m2 i)
                     * RealOrbit.a i * (1 - RealOrbit.e i * RealOrbit.e i))
  /\ SN.E l = RealOrbit.inj (RealOrbit.e i, 0, 0)
  /\ (exists v0, SN.v l = Fin v0 /\ 0 < v0
        /\ v0 * v0
           = RealOrbit.G i * (RealOrbit.m1 i + RealOrbit.m2 i)
             * (2 / (RealOrbit.a i * (1 - RealOrbit.e i * cos (RealOrbit.EA i)))
                - 1 / RealOrbit.a i)).
Proof.
  exact (@SN_state_vectors_Kepler Example.constants Example.radial_input
           radial_input_bound eq_refl).
Defined.
Section KicklessSupernova.
Import RealOrbit.
Context {cfg : CompareConfig} {K : Constants}.

Lemma norm_x (x : R) : norm (x, 0, 0) = Rabs x.
Proof.
  cbn [norm]. replace (x * x + 0 * 0 + 0 * 0) with (Rsqr x) by (unfold Rsqr; ring).
  apply sqrt_Rsqr_abs.
Qed.

Lemma kepler_h_square (i : input) :
  bound_orbit i ->
  h i * h i = G i * (m1 i + m2 i) * a i * (1 - e i * e i).
Proof.
  intros Hb. pose proof (omega_square i Hb) as Hom.
  pose proof (k_square i Hb) as Hk.
  destruct (Hb) as (HGp & Ha & He & H1 & H2 & _).
  assert (Hw : omega i * omega i = G i * (m1 i + m2 i) / (a i * a i * a i)).
  { rewrite <- Hom. field. lra. }
  unfold h. rewrite (kepler_H i Hb). cbn [norm]. rewrite norm_square.
  replace (0 * 0 + 0 * 0
           + omega i * a i * a i * sqrt (1 - e i * e i)
             * (omega i * a i * a i * sqrt (1 - e i * e i)))
    with ((omega i * omega i) * (a i * a i * a i * a i)
          * (sqrt (1 - e i * e i) * sqrt (1 - e i * e i))) by ring.
  rewrite Hw, Hk. field. lra.
Qed.

(** Without a kick the relative velocity and the specific angular momentum
    are those before the supernova. *)
Lemma no_kick_velocity (i : input) :
  vk i = 0 -> V_ i = V i /\ H_ i = H i /\ h_ i = h i.
Proof.
  intros Hvk.
  assert (HV : V_ i = V i).
  { unfold V_, natalKickVector. rewrite Hvk.
    destruct (V i) as [[x y] z]. cbn [scale sub add].
    apply triple_eq; ring. }
  unfold h_, h, H_, H. rewrite HV. repeat split; reflexivity.
Qed.

(** Without a kick and with the system's centre of mass at rest before the
    supernova, the centre of mass moves only if mass is lost. *)
Lemma no_kick_no_loss_Vcm (i : input) :
  bound_orbit i -> vk i = 0 -> m1_ i = m1 i -> m2_ i = m2 i ->
  Vcm_ i = (0, 0, 0).
Proof.
  intros Hb Hvk H1 H2. destruct (masses_nonzero i Hb) as (_ & _ & Hm & _).
  unfold Vcm_, natalKickVector. rewrite Hvk.
  destruct (V i) as [[x y] z]. cbn [scale add]. unfold mb_ in *.
  rewrite H1, H2 in *.
  assert (Hs : m1 i + m2 i <> 0) by (intros Hz; apply Hm; rewrite Hz; ring).
  apply triple_eq; field; exact Hs.
Qed.

(** X20. A supernova that neither kicks the star nor removes mass leaves a
    bound orbit as it was: the post-supernova eccentricity and semi-major
    axis computed by [ResolveSupernova] are the ones before the supernova,
    and the centre of mass stays at rest. *)
Theorem SN_no_kick_no_mass_loss (i : input) :
  bound_orbit i -> G i = G_SN ->
  vk i = 0 -> m1_ i = m1 i -> m2_ i = m2 i ->
  let l := SN_kinematics_at i in
  SN.e_ l = Fin (e i) /\ SN.a_ l = Fin (a i) /\ SN.Vcm_ l = inj (0, 0, 0).
Proof.
  intros Hb HG Hvk H1 H2 l. subst l. rewrite (SN_kinematics_reals i Hb HG).
  cbn [SN.e_ SN.a_ SN.Vcm_].
  destruct (no_kick_velocity i Hvk) as (HV & HH & Hh).
  pose proof (kepler_h_square i Hb) as Hhh.
  destruct (masses_nonzero i Hb) as (Hg1 & _).
  assert (HE : E_ i = E i).
  { unfold E_, E. rewrite HV, HH. unfold mb_. rewrite H1, H2. reflexivity. }
  assert (He_ : e_ i = e i).
  { unfold e_. rewrite HE, (kepler_E i Hb), norm_x.
    apply Rabs_pos_eq. destruct Hb as (_ & _ & He & _). lra. }
  rewrite He_, Hh, (no_kick_no_loss_Vcm i Hb Hvk H1 H2).
  split; [reflexivity|]. split; [|reflexivity].
  unfold mb_. rewrite H1, H2.
  destruct (Hb) as (HGp & Ha & He & Hm1 & Hm2 & _).
  assert (Hden : G i * (m1 i + m2 i) * (1 - e i * e i) <> 0).
  { apply Rmult_integral_contrapositive_currified; [exact Hg1 | nra]. }
  rewrite div_Fin by exact Hden. f_equal. rewrite Hhh. field.
  split; [nra | split; lra].
Qed.

End KicklessSupernova.
Lemma SN_no_kick_no_mass_loss_witness :
  let i := RealOrbit.mkInput 132700000000 149597871 (1 / 2) 2 1 1 0 0 0 0 2 1 in
  let l := @SN_kinematics_at Example.constants i in
  SN.e_ l = Fin (1 / 2) /\ SN.a_ l = Fin 149597871
  /\ SN.Vcm_ l = RealOrbit.inj (0, 0, 0).
Proof.
  apply (@SN_no_kick_no_mass_loss Example.constants
           (RealOrbit.mkInput 132700000000 149597871 (1 / 2) 2 1 1 0 0 0 0 2 1));
    try reflexivity.
  unfold RealOrbit.bound_orbit. cbn. repeat split; lra.
Defined.

Section Blaauw.
Import RealOrbit.
Context {cfg : CompareConfig} {K : Constants}.

(** The Laplace-Runge-Lenz vector after a supernova without kick in a
    circular orbit points from the companion to the exploding star and has
    the length of the relative mass loss. *)
Lemma circular_no_kick_E (i : input) :
  bound_orbit i -> e i = 0 -> vk i = 0 ->
  E_ i = (((m1 i + m2 i) / mb_ i - 1) * cos (EA i),
          ((m1 i + m2 i) / mb_ i - 1) * sin (EA i), 0).
Proof.
  intros Hb He Hvk.
  destruct (no_kick_velocity i Hvk) as (HV & HH & _).
  pose proof (omega_square i Hb) as Hom.
  pose proof (kepler_radius i Hb) as Hrad.
  pose proof (r_pos i Hb) as Hr.
  destruct (masses_nonzero i Hb) as (Hg1 & Hg2 & _).
  destruct (Hb) as (HGp & Ha & _ & H1 & H2 & Hmb).
  assert (Hw : omega i * omega i = G i * (m1 i + m2 i) / (a i * a i * a i)).
  { rewrite <- Hom. field. lra. }
  rewrite He in Hrad.
  replace (a i * (1 - 0 * cos (EA i))) with (a i) in Hrad by ring.
  unfold E_. rewrite HV, HH, (kepler_H i Hb). unfold V, R_.
  rewrite Hrad, He. replace (1 - 0 * 0) with 1 by ring. rewrite sqrt_1.
  cbn [cross divide sub]. unfold mb_ in *.
  apply triple_eq.
  - replace ((omega i * a i * a i / a i * 1 * cos (EA i) * (omega i * a i * a i * 1) - 0 * 0)
             / (G i * (m1_ i + m2_ i)) - a i * (cos (EA i) - 0) / a i)
      with (((omega i * omega i) * (a i * a i * a i) / (G i * (m1_ i + m2_ i)) - 1)
            * cos (EA i))
      by (field; repeat split; lra).
    rewrite Hw. field. repeat split; lra.
  - replace ((0 * 0 - - omega i * a i * a i / a i * sin (EA i) * (omega i * a i * a i * 1))
             / (G i * (m1_ i + m2_ i)) - a i * 1 * sin (EA i) / a i)
      with (((omega i * omega i) * (a i * a i * a i) / (G i * (m1_ i + m2_ i)) - 1)
            * sin (EA i))
      by (field; repeat split; lra).
    rewrite Hw. field. repeat split; lra.
  - field. repeat split; lra.
Qed.

Lemma circular_no_kick_e (i : input) :
  bound_orbit i -> e i = 0 -> vk i = 0 ->
  m1_ i + m2_ i <= m1 i + m2 i ->
  e_ i = (m1 i + m2 i - mb_ i) / mb_ i.
Proof.
  intros Hb He Hvk Hloss. unfold e_. rewrite (circular_no_kick_E i Hb He Hvk).
  pose proof (trig_one i) as Ht.
  destruct Hb as (HGp & Ha & _ & H1 & H2 & Hmb). unfold mb_ in *.
  set (t := (m1 i + m2 i) / (m1_ i + m2_ i) - 1).
  assert (Ht0 : 0 <= t).
  { assert (Hd : 1 <= (m1 i + m2 i) / (m1_ i + m2_ i)).
    { apply (Rmult_le_reg_r (m1_ i + m2_ i)); [lra|].
      unfold Rdiv. rewrite Rmult_assoc, Rinv_l by lra. lra. }
    unfold t. lra. }
  cbn [norm].
  replace (t * cos (EA i) * (t * cos (EA i)) + t * sin (EA i) * (t * sin (EA i)) + 0 * 0)
    with (Rsqr t * (sin (EA i) * sin (EA i) + cos (EA i) * cos (EA i)))
    by (unfold Rsqr; ring).
  rewrite Ht, Rmult_1_r, sqrt_Rsqr by exact Ht0.
  unfold t. field. lra.
Qed.

(** X21. A supernova without kick in a circular orbit (Blaauw's case): the
    eccentricity after the supernova is the mass lost over the mass left,
    so the comparison that unbinds the binary holds exactly when at least
    half of the total mass is lost; unless exactly half of it is lost, the
    semi-major axis computed is [a mb' / (2 mb' - mb)]. *)
Theorem SN_Blaauw (i : input) :
  exact_compare cfg -> bound_orbit i -> G i = G_SN ->
  e i = 0 -> vk i = 0 -> m1_ i + m2_ i <= m1 i + m2 i ->
  let l := SN_kinematics_at i in
  SN.e_ l = Fin ((m1 i + m2 i - mb_ i) / mb_ i)
  /\ ((utils.Compare (SN.e_ l) (Fin 1) >=? 0)%Z = true
      <-> 2 * mb_ i <= m1 i + m2 i)
  /\ (2 * mb_ i <> m1 i + m2 i ->
      SN.a_ l = Fin (a i * mb_ i / (2 * mb_ i - (m1 i + m2 i)))).
Proof.
  intros Hx Hb HG He Hvk Hloss l. subst l.
  rewrite (SN_kinematics_reals i Hb HG). cbn [SN.e_ SN.a_].
  pose proof (circular_no_kick_e i Hb He Hvk Hloss) as He_.
  destruct (no_kick_velocity i Hvk) as (_ & _ & Hh).
  pose proof (kepler_h_square i Hb) as Hhh.
  destruct (Hb) as (HGp & Ha & _ & H1 & H2 & Hmb). fold (mb_ i) in Hmb, Hloss.
  rewrite He_, Hh, Hhh, He.
  split; [reflexivity|]. split.
  - rewrite (Compare_exact_ge _ _ Hx). split; intros Hc.
    + apply (Rmult_le_compat_r (mb_ i)) in Hc; [|lra].
      unfold Rdiv in Hc. rewrite Rmult_assoc, Rinv_l in Hc by lra. lra.
    + apply (Rmult_le_reg_r (mb_ i)); [lra|].
      unfold Rdiv. rewrite Rmult_assoc, Rinv_l by lra. lra.
  - intros Hne.
    assert (Hsq : 1 - (m1 i + m2 i - mb_ i) / mb_ i * ((m1 i + m2 i - mb_ i) / mb_ i)
                  = (m1 i + m2 i) * (2 * mb_ i - (m1 i + m2 i)) / (mb_ i * mb_ i)).
    { field. lra. }
    rewrite Hsq. rewrite div_Fin.
    + f_equal. field. repeat split; lra.
    + apply Rmult_integral_contrapositive_currified; [nra|].
      unfold Rdiv. apply Rmult_integral_contrapositive_currified.
      * apply Rmult_integral_contrapositive_currified; lra.
      * apply Rinv_neq_0_compat. nra.
Qed.

End Blaauw.

Lemma SN_Blaauw_witness :
  let i := RealOrbit.mkInput 132700000000 149597871 0 2 1 1 0 0 0 0 1 1 in
  let l := @SN_kinematics_at Example.constants i in
  SN.e_ l = Fin ((2 + 1 - (1 + 1)) / (1 + 1))
  /\ ((@utils.Compare Example.compare (SN.e_ l) (Fin 1) >=? 0)%Z = true
      <-> 2 * (1 + 1) <= 2 + 1)
  /\ (2 * (1 + 1) <> 2 + 1 ->
      SN.a_ l = Fin (149597871 * (1 + 1) / (2 * (1 + 1) - (2 + 1)))).
Proof.
  apply (@SN_Blaauw Example.compare Example.constants
           (RealOrbit.mkInput 132700000000 149597871 0 2 1 1 0 0 0 0 1 1));
    try reflexivity.
  - exact Example_compare_exact.
  - unfold RealOrbit.bound_orbit. cbn. repeat split; lra.
  - cbn. lra.
Defined.
Section AlreadyUnbound.
Context {cfg : CompareConfig} {K : Constants} {Opt : Options}
        {SI : StarInterface} {RI : RandomInterface} {Hd : Header}.

Lemma m_SystemicVelocity_call (p : StarRef)
    (f : BinaryConstituentStar -> BinaryConstituentStar) (s : BaseBinaryStar) :
  m_SystemicVelocity (call p f s) = m_SystemicVelocity s.
Proof. destruct p; reflexivity. Qed.

Lemma get_call (p : StarRef)
    (f : BinaryConstituentStar -> BinaryConstituentStar) (s : BaseBinaryStar)
    (g : DoubleMember) :
  (call p f s).[g] = s.[g].
Proof. destruct p; reflexivity. Qed.

Lemma get_set_other (f g : DoubleMember) (x : double) (s : BaseBinaryStar) :
  DoubleMember_beq f g = false -> (set_double f x s).[g] = s.[g].
Proof. intros H. rewrite get_set_double, H. reflexivity. Qed.

(** Reading a member through the assignments and calls made after it was
    set, one layer at a time. *)
Ltac peel :=
  repeat lazymatch goal with
  | |- doubles (call _ _ _) _ = _ => refine (eq_trans (get_call _ _ _ _) _)
  | |- doubles (set_double ?f _ _) ?g = _ =>
      first [ exact (get_set_double_same f _ _)
            | refine (eq_trans (get_set_other f g _ _ eq_refl) _) ]
  | |- bools (call _ _ _) = _ => refine (eq_trans (bools_call _ _ _) _)
  | |- bools (set_double _ _ _) = _ => refine (eq_trans (bools_set_double _ _ _) _)
  | |- m_SystemicVelocity (call _ _ _) = _ =>
      refine (eq_trans (m_SystemicVelocity_call _ _ _) _)
  | |- m_SystemicVelocity (set_double _ _ _) = _ =>
      change (m_SystemicVelocity (set_double ?f ?x ?s))
        with (m_SystemicVelocity s)
  end.

(** X22. A supernova in a binary that is already unbound: [ResolveSupernova]
    returns true and prints the supernova details, but it does not touch the
    orbit (semi-major axis, eccentricity, every flag and the systemic
    velocity are as before), and it records the pre-supernova orbital
    velocity and the dimensionless kick as not-a-number. *)
Theorem ResolveSupernova_already_unbound (s : BaseBinaryStar) (w : World) :
  IsSNevent (star (m_Supernova s) s) = true ->
  IsUnbound (SN_preamble s) = true ->
  let s' := snd (fst (ResolveSupernova s w)) in
  fst (fst (ResolveSupernova s w)) = true
  /\ snd (ResolveSupernova s w) = emit PrintSupernovaDetails w
  /\ s'.[m_OrbitalVelocityPreSN] = NaN
  /\ s'.[m_uK] = NaN
  /\ s'.[m_SemiMajorAxis] = s.[m_SemiMajorAxis]
  /\ s'.[m_Eccentricity] = s.[m_Eccentricity]
  /\ bools s' = bools s
  /\ m_SystemicVelocity s' = m_SystemicVelocity s.
Proof.
  intros Hsn Hunb. cbv zeta.
  assert (Hpre : (SN_preamble s).[m_SemiMajorAxis] = s.[m_SemiMajorAxis]
                 /\ (SN_preamble s).[m_Eccentricity] = s.[m_Eccentricity]
                 /\ m_SystemicVelocity (SN_preamble s) = m_SystemicVelocity s).
  { unfold SN_preamble. cbv zeta. repeat split; peel; reflexivity. }
  destruct Hpre as (Hpa & Hpe & Hpv).
  remember (ResolveSupernova s w) as res eqn:Hres. revert Hres.
  unfold ResolveSupernova. rewrite Hsn. cbn [negb]. cbv zeta. rewrite Hunb.
  intros ->. cbn [fst snd].
  split; [reflexivity|]. split; [reflexivity|].
  split; [peel; reflexivity|]. split; [peel; reflexivity|].
  split; [peel; exact Hpa|]. split; [peel; exact Hpe|].
  split; [peel; apply bools_SN_preamble | peel; exact Hpv].
Qed.

End AlreadyUnbound.
Lemma ResolveSupernova_already_unbound_witness :
  let s :=
    @set_double Example.constants Example.unit_stars m_SemiMajorAxis (Fin 0)
      Example.radial_binary in
  let r :=
    @ResolveSupernova Example.compare Example.constants Example.unit_stars
      Example.random Example.unit_header s (Example.world []) in
  fst (fst r) = true
  /\ snd r = emit PrintSupernovaDetails (Example.world [])
  /\ (snd (fst r)).[m_OrbitalVelocityPreSN] = NaN
  /\ (snd (fst r)).[m_uK] = NaN
  /\ (snd (fst r)).[m_SemiMajorAxis] = s.[m_SemiMajorAxis]
  /\ (snd (fst r)).[m_Eccentricity] = s.[m_Eccentricity]
  /\ bools (snd (fst r)) = bools s
  /\ m_SystemicVelocity (snd (fst r)) = m_SystemicVelocity s.
Proof.
  apply (@ResolveSupernova_already_unbound Example.compare Example.constants
           Example.unit_stars Example.random Example.unit_header).
  - reflexivity.
  - change ((@utils.Compare Example.compare (Fin 0) (Fin 0) <=? 0)%Z
            || (@utils.Compare Example.compare (Fin 0) (Fin 1) >? 0)%Z = true).
    rewrite (Compare_exact _ _ Example_compare_exact).
    destruct (Req_dec_T 0 0); [reflexivity | lra].
Defined.
Section IntactSupernova.
Context {cfg : CompareConfig} {K : Constants} {Opt : Options}
        {SI : StarInterface} {RI : RandomInterface} {Hd : Header}.
Import RealOrbit.

(** [ResolveSupernova] for a supernova in a binary that is intact records
    the post-supernova semi-major axis in AU and takes the inclination from
    [m_ThetaE]. *)
Lemma ResolveSupernova_intact_axis (s : BaseBinaryStar) (w : World) :
  IsSNevent (star (m_Supernova s) s) = true ->
  IsUnbound (SN_preamble s) = false ->
  let s1 := SN_preamble s in
  let l := fst (SN_orbit (SN_Theta (star (m_Supernova s1) s1)) s1) in
  let s' := snd (fst (ResolveSupernova s w)) in
  s'.[m_SemiMajorAxis] = (SN.a_ l * Fin KM_TO_AU)%D
  /\ s'.[m_IPrime] = s'.[m_ThetaE]
  /\ s'.[m_CosIPrime] = Double.cos s'.[m_ThetaE].
Proof.
  intros Hsn Hunb. cbv zeta.
  remember (ResolveSupernova s w) as res eqn:Hres. revert Hres.
  unfold ResolveSupernova. rewrite Hsn. cbn [negb]. cbv zeta. rewrite Hunb.
  destruct (SN_orbit _ (SN_preamble s)) as [l s2]. cbn [fst snd] in *.
  destruct (utils.Compare (SN.e_ l) (Fin 1) >=? 0)%Z.
  - destruct (SN_unbound l _ w) as [s3 w3].
    intros ->. cbn [fst snd].
    repeat split;
      repeat first
        [ rewrite doubles_call
        | rewrite get_set_double; cbn [DoubleMember_beq] ];
      reflexivity.
  - destruct (SN_bound l _ w) as [s3 w3].
    intros ->. cbn [fst snd].
    repeat split;
      repeat first
        [ rewrite doubles_call
        | rewrite get_set_double; cbn [DoubleMember_beq] ];
      reflexivity.
Qed.

(** X23. A supernova in an intact binary on a bound orbit, under an exact
    comparison.  [ResolveSupernova] returns true and records the
    eccentricity [e'] of the new orbit.  If [e' < 1] the unbound flag is
    left as it was, the semi-major axis recorded is a positive number and
    [m_ThetaE] lies between 0 and pi.  If [e' >= 1] the binary is flagged
    unbound, and the semi-major axis recorded is a number that is not
    positive for [e' > 1].  If the new orbit has no angular momentum, where
    [e' = 1], the semi-major axis recorded is [0 / 0], not a number. *)
Theorem ResolveSupernova_intact_orbit (s : BaseBinaryStar) (w : World)
    (i : input) :
  exact_compare cfg ->
  0 < KM_TO_AU ->
  IsSNevent (star (m_Supernova s) s) = true ->
  IsUnbound (SN_preamble s) = false ->
  bound_orbit i -> G i = G_SN ->
  fst (SN_orbit (SN_Theta (star (m_Supernova (SN_preamble s)) (SN_preamble s)))
         (SN_preamble s))
  = SN_kinematics_at i ->
  let s' := snd (fst (ResolveSupernova s w)) in
  fst (fst (ResolveSupernova s w)) = true
  /\ s'.[m_Eccentricity] = Fin (e_ i)
  /\ (e_ i < 1 ->
      bools s' m_Unbound = bools s m_Unbound
      /\ (exists a', s'.[m_SemiMajorAxis] = Fin a' /\ 0 < a')
      /\ (exists t, s'.[m_ThetaE] = Fin t /\ 0 <= t <= PI))
  /\ (1 <= e_ i -> bools s' m_Unbound = true)
  /\ (1 < e_ i -> exists a', s'.[m_SemiMajorAxis] = Fin a' /\ a' <= 0)
  /\ (h_ i = 0 -> e_ i = 1 /\ s'.[m_SemiMajorAxis] = NaN).
Proof.
  intros Hx Hkm Hsn Hunb Hb HG Hl. cbv zeta.
  pose proof (ResolveSupernova_outcome s w i Hx Hsn Hunb Hb HG Hl) as Hout.
  pose proof (ResolveSupernova_intact s w Hsn Hunb) as Hint.
  pose proof (ResolveSupernova_intact_axis s w Hsn Hunb) as Hax.
  cbv zeta in Hout, Hint, Hax. rewrite Hl in Hax.
  destruct Hint as (Htrue & _). destruct Hax as (Hax & _).
  destruct Hout as (Hecc & Hge & Hlt).
  rewrite (SN_kinematics_reals i Hb HG) in Hax. cbn [SN.a_] in Hax.
  destruct (masses_nonzero i Hb) as (_ & Hg2 & _).
  assert (Hgm : 0 < G i * mb_ i).
  { destruct Hb as (HGp & _ & _ & _ & _ & Hmb). unfold mb_.
    apply Rmult_lt_0_compat; assumption. }
  pose proof (norm_nonneg (E_ i)) as He0. fold (e_ i) in He0.
  split; [exact Htrue|]. split; [exact Hecc|].
  split; [|split; [|split]].
  - intros H1. destruct (Hlt H1) as (Hflag & Ht).
    split; [exact Hflag|]. split; [|exact Ht].
    pose proof (bound_angular_momentum i Hb H1) as Hh.
    assert (Hden : 0 < G i * mb_ i * (1 - e_ i * e_ i)).
    { apply Rmult_lt_0_compat; [exact Hgm | nra]. }
    rewrite div_Fin in Hax by lra.
    exists (h_ i * h_ i / (G i * mb_ i * (1 - e_ i * e_ i)) * KM_TO_AU).
    split; [exact Hax|].
    apply Rmult_lt_0_compat; [|exact Hkm].
    apply Rdiv_lt_0_compat; [nra | exact Hden].
  - intros H1. apply Hge. exact H1.
  - intros H1.
    assert (Hden : G i * mb_ i * (1 - e_ i * e_ i) < 0).
    { assert (0 < G i * mb_ i * (e_ i * e_ i - 1))
        by (apply Rmult_lt_0_compat; [exact Hgm | nra]).
      lra. }
    rewrite div_Fin in Hax by lra.
    exists (h_ i * h_ i / (G i * mb_ i * (1 - e_ i * e_ i)) * KM_TO_AU).
    split; [exact Hax|].
    assert (Hq : h_ i * h_ i / (G i * mb_ i * (1 - e_ i * e_ i)) <= 0).
    { unfold Rdiv.
      assert (Hinv : / (G i * mb_ i * (1 - e_ i * e_ i)) < 0)
        by (apply Rinv_lt_0_compat; exact Hden).
      pose proof (Rle_0_sqr (h_ i)) as Hsq. unfold Rsqr in Hsq. nra. }
    nra.
  - intros Hh. pose proof (radial_orbit_eccentricity i Hb Hh) as H1.
    split; [exact H1|]. rewrite Hax, H1, Hh.
    replace (G i * mb_ i * (1 - 1 * 1)) with 0 by ring.
    rewrite div_by_zero. reflexivity.
Qed.

End IntactSupernova.

Lemma ResolveSupernova_intact_orbit_witness :
  let s := Example.radial_binary in
  let i := Example.radial_input in
  let r :=
    @ResolveSupernova Example.compare Example.constants Example.unit_stars
      Example.random Example.unit_header s (Example.world []) in
  fst (fst r) = true
  /\ (snd (fst r)).[m_Eccentricity] = Fin (RealOrbit.e_ i)
  /\ (RealOrbit.e_ i < 1 ->
      bools (snd (fst r)) m_Unbound = bools s m_Unbound
      /\ (exists a', (snd (fst r)).[m_SemiMajorAxis] = Fin a' /\ 0 < a')
      /\ (exists t, (snd (fst r)).[m_ThetaE] = Fin t /\ 0 <= t <= PI))
  /\ (1 <= RealOrbit.e_ i -> bools (snd (fst r)) m_Unbound = true)
  /\ (1 < RealOrbit.e_ i ->
      exists a', (snd (fst r)).[m_SemiMajorAxis] = Fin a' /\ a' <= 0)
  /\ (RealOrbit.h_ i = 0 ->
      RealOrbit.e_ i = 1 /\ (snd (fst r)).[m_SemiMajorAxis] = NaN).
Proof.
  apply (@ResolveSupernova_intact_orbit Example.compare Example.constants
           Example.unit_stars Example.random Example.unit_header
           Example.radial_binary (Example.world []) Example.radial_input).
  - exact Example_compare_exact.
  - apply Rinv_0_lt_compat. lra.
  - reflexivity.
  - exact radial_binary_intact.
  - exact radial_input_bound.
  - reflexivity.
  - reflexivity.
Defined.
Section StellarTypeLists.
Context {K : Constants} {SI : StarInterface}.
Hypothesis eqb_eq : forall a b : STELLAR_TYPE, STELLAR_TYPE_eqb a b = true <-> a = b.

Lemma IsOneOf_In (t : STELLAR_TYPE) (l : list STELLAR_TYPE) :
  utils.IsOneOf STELLAR_TYPE_eqb t l = true <-> In t l.
Proof.
  induction l as [|e rest IH]; cbn [utils.IsOneOf In].
  - split; [discriminate | contradiction].
  - destruct (STELLAR_TYPE_eqb t e) eqn:He.
    + apply eqb_eq in He. split; [intros _; left; symmetry; exact He | reflexivity].
    + rewrite IH. split; [intros H; right; exact H|].
      intros [H | H]; [|exact H].
      symmetry in H. apply eqb_eq in H. congruence.
Qed.

Lemma IsOneOf_not_In (t : STELLAR_TYPE) (l : list STELLAR_TYPE) :
  ~ In t l -> utils.IsOneOf STELLAR_TYPE_eqb t l = false.
Proof.
  intros Hn. destruct (utils.IsOneOf STELLAR_TYPE_eqb t l) eqn:H; [|reflexivity].
  apply IsOneOf_In in H. contradiction.
Qed.

Lemma HasOneOf_IsOneOf (s : BaseBinaryStar) (l : list STELLAR_TYPE) :
  HasOneOf s l = IsOneOf (m_Star1 s) l || IsOneOf (m_Star2 s) l.
Proof.
  unfold IsOneOf. induction l as [|e rest IH]; cbn [HasOneOf utils.IsOneOf].
  - reflexivity.
  - rewrite IH.
    destruct (STELLAR_TYPE_eqb (StellarType (m_Star1 s)) e),
             (STELLAR_TYPE_eqb (StellarType (m_Star2 s)) e); cbn [orb];
      try reflexivity.
    destruct (utils.IsOneOf STELLAR_TYPE_eqb (StellarType (m_Star1 s)) rest);
      reflexivity.
Qed.

Lemma HasTwoOf_from_NoDup (s : BaseBinaryStar) (l : list STELLAR_TYPE) :
  NoDup l -> forall m : Z, (0 <= m <= 1)%Z ->
  HasTwoOf_from m s l
  = (m + Z.b2z (IsOneOf (m_Star1 s) l) + Z.b2z (IsOneOf (m_Star2 s) l) >? 1)%Z.
Proof.
  unfold IsOneOf. induction 1 as [|e rest Hnin Hnd IH]; intros m Hm;
    cbn [HasTwoOf_from utils.IsOneOf].
  - cbn [Z.b2z]. destruct (Z.gtb_spec (m + 0 + 0) 1); [lia | reflexivity].
  - cbv zeta.
    set (b1 := utils.IsOneOf STELLAR_TYPE_eqb (StellarType (m_Star1 s)) rest) in *.
    set (b2 := utils.IsOneOf STELLAR_TYPE_eqb (StellarType (m_Star2 s)) rest) in *.
    assert (Hb1 : STELLAR_TYPE_eqb (StellarType (m_Star1 s)) e = true -> b1 = false).
    { intros H1. apply IsOneOf_not_In. apply eqb_eq in H1. rewrite H1. exact Hnin. }
    assert (Hb2 : STELLAR_TYPE_eqb (StellarType (m_Star2 s)) e = true -> b2 = false).
    { intros H2. apply IsOneOf_not_In. apply eqb_eq in H2. rewrite H2. exact Hnin. }
    assert (Hr1 : (0 <= Z.b2z b1 <= 1)%Z) by (destruct b1; cbn [Z.b2z]; lia).
    assert (Hr2 : (0 <= Z.b2z b2 <= 1)%Z) by (destruct b2; cbn [Z.b2z]; lia).
    destruct (STELLAR_TYPE_eqb (StellarType (m_Star1 s)) e);
    destruct (STELLAR_TYPE_eqb (StellarType (m_Star2 s)) e);
      try rewrite (Hb1 eq_refl) in *; try rewrite (Hb2 eq_refl) in *;
      cbn [Z.b2z] in *.
    + destruct (Z.gtb_spec (m + 1 + 1) 1); [reflexivity | lia].
    + destruct (Z.gtb_spec (m + 1) 1) as [Hc | Hc].
      * symmetry. apply Z.gtb_lt. lia.
      * rewrite IH by lia. f_equal. lia.
    + destruct (Z.gtb_spec (m + 1) 1) as [Hc | Hc].
      * symmetry. apply Z.gtb_lt. lia.
      * rewrite IH by lia. f_equal. lia.
    + destruct (Z.gtb_spec m 1) as [Hc | Hc]; [lia|].
      apply IH. exact Hm.
Qed.

(** X24. For an equality test on stellar types that decides equality:
    [HasOneOf] is true exactly when one of the two stars passes
    [IsOneOf] for the list.  [HasTwoOf] counts matches, not stars: for a list
    that names no stellar type twice it is true exactly when both stars pass
    [IsOneOf], but a list that names the type of the first star twice makes
    it true whatever the second star is. *)
Theorem HasOneOf_HasTwoOf_lists (s : BaseBinaryStar) (l : list STELLAR_TYPE) :
  HasOneOf s l = IsOneOf (m_Star1 s) l || IsOneOf (m_Star2 s) l
  /\ (NoDup l ->
      HasTwoOf s l = IsOneOf (m_Star1 s) l && IsOneOf (m_Star2 s) l)
  /\ HasTwoOf s [StellarType (m_Star1 s); StellarType (m_Star1 s)] = true.
Proof.
  split; [apply HasOneOf_IsOneOf|]. split.
  - intros Hnd. unfold HasTwoOf. rewrite (HasTwoOf_from_NoDup s l Hnd 0%Z) by lia.
    destruct (IsOneOf (m_Star1 s) l), (IsOneOf (m_Star2 s) l); reflexivity.
  - unfold HasTwoOf. cbn [HasTwoOf_from]. cbv zeta.
    assert (H1 : STELLAR_TYPE_eqb (StellarType (m_Star1 s)) (StellarType (m_Star1 s)) = true)
      by (apply eqb_eq; reflexivity).
    rewrite H1.
    destruct (STELLAR_TYPE_eqb (StellarType (m_Star2 s)) (StellarType (m_Star1 s)));
      reflexivity.
Qed.

End StellarTypeLists.
Lemma HasOneOf_HasTwoOf_lists_witness :
  let s := Example.envelope_binary in
  let l := [Example.FIRST_GIANT_BRANCH; Example.MS_GT_07] in
  @HasOneOf Example.constants Example.unit_stars s l
  = @IsOneOf Example.constants Example.unit_stars (m_Star1 s) l
    || @IsOneOf Example.constants Example.unit_stars (m_Star2 s) l
  /\ (NoDup l ->
      @HasTwoOf Example.constants Example.unit_stars s l
      = @IsOneOf Example.constants Example.unit_stars (m_Star1 s) l
        && @IsOneOf Example.constants Example.unit_stars (m_Star2 s) l)
  /\ @HasTwoOf Example.constants Example.unit_stars s
       [@StellarType Example.constants Example.unit_stars (m_Star1 s);
        @StellarType Example.constants Example.unit_stars (m_Star1 s)]
     = true.
Proof.
  apply (@HasOneOf_HasTwoOf_lists Example.constants Example.unit_stars).
  intros a b. split.
  - apply Example.internal_stellar_type_dec_bl.
  - apply Example.internal_stellar_type_dec_lb.
Defined.
Section ConservativeMassTransfer.
Context {cfg : CompareConfig} {K : Constants} {Opt : Options}
        {SI : StarInterface} {RI : RandomInterface}.





End ConservativeMassTransfer.
Section BirthLimits.
Context {cfg : CompareConfig} {K : Constants} {Opt : Options}
        {SI : StarInterface} {RI : RandomInterface}.

(** The two tests of one pass of the loop that [SampleBirth_fields] leaves
    out, on the members as the pass leaves them. *)
Lemma SampleBirth_tests (seed : N) (lbv wr : double) (rs : RandState) :
  let b := fst (SampleBirth seed lbv wr rs) in
  merger b
  = Double.lt (b_SemiMajorAxis b * Fin AU_TO_RSOL)%D
      (Radius (b_Star1 b) + Radius (b_Star2 b))%D
  /\ initialParametersOutsideParameterSpace b
     = (if AIS_RefinementPhase then
          (utils.Compare (mass1 b) (Fin InitialMassFunctionMin) <? 0)%Z
          || (utils.Compare (mass1 b) (Fin InitialMassFunctionMax) >? 0)%Z
          || (utils.Compare (massRatio b) (Fin MassRatioDistributionMin) <? 0)%Z
          || (utils.Compare (massRatio b) (Fin MassRatioDistributionMax) >? 0)%Z
          || (utils.Compare (b_SemiMajorAxis b) (Fin SemiMajorAxisDistributionMin) <? 0)%Z
          || (utils.Compare (b_SemiMajorAxis b) (Fin SemiMajorAxisDistributionMax) >? 0)%Z
        else false).
Proof.
  unfold SampleBirth.
  destruct (SampleInitialMassDistribution _) as [m1 rs1].
  destruct (SampleQDistribution rs1) as [q rs2].
  destruct (SampleMetallicityDistribution rs2) as [z1 rs3].
  destruct (SampleMetallicityDistribution rs3) as [z2 rs4].
  destruct (SampleSemiMajorAxisDistribution _ _ rs4) as [a0 rs5].
  destruct (SampleEccentricityDistribution rs5) as [e0 rs6].
  match goal with
  | |- context [if ?c && AllowRLOFAtBirth then _ else _] =>
      destruct (c && AllowRLOFAtBirth)
  end;
    cbn [fst b_SemiMajorAxis b_Star1 b_Star2 mass1 massRatio merger
         initialParametersOutsideParameterSpace];
    split; reflexivity.
Qed.

(** X26. A binary accepted by the rejection loop of the constructor.  If
    touching at birth is not allowed, the separation in solar radii does not
    compare below the sum of the stellar radii: for numbers, the stars do
    not touch.  In the refinement phase of adaptive importance sampling,
    under an exact comparison, the primary mass, the mass ratio and the
    semi-major axis that are numbers lie within the limits of their
    distributions.  A separation that is not a number is never counted as
    touching. *)
Theorem accepted_birth_within_limits (fuel : nat) (seed : N)
    (lbv wr : double) (rs rs' : RandState) (b : Birth) :
  SampleUntilAccepted fuel seed lbv wr rs = Some (b, rs') ->
  (AllowTouchingAtBirth = false ->
   forall a r1 r2 : R,
     b_SemiMajorAxis b = Fin a ->
     Radius (b_Star1 b) = Fin r1 -> Radius (b_Star2 b) = Fin r2 ->
     r1 + r2 <= a * AU_TO_RSOL)
  /\ (AIS_RefinementPhase = true -> exact_compare cfg ->
      (forall m, mass1 b = Fin m ->
         InitialMassFunctionMin <= m <= InitialMassFunctionMax)
      /\ (forall q, massRatio b = Fin q ->
            MassRatioDistributionMin <= q <= MassRatioDistributionMax)
      /\ (forall a, b_SemiMajorAxis b = Fin a ->
            SemiMajorAxisDistributionMin <= a <= SemiMajorAxisDistributionMax))
  /\ (b_SemiMajorAxis b = NaN -> merger b = false).
Proof.
  intros Hacc.
  destruct (SampleUntilAccepted_inv _ _ _ _ _ _ _ Hacc) as (rs0 & Hb & Hrej).
  pose proof (SampleBirth_tests seed lbv wr rs0) as Ht.
  rewrite Hb in Ht. cbn [fst] in Ht. destruct Ht as (Hmerger & Hout).
  unfold rejected in Hrej.
  apply orb_false_iff in Hrej as [Hrej Hspace].
  apply orb_false_iff in Hrej as [Hrej _].
  apply orb_false_iff in Hrej as [_ Htouch].
  split; [|split].
  - intros Hallow a r1 r2 Ha H1 H2.
    rewrite Hallow in Htouch. cbn [negb andb] in Htouch.
    rewrite Hmerger, Ha, H1, H2 in Htouch. cbn in Htouch.
    destruct (Rlt_dec (a * AU_TO_RSOL) (r1 + r2)); [discriminate | lra].
  - intros Hais Hx. rewrite Hout, Hais in Hspace.
    repeat (apply orb_false_iff in Hspace; destruct Hspace as [Hspace ?]).
    assert (Hlo : forall x y, (utils.Compare (Fin x) (Fin y) <? 0)%Z = false -> y <= x).
    { intros x y Hc. destruct (Rle_dec y x) as [Hle | Hn]; [exact Hle|].
      assert (Hlt : x < y) by lra.
      apply (Compare_exact_lt _ _ Hx) in Hlt. congruence. }
    assert (Hhi : forall x y, (utils.Compare (Fin x) (Fin y) >? 0)%Z = false -> x <= y).
    { intros x y Hc. destruct (Rle_dec x y) as [Hle | Hn]; [exact Hle|].
      assert (Hlt : y < x) by lra.
      apply (Compare_exact_gt _ _ Hx) in Hlt. congruence. }
    split; [|split].
    + intros m Hm. rewrite Hm in *. split; [apply Hlo | apply Hhi]; assumption.
    + intros q Hq. rewrite Hq in *. split; [apply Hlo | apply Hhi]; assumption.
    + intros a Ha. rewrite Ha in *. split; [apply Hlo | apply Hhi]; assumption.
  - intros Ha. rewrite Hmerger, Ha. reflexivity.
Qed.

End BirthLimits.
Section ExampleDetachedBirth.

Let pass :=
  @SampleBirth Example.compare Example.constants (Example.options true false true)
    Example.unit_stars Example.random 0%N (Fin 1) (Fin 1) Example.script_10_8.

(** The scenario of 10 and 8 solar masses at 10 AU with radii equal to the
    masses, touching at birth not allowed: the first pass is accepted,
    whether or not the masses are equilibrated. *)
Lemma untouching_accepted :
  @SampleUntilAccepted Example.compare Example.constants
    (Example.options true false true) Example.unit_stars Example.random
    1 0%N (Fin 1) (Fin 1) Example.script_10_8
  = Some (fst pass, snd pass).
Proof.
  assert (Hrej : @rejected Example.constants (Example.options true false true)
                   Example.unit_stars (fst pass) = false).
  { unfold rejected, pass, SampleBirth.
    cbn [AIS_RefinementPhase Example.options SampleInitialMassDistribution
         SampleQDistribution SampleMetallicityDistribution
         SampleSemiMajorAxisDistribution SampleEccentricityDistribution
         Example.random Example.next_double Example.next Example.script_10_8
         AllowRLOFAtBirth AllowTouchingAtBirth].
    match goal with
    | |- context [if ?c && true then _ else _] => destruct (c && true)
    end;
      cbn [fst rlof merger secondarySmallerThanMinimumMass
           initialParametersOutsideParameterSpace negb andb orb].
    - rewrite orb_false_r. apply orb_false_iff. split.
      + change AU_TO_RSOL with (@AU_TO_RSOL Example.constants).
        cbn [SetCompanion Radius Example.unit_stars Example.stars
             NewBinaryConstituentStar Example.newborn Example.x_Radius
             Double.lift1].
        dcalc. unfold Double.lt.
        match goal with
        | |- (if Rlt_dec ?x ?y then _ else _) = _ =>
            destruct (Rlt_dec x y) as [Hlt | _]; [exfalso | reflexivity]
        end.
        cbn [AU_TO_RSOL Example.constants] in Hlt. lra.
      + dcalc.
        match goal with
        | |- ?c = false => destruct c eqn:Hc; [exfalso | reflexivity]
        end.
        apply (Compare_exact_lt _ _ Example_compare_exact) in Hc.
        cbn [MinimumMassSecondary Example.options] in Hc. lra.
    - rewrite orb_false_r. apply orb_false_iff. split.
      + change AU_TO_RSOL with (@AU_TO_RSOL Example.constants).
        cbn [SetCompanion Radius Example.unit_stars Example.stars
             NewBinaryConstituentStar Example.newborn Example.x_Radius
             Double.lift1].
        dcalc. unfold Double.lt.
        match goal with
        | |- (if Rlt_dec ?x ?y then _ else _) = _ =>
            destruct (Rlt_dec x y) as [Hlt | _]; [exfalso | reflexivity]
        end.
        cbn [AU_TO_RSOL Example.constants] in Hlt. lra.
      + dcalc.
        match goal with
        | |- ?c = false => destruct c eqn:Hc; [exfalso | reflexivity]
        end.
        apply (Compare_exact_lt _ _ Example_compare_exact) in Hc.
        cbn [MinimumMassSecondary Example.options] in Hc. lra. }
  unfold SampleUntilAccepted. fold pass.
  destruct pass as [b rs']. cbn [fst snd] in *. rewrite Hrej. reflexivity.
Qed.

Lemma accepted_birth_within_limits_witness :
  let b := fst pass in
  @SampleUntilAccepted Example.compare Example.constants
    (Example.options true false true) Example.unit_stars Example.random
    1 0%N (Fin 1) (Fin 1) Example.script_10_8
  = Some (b, snd pass)
  /\ @AllowTouchingAtBirth (Example.options true false true) = false
  /\ (forall a r1 r2 : R,
        b_SemiMajorAxis b = Fin a ->
        @Radius Example.constants Example.unit_stars (b_Star1 b) = Fin r1 ->
        @Radius Example.constants Example.unit_stars (b_Star2 b) = Fin r2 ->
        r1 + r2 <= a * @AU_TO_RSOL Example.constants).
Proof.
  cbv zeta.
  destruct (@accepted_birth_within_limits Example.compare Example.constants
              (Example.options true false true) Example.unit_stars
              Example.random 1 0%N (Fin 1) (Fin 1) Example.script_10_8
              (snd pass) (fst pass) untouching_accepted) as (Htouch & _).
  split; [exact untouching_accepted|].
  split; [reflexivity|].
  exact (Htouch eq_refl).
Defined.

End ExampleDetachedBirth.
(** [ln (1 + t) / t^2] falls as [t] grows. *)
Lemma ln1p_over_square_decreasing (s t : R) :
  0 < s -> s <= t ->
  ln (1 + t) / t / t <= ln (1 + s) / s / s.
Proof.
  intros Hs Hst.
  assert (Ht : 0 < t) by lra.
  assert (HL : s / (1 + s) <= ln (1 + s)).
  { pose proof (ln_ge_1_minus_inv (1 + s) ltac:(lra)) as H.
    replace (s / (1 + s)) with (1 - / (1 + s)) by (field; lra). exact H. }
  assert (Hstep : ln (1 + t) <= ln (1 + s) + (t - s) / (1 + s)).
  { pose proof (ln_le_minus_1 ((1 + t) / (1 + s))) as H.
    assert (Hq : 0 < (1 + t) / (1 + s)) by (apply Rdiv_lt_0_compat; lra).
    specialize (H Hq). unfold Rdiv in H at 1.
    rewrite ln_mult in H by (try apply Rinv_0_lt_compat; lra).
    rewrite ln_Rinv in H by lra.
    replace ((1 + t) / (1 + s) - 1) with ((t - s) / (1 + s)) in H by (field; lra).
    lra. }
  set (L := ln (1 + s)) in *. set (M := ln (1 + t)) in *.
  assert (Hd : 0 <= (t - s) / (1 + s)).
  { apply Rmult_le_pos; [lra|]. left. apply Rinv_0_lt_compat. lra. }
  assert (HLs : s <= (1 + s) * L).
  { apply (Rmult_le_compat_l (1 + s)) in HL; [|lra].
    replace ((1 + s) * (s / (1 + s))) with s in HL by (field; lra). exact HL. }
  assert (Hkey : s * s * M <= t * t * L).
  { assert (Hm : (1 + s) * M <= (1 + s) * L + (t - s)).
    { apply (Rmult_le_compat_l (1 + s)) in Hstep; [|lra].
      replace ((1 + s) * (L + (t - s) / (1 + s))) with ((1 + s) * L + (t - s))
        in Hstep by (field; lra).
      exact Hstep. }
    assert (HL0 : 0 <= L) by (unfold L; rewrite <- ln_1; left; apply ln_increasing; lra).
    apply (Rmult_le_reg_l (1 + s)); [lra|].
    assert (H1 : (1 + s) * (s * s * M) <= s * s * ((1 + s) * L + (t - s))) by nra.
    assert (H2 : s * s * ((1 + s) * L + (t - s)) <= (1 + s) * (t * t * L)).
    { assert (Hts : 0 <= t - s) by lra.
      assert (H3 : s * s * (t - s) <= (t * t - s * s) * ((1 + s) * L)).
      { replace (t * t - s * s) with ((t - s) * (t + s)) by ring.
        assert (s * s <= (t + s) * ((1 + s) * L)) by nra.
        nra. }
      nra. }
    lra. }
  apply (Rmult_le_reg_r (s * s * (t * t)));
    [repeat apply Rmult_lt_0_compat; lra|].
  replace (M / t / t * (s * s * (t * t))) with (s * s * M) by (field; lra).
  replace (L / s / s * (s * s * (t * t))) with (t * t * L) by (field; lra).
  exact Hkey.
Qed.

(** The Roche-lobe radius grows with the mass of the star it belongs to. *)
Lemma RocheLobe_increasing (a a' b : R) :
  0 < a -> a <= a' -> 0 < b ->
  exists rl rl' : R,
    CalculateRocheLobeRadius_Static (Fin a) (Fin b) = Fin rl
    /\ CalculateRocheLobeRadius_Static (Fin a') (Fin b) = Fin rl'
    /\ 0 < rl /\ rl <= rl' /\ rl' < 0.49 / 0.6.
Proof.
  intros Ha Haa Hb.
  assert (Ha' : 0 < a') by lra.
  destruct (RocheLobe_bounds a b Ha Hb) as (rl & Hrl & Hlo & _).
  destruct (RocheLobe_bounds a' b Ha' Hb) as (rl' & Hrl' & _ & Hhi).
  exists rl, rl'. split; [exact Hrl|]. split; [exact Hrl'|].
  split; [exact Hlo|]. split; [|exact Hhi].
  rewrite RocheLobe_Fin in Hrl, Hrl' by assumption.
  injection Hrl as <-. injection Hrl' as <-.
  assert (Hq : 0 < a / b) by (apply Rdiv_lt_0_compat; assumption).
  assert (Hqq : a / b <= a' / b).
  { unfold Rdiv. apply Rmult_le_compat_r; [|exact Haa].
    left. apply Rinv_0_lt_compat. exact Hb. }
  pose proof (Rpower_pos (a / b) (1 / 3)) as Hs.
  assert (Hst : Rpower (a / b) (1 / 3) <= Rpower (a' / b) (1 / 3)).
  { apply Rle_Rpower_l; lra. }
  pose proof (ln1p_over_square_decreasing _ _ Hs Hst) as Hg.
  set (s := Rpower (a / b) (1 / 3)) in *.
  set (t := Rpower (a' / b) (1 / 3)) in *.
  assert (Hgt : 0 < ln (1 + t) / t / t).
  { assert (0 < ln (1 + t)) by (rewrite <- ln_1; apply ln_increasing; lra).
    apply Rdiv_lt_0_compat; [apply Rdiv_lt_0_compat|]; lra. }
  unfold Rdiv at 1 3. apply Rmult_le_compat_l; [lra|].
  apply Rinv_le_contravar; lra.
Qed.

(** X27. The Roche-lobe radius of positive finite masses, in units of the
    semi-major axis, lies strictly between 0 and [0.49 / 0.6], and it grows
    with the mass of the star it belongs to; of the two stars of a binary
    the more massive one has the larger lobe. *)
Theorem RocheLobe_range_monotone (a a' b : R) :
  0 < a -> a <= a' -> 0 < b ->
  exists rl rl' lo hi : R,
    CalculateRocheLobeRadius_Static (Fin a) (Fin b) = Fin rl
    /\ CalculateRocheLobeRadius_Static (Fin a') (Fin b) = Fin rl'
    /\ 0 < rl /\ rl <= rl' /\ rl' < 0.49 / 0.6
    /\ CalculateRocheLobeRadius_Static (Fin a) (Fin a') = Fin lo
    /\ CalculateRocheLobeRadius_Static (Fin a') (Fin a) = Fin hi
    /\ lo <= hi.
Proof.
  intros Ha Haa Hb. assert (Ha' : 0 < a') by lra.
  destruct (RocheLobe_increasing a a' b Ha Haa Hb)
    as (rl & rl' & H1 & H2 & H3 & H4 & H5).
  destruct (RocheLobe_increasing a a' a' Ha Haa Ha')
    as (lo & mid & Hlo & Hmid & _ & Hlm & _).
  destruct (RocheLobe_increasing a a' a Ha Haa Ha)
    as (mid' & hi & Hmid' & Hhi & _ & Hmh & _).
  rewrite RocheLobe_equal_masses in Hmid, Hmid' by assumption.
  injection Hmid as <-. injection Hmid' as <-.
  exists rl, rl', lo, hi. repeat split; try assumption. lra.
Qed.

Lemma RocheLobe_range_monotone_witness :
  exists rl rl' lo hi : R,
    CalculateRocheLobeRadius_Static (Fin 8) (Fin 10) = Fin rl
    /\ CalculateRocheLobeRadius_Static (Fin 10) (Fin 10) = Fin rl'
    /\ 0 < rl /\ rl <= rl' /\ rl' < 0.49 / 0.6
    /\ CalculateRocheLobeRadius_Static (Fin 8) (Fin 10) = Fin lo
    /\ CalculateRocheLobeRadius_Static (Fin 10) (Fin 8) = Fin hi
    /\ lo <= hi.
Proof.
  apply (RocheLobe_range_monotone 8 10 10); lra.
Defined.
Section CoalescenceScaling.
Context {cfg : CompareConfig} {K : Constants}.

Ltac by_cases_on_doubles :=
  repeat first
    [ progress cbn [Double.add Double.sub Double.mul Double.div Double.lift2]
    | match goal with
      | |- context [Req_dec_T ?b 0] => destruct (Req_dec_T b 0)
      end ];
  try reflexivity; try (f_equal; field; assumption).

Lemma circular_time_scales (k x : R) (B : double) :
  (Fin k * Fin x * (Fin k * Fin x) * (Fin k * Fin x) * (Fin k * Fin x) / B
   = Fin (k * k * k * k) * (Fin x * Fin x * Fin x * Fin x / B))%D.
Proof. destruct B; by_cases_on_doubles. Qed.

Lemma c0_scales (k x : R) (A1 A2 A3 : double) :
  let c0 := (Fin x * A1 * A2 * A3)%D in
  let c0' := (Fin k * Fin x * A1 * A2 * A3)%D in
  (c0' * c0' * c0' * c0' = Fin (k * k * k * k) * (c0 * c0 * c0 * c0))%D.
Proof.
  cbv zeta. destruct A1, A2, A3; by_cases_on_doubles.
Qed.

Lemma mul_NaN_r (x : double) : (x * NaN)%D = NaN.
Proof. destruct x; reflexivity. Qed.

(** X28. The time to coalescence grows with the fourth power of the
    separation, whichever of the four approximations the eccentricity
    selects, and it does not depend on the order of the two masses. *)
Theorem TimeToCoalescence_scales (k : R) (a e m1 m2 : double) :
  CalculateTimeToCoalescence (Fin k * a)%D e m1 m2
  = (Fin (k * k * k * k) * CalculateTimeToCoalescence a e m1 m2)%D
  /\ CalculateTimeToCoalescence a e m2 m1 = CalculateTimeToCoalescence a e m1 m2.
Proof.
  split.
  - unfold CalculateTimeToCoalescence. cbv zeta.
    destruct a as [x|].
    + rewrite c0_scales.
      match goal with
      | |- context [(_ / (Fin 4 * ?b))%D] => set (B4 := (Fin 4 * b)%D); set (B := b) in *
      end.
      destruct (CoalescenceBranchOf e).
      * apply circular_time_scales.
      * match goal with
        | |- (Fin ?kk * ?c * ?P / _ = _)%D =>
            destruct c, P, B4; by_cases_on_doubles
        end.
      * rewrite circular_time_scales.
        match goal with
        | |- (Fin ?kk * ?T * ?F = _)%D => destruct T, F; by_cases_on_doubles
        end.
      * match goal with
        | |- (?D * (Fin ?kk * ?c / B) * ?S = _)%D =>
            destruct D, c, B, S; by_cases_on_doubles
        end.
    + cbn [Double.mul Double.lift2].
      destruct (CoalescenceBranchOf e); cbn [Double.mul Double.div Double.lift2];
        rewrite ?mul_NaN_r; try reflexivity.
      all: repeat match goal with
           | |- context [(?X * NaN)%D] => rewrite (mul_NaN_r X)
           | |- context [(NaN * ?X)%D] => change (NaN * X)%D with NaN
           | |- context [(NaN / ?X)%D] => change (NaN / X)%D with NaN
           end; try reflexivity.
  - unfold CalculateTimeToCoalescence. cbv zeta.
    assert (Hb : forall X Y : double,
               (X * m2 * m1 * (m2 + m1) / Y = X * m1 * m2 * (m1 + m2) / Y)%D).
    { intros X Y. destruct X, Y, m1, m2; by_cases_on_doubles. }
    rewrite !Hb. reflexivity.
Qed.

End CoalescenceScaling.
Section CoalescencePositive.
Context {cfg : CompareConfig} {K : Constants}.
Hypothesis Hexact : exact_compare cfg.
Hypothesis HG : 0 < G.
Hypothesis HC : 0 < C.

Lemma beta_positive (m1 m2 : R) :
  0 < m1 -> 0 < m2 ->
  exists b : R,
    ((Fin 64 / Fin 5) * Fin G * Fin G * Fin G * Fin m1 * Fin m2
     * (Fin m1 + Fin m2) / (Fin C * Fin C * Fin C * Fin C * Fin C))%D = Fin b
    /\ 0 < b.
Proof.
  intros H1 H2.
  assert (HC5 : 0 < C * C * C * C * C) by (repeat apply Rmult_lt_0_compat; exact HC).
  rewrite (div_Fin 64 5) by lra. dfold. rewrite div_Fin by lra.
  eexists. split; [reflexivity|].
  apply Rdiv_lt_0_compat; [|exact HC5].
  repeat apply Rmult_lt_0_compat; lra.
Qed.

Lemma c0_positive (a x : R) :
  0 < a -> 0 < x < 1 ->
  exists c : R,
    (Fin a * (Fin 1 - Fin x * Fin x)
     * Double.pow (Fin x) (- Fin 12 / Fin 19)
     * Double.pow (Fin 1 + (Fin 121 * (Fin x * Fin x) / Fin 304))
         (- Fin 870 / Fin 2299))%D = Fin c
    /\ 0 < c.
Proof.
  intros Ha Hx0. dfold. rewrite !div_Fin by lra. dfold.
  rewrite pow_Fin by lra. rewrite pow_Fin by nra. dfold.
  eexists. split; [reflexivity|].
  repeat apply Rmult_lt_0_compat; try apply Rpower_pos; nra.
Qed.

(** One term of the quadrature is a number that is not negative, and it is
    positive away from [e = 0]. *)
Lemma quadrature_term (de e : R) :
  0 < de -> 0 <= e < 1 ->
  exists t : R,
    (Fin de * Double.pow (Fin e) (Fin 29 / Fin 19)
     * Double.pow (Fin 1 + (Fin 121 / Fin 304) * Fin e * Fin e)
         (Fin 1181 / Fin 2299)
     / ((Fin 1 - Fin e * Fin e) * Double.sqrt (Fin 1 - Fin e * Fin e)))%D
    = Fin t
    /\ 0 <= t /\ (0 < e -> 0 < t).
Proof.
  intros Hde He. rewrite !div_Fin by lra. dfold.
  assert (H1 : 0 < 1 - e * e) by nra.
  rewrite sqrt_Fin by lra. dfold.
  assert (Hs : 0 < sqrt (1 - e * e)) by (apply sqrt_lt_R0; exact H1).
  assert (Hden : 0 < (1 - e * e) * sqrt (1 - e * e)) by (apply Rmult_lt_0_compat; assumption).
  rewrite (pow_Fin (1 + 121 / 304 * e * e)) by nra.
  pose proof (Rpower_pos (1 + 121 / 304 * e * e) (1181 / 2299)) as Hq.
  destruct (Req_dec_T e 0) as [-> | Hne].
  - unfold Double.pow.
    destruct (Rlt_dec 0 0) as [Hlt | _]; [lra|].
    destruct (Req_dec_T (29 / 19) 0) as [Hz | _]; [lra|].
    destruct (Req_dec_T 0 0) as [_ | Hz]; [|lra].
    destruct (Rlt_dec 0 (29 / 19)) as [_ | Hn]; [|lra].
    dfold. rewrite div_Fin by lra.
    eexists. split; [reflexivity|].
    split; [|lra].
    right. unfold Rdiv. ring.
  - rewrite pow_Fin by lra. dfold. rewrite div_Fin by lra.
    eexists. split; [reflexivity|].
    assert (0 < de * Rpower e (29 / 19) * Rpower (1 + 121 / 304 * e * e) (1181 / 2299)
                / ((1 - e * e) * sqrt (1 - e * e))).
    { apply Rdiv_lt_0_compat; [|exact Hden].
      repeat apply Rmult_lt_0_compat; try apply Rpower_pos; lra. }
    split; [lra | intros _; assumption].
Qed.

Lemma quadrature_sum (x : R) :
  0 < x < 1 ->
  forall (n k : nat) (sigma : R),
    0 <= sigma ->
    exists sigma' : R,
      quadrature_loop n (Fin x) (Fin (x / 10000))
        (Fin (INR k * (x / 10000))) (Fin sigma) = Fin sigma'
      /\ sigma <= sigma'
      /\ ((1 <= n)%nat -> 0 < INR k -> INR k * (x / 10000) < x ->
          sigma < sigma').
Proof.
  intros Hx. assert (Hde : 0 < x / 10000) by lra.
  induction n as [|n IH]; intros k sigma Hs.
  - exists sigma. split; [reflexivity|]. split; [lra | intros Hn; lia].
  - cbn [quadrature_loop]. cbv zeta.
    assert (Hk0 : 0 <= INR k * (x / 10000)).
    { apply Rmult_le_pos; [apply pos_INR | lra]. }
    destruct (utils.Compare (Fin (INR k * (x / 10000))) (Fin x) <? 0)%Z eqn:Hc.
    + apply (Compare_exact_lt _ _ Hexact) in Hc.
      destruct (quadrature_term (x / 10000) (INR k * (x / 10000)) Hde)
        as (t & Ht & Ht0 & Htpos); [lra|].
      rewrite Ht. dfold.
      replace (INR k * (x / 10000) + x / 10000) with (INR (S k) * (x / 10000))
        by (rewrite S_INR; ring).
      destruct (IH (S k) (sigma + t)) as (s' & Hs' & Hle & _); [lra|].
      exists s'. split; [exact Hs'|]. split; [lra|].
      intros _ Hk _. assert (0 < t) by (apply Htpos; nra). lra.
    + exists sigma. split; [reflexivity|]. split; [lra|].
      intros _ _ Hlt. apply (Compare_exact_lt _ _ Hexact) in Hlt. congruence.
Qed.

(** The sum of the quadrature for an eccentricity between 0 and 1 is a
    positive number. *)
Lemma quadrature_positive (x : R) :
  0 < x < 1 ->
  exists sigma : R,
    quadrature_loop quadrature_fuel (Fin x) (Fin x / Fin 10000)%D (Fin 0) (Fin 0)
    = Fin sigma
    /\ 0 < sigma.
Proof.
  intros Hx. rewrite div_Fin by lra.
  assert (Hde : 0 < x / 10000) by lra.
  replace quadrature_fuel with (S (S (Z.to_nat 9999)))
    by (unfold quadrature_fuel; lia).
  cbn [quadrature_loop]. cbv zeta.
  assert (Hc0 : (utils.Compare (Fin 0) (Fin x) <? 0)%Z = true)
    by (apply (Compare_exact_lt _ _ Hexact); lra).
  rewrite Hc0.
  destruct (quadrature_term (x / 10000) 0 Hde) as (t & Ht & Ht0 & _); [lra|].
  rewrite Ht. dfold.
  destruct (quadrature_sum x Hx (S (Z.to_nat 9999)) 1 (0 + t))
    as (s' & Hs' & Hle & Hlt); [lra|].
  cbn [INR] in Hs', Hlt.
  replace (0 + x / 10000) with (1 * (x / 10000)) by ring.
  cbn [quadrature_loop] in Hs'. cbv zeta in Hs'.
  exists s'. split; [exact Hs'|].
  assert (0 + t < s') by (apply Hlt; [lia | lra | lra]).
  lra.
Qed.

Lemma CoalescenceBranchOf_exact (x : R) :
  CoalescenceBranchOf (Fin x)
  = if Req_dec_T x 0 then CIRCULAR
    else if Rlt_dec x 0.01 then LOW_ECCENTRICITY
    else if Rlt_dec 0.99 x then HIGH_ECCENTRICITY
    else QUADRATURE.
Proof.
  unfold CoalescenceBranchOf. rewrite !(Compare_exact _ _ Hexact).
  destruct (Req_dec_T x 0) as [H0 | H0]; [reflexivity|].
  assert (Hn : negb ((if Rlt_dec x 0 then -1 else 1) =? 0)%Z = true)
    by (destruct (Rlt_dec x 0); reflexivity).
  rewrite Hn.
  destruct (Req_dec_T x 0.01), (Rlt_dec x 0.01), (Req_dec_T x 0.99),
           (Rlt_dec x 0.99), (Rlt_dec 0.99 x);
    try reflexivity; try lra.
Qed.

(** X29. Under an exact comparison and with positive constants [G] and [C],
    the time to coalescence of a binary with positive separation and masses
    and an eccentricity from 0 up to, but not including, 1 is a positive
    number, whichever of the four approximations is selected. *)
Theorem TimeToCoalescence_positive (a x m1 m2 : R) :
  0 < a -> 0 <= x < 1 -> 0 < m1 -> 0 < m2 ->
  exists t : R,
    CalculateTimeToCoalescence (Fin a) (Fin x) (Fin m1) (Fin m2) = Fin t
    /\ 0 < t.
Proof.
  intros Ha Hx H1 H2. unfold CalculateTimeToCoalescence. cbv zeta.
  destruct (beta_positive m1 m2 H1 H2) as (b & -> & Hb).
  rewrite CoalescenceBranchOf_exact.
  assert (Ha4 : 0 < a * a * a * a) by (repeat apply Rmult_lt_0_compat; exact Ha).
  destruct (Req_dec_T x 0) as [H0 | H0].
  - dfold. rewrite div_Fin by lra. eexists. split; [reflexivity|].
    apply Rdiv_lt_0_compat; lra.
  - assert (Hx' : 0 < x < 1) by lra.
    destruct (c0_positive a x Ha Hx') as (c & -> & Hc).
    assert (Hc4 : 0 < c * c * c * c) by (repeat apply Rmult_lt_0_compat; exact Hc).
    destruct (Rlt_dec x 0.01) as [Hlow | Hlow];
      [|destruct (Rlt_dec 0.99 x) as [Hhigh | Hhigh]].
    + rewrite div_Fin by lra. rewrite pow_Fin by lra. dfold.
      rewrite div_Fin by lra. eexists. split; [reflexivity|].
      apply Rdiv_lt_0_compat; [|lra].
      apply Rmult_lt_0_compat; [exact Hc4 | apply Rpower_pos].
    + dfold. rewrite div_Fin by lra. rewrite div_Fin by lra.
      assert (Hq : 0 < 1 - x * x) by nra.
      rewrite sqrt_Fin by lra. dfold.
      eexists. split; [reflexivity|].
      assert (0 < sqrt (1 - x * x)) by (apply sqrt_lt_R0; exact Hq).
      apply Rmult_lt_0_compat; [apply Rdiv_lt_0_compat; lra|].
      apply Rmult_lt_0_compat; [lra|].
      repeat apply Rmult_lt_0_compat; assumption.
    + destruct (quadrature_positive x Hx') as (sigma & -> & Hsig).
      dfold. rewrite div_Fin by lra. rewrite div_Fin by lra. dfold.
      eexists. split; [reflexivity|].
      apply Rmult_lt_0_compat; [|exact Hsig].
      apply Rmult_lt_0_compat; [lra|].
      apply Rdiv_lt_0_compat; lra.
Qed.

End CoalescencePositive.

Lemma TimeToCoalescence_positive_witness :
  exists t : R,
    @CalculateTimeToCoalescence Example.compare Example.constants
      (Fin 1000000000) (Fin 0.5) (Fin 1) (Fin 1) = Fin t
    /\ 0 < t.
Proof.
  apply (@TimeToCoalescence_positive Example.compare Example.constants
           Example_compare_exact);
    cbn [G C Example.constants]; lra.
Defined.
Section CommonEnvelopeShrinks.
Context {cfg : CompareConfig} {K : Constants} {Opt : Options}
        {SI : StarInterface} {RI : RandomInterface} {Hd : Header}.

(** X30. A common envelope event does not widen the orbit.  When the masses
    of the stars, their final masses and the periastron are positive
    numbers, no final mass exceeds the mass of its star, and the two
    envelope-binding terms are numbers that are not negative, the
    separation after the event is a positive number that does not exceed
    the periastron before it. *)
Theorem CE_separation_shrinks (s : BaseBinaryStar) (w : World)
    (m1 m2 f1 f2 p k1 k2 : R) :
  let l := fst (CE_prepare s) in
  let s0 := snd (CE_prepare s) in
  let s' := fst (ResolveCommonEnvelopeEvent s w) in
  Mass (m_Star1 s0) = Fin m1 -> Mass (m_Star2 s0) = Fin m2 ->
  s0.[m_Mass1Final] = Fin f1 -> s0.[m_Mass2Final] = Fin f2 ->
  0 < f1 <= m1 -> 0 < f2 <= m2 ->
  PeriastronRsol s = Fin p -> 0 < p ->
  CE_k1 (lambda1 l) (alphaCE l) s0 = Fin k1 -> 0 <= k1 ->
  CE_k2 (lambda2 l) (alphaCE l) s0 = Fin k2 -> 0 <= k2 ->
  exists af : R,
    s'.[m_CEDetails_postCEE_semiMajorAxis] = Fin af
    /\ s'.[m_SemiMajorAxis] = Fin (af * RSOL_TO_AU)
    /\ 0 < af <= p.
Proof.
  cbv zeta. intros Hm1 Hm2 Hf1 Hf2 H1 H2 Hp Hp0 Hk1 Hk10 Hk2 Hk20.
  rewrite !(CE_result_doubles s w). cbv zeta.
  destruct (CE_prepare_locals s) as (_ & Hperi & _).
  unfold CE_aFinalRsol, CE_k3, CE_k4.
  rewrite Hk1, Hk2, Hperi, Hp, Hm1, Hm2, Hf1, Hf2.
  assert (Hk3 : 0 < m1 * m2 / p).
  { apply Rdiv_lt_0_compat; [|exact Hp0]. apply Rmult_lt_0_compat; lra. }
  dfold. rewrite (div_Fin _ p) by lra. dfold.
  rewrite div_Fin by lra. dfold.
  eexists. split; [reflexivity|]. split; [reflexivity|].
  assert (Hden : 0 < k1 + k2 + m1 * m2 / p) by lra.
  assert (Hff : 0 < f1 * f2) by (apply Rmult_lt_0_compat; lra).
  split.
  - apply Rdiv_lt_0_compat; assumption.
  - apply (Rmult_le_reg_r (k1 + k2 + m1 * m2 / p)); [exact Hden|].
    unfold Rdiv at 1. rewrite Rmult_assoc, Rinv_l, Rmult_1_r by lra.
    assert (Hpk : f1 * f2 <= p * (m1 * m2 / p)).
    { replace (p * (m1 * m2 / p)) with (m1 * m2) by (field; lra). nra. }
    assert (0 <= p * (k1 + k2)) by (apply Rmult_le_pos; lra).
    lra.
Qed.

End CommonEnvelopeShrinks.

Lemma CE_separation_shrinks_witness :
  let s := Example.envelope_binary in
  let s' :=
    fst (@ResolveCommonEnvelopeEvent Example.compare Example.constants
           (Example.options true true true) Example.unit_stars Example.random
           Example.unit_header s (Example.world [])) in
  exists af : R,
    s'.[m_CEDetails_postCEE_semiMajorAxis] = Fin af
    /\ s'.[m_SemiMajorAxis] = Fin (af * @RSOL_TO_AU Example.constants)
    /\ 0 < af <= 1 * / 0.00465 * (1 - 0).
Proof.
  cbv zeta.
  apply (@CE_separation_shrinks Example.compare Example.constants
           (Example.options true true true) Example.unit_stars Example.random
           Example.unit_header Example.envelope_binary (Example.world [])
           5 1 1 1 (1 * / 0.00465 * (1 - 0))
           (2 / (1 * 1) * 5 * (5 - 1) / 100) (2 / (1 * 1) * 1 * 0 / 1));
    try reflexivity; try lra.
  - change (CE_k1 _ _ _)
      with ((Fin 2 / (Fin 1 * Fin 1)) * Fin 5 * (Fin 5 - Fin 1) / Fin 100)%D.
    dcalc. reflexivity.
  - change (CE_k2 _ _ _)
      with ((Fin 2 / (Fin 1 * Fin 1)) * Fin 1 * Fin 0 / Fin 1)%D.
    dcalc. reflexivity.
Defined.

(** ** Substeps of the mass-transfer orbit *)

Section MassTransferSubsteps.
Context {K : Constants}.

(** X2. The substeps of [CalculateMassTransferOrbit] for a donor of positive
    mass, when the mass change over the maximum fraction of the donor mass
    is below [2^31], so that the number of substeps is an [int]: there is at
    least one substep and fewer than [2^31], the substeps add up to the
    whole mass change, and each changes the donor mass by less than twice
    the maximum fraction per step; a mass change below that fraction of the
    donor mass is applied in a single substep. *)
Theorem substeps_cover_mass_change (m dm : R) :
  0 < m -> 0 < MAXIMUM_MASS_TRANSFER_FRACTION_PER_STEP ->
  Rabs dm / (MAXIMUM_MASS_TRANSFER_FRACTION_PER_STEP * m) < 2 ^ 31 ->
  let n := numberIterations (Fin m) (Fin dm) in
  (1 <= n < 2 ^ 31)%Z
  /\ (exists d : R,
        dM (Fin m) (Fin dm) = Fin d
        /\ IZR n * d = dm
        /\ Rabs d < 2 * MAXIMUM_MASS_TRANSFER_FRACTION_PER_STEP * m)
  /\ (Rabs dm < MAXIMUM_MASS_TRANSFER_FRACTION_PER_STEP * m ->
      n = 1%Z /\ dM (Fin m) (Fin dm) = Fin dm).
Proof.
  intros Hm Hf Hint n.
  assert (Hn : n = Z.max (Zfloor (Rabs dm / (MAXIMUM_MASS_TRANSFER_FRACTION_PER_STEP * m))) 1)
    by (apply numberIterations_Fin; assumption).
  assert (Hn1 : (1 <= n)%Z) by (rewrite Hn; lia).
  assert (Hn2 : (n < 2 ^ 31)%Z).
  { rewrite Hn. apply Z.max_lub_lt; [|lia].
    apply lt_IZR.
    pose proof (Zfloor_bound (Rabs dm / (MAXIMUM_MASS_TRANSFER_FRACTION_PER_STEP * m)))
      as [Hlo _].
    assert (H31 : IZR (2 ^ 31) = 2 ^ 31).
    { change (2 ^ 31)%Z with (2 ^ Z.of_nat 31)%Z. rewrite <- pow_IZR.
      reflexivity. }
    rewrite H31. lra. }
  assert (HnR : 1 <= IZR n) by (apply IZR_le; exact Hn1).
  assert (HdM : dM (Fin m) (Fin dm) = Fin (dm / IZR n)).
  { unfold dM. fold n. unfold Double.of_int. apply div_Fin. lra. }
  split; [split; assumption|]. split.
  - destruct (substep_below_twice_maximum m dm Hm Hf) as (d & Hd & Hlt).
    exists d. split; [exact Hd|].
    rewrite HdM in Hd. injection Hd as <-.
    split; [field; lra | exact Hlt].
  - intros Hsmall.
    assert (Hfm : 0 < MAXIMUM_MASS_TRANSFER_FRACTION_PER_STEP * m)
      by (apply Rmult_lt_0_compat; assumption).
    assert (Hx : 0 <= Rabs dm / (MAXIMUM_MASS_TRANSFER_FRACTION_PER_STEP * m) < 1).
    { split.
      - apply Rmult_le_pos; [apply Rabs_pos|]. left. apply Rinv_0_lt_compat. exact Hfm.
      - apply (Rmult_lt_reg_r (MAXIMUM_MASS_TRANSFER_FRACTION_PER_STEP * m)); [exact Hfm|].
        unfold Rdiv. rewrite Rmult_assoc, Rinv_l by lra. lra. }
    assert (Hfl : Zfloor (Rabs dm / (MAXIMUM_MASS_TRANSFER_FRACTION_PER_STEP * m)) = 0%Z).
    { apply Zfloor_eq. simpl. lra. }
    assert (Hone : n = 1%Z) by (rewrite Hn, Hfl; reflexivity).
    split; [exact Hone|].
    rewrite HdM, Hone. f_equal. field.
Qed.

End MassTransferSubsteps.

Lemma substeps_cover_mass_change_witness :
  let n := @numberIterations Example.constants (Fin 1) (Fin (-0.0035)) in
  Rabs (-0.0035) / (@MAXIMUM_MASS_TRANSFER_FRACTION_PER_STEP Example.constants * 1)
  < 2 ^ 31
  /\ (1 <= n < 2 ^ 31)%Z
  /\ (exists d : R,
        @dM Example.constants (Fin 1) (Fin (-0.0035)) = Fin d
        /\ IZR n * d = -0.0035
        /\ Rabs d < 2 * @MAXIMUM_MASS_TRANSFER_FRACTION_PER_STEP Example.constants * 1)
  /\ (Rabs (-0.0035) < @MAXIMUM_MASS_TRANSFER_FRACTION_PER_STEP Example.constants * 1 ->
      n = 1%Z /\ @dM Example.constants (Fin 1) (Fin (-0.0035)) = Fin (-0.0035)).
Proof.
  assert (Hint : Rabs (-0.0035)
                 / (@MAXIMUM_MASS_TRANSFER_FRACTION_PER_STEP Example.constants * 1)
                 < 2 ^ 31).
  { cbn [MAXIMUM_MASS_TRANSFER_FRACTION_PER_STEP Example.constants].
    rewrite Rabs_left by lra.
    apply (Rmult_lt_reg_r (0.001 * 1)); [lra|].
    unfold Rdiv. rewrite Rmult_assoc, Rinv_l by lra. lra. }
  split; [exact Hint|].
  apply (@substeps_cover_mass_change Example.constants 1 (-0.0035)).
  - lra.
  - cbn. lra.
  - exact Hint.
Defined.
